(** * Midjourney toolbox: prompt analysis, parameter editing, sentence alignment

    A shallow embedding of the core of [src/App.tsx]: [analyzePrompt],
    [updateParameter], [handleAddParameter] and [handleTranslate], together
    with the parts of the JavaScript runtime they rely on (strings as
    sequences of UTF-16 code units, the backtracking regular-expression
    matcher of ECMAScript, [String.prototype.replace], [match], [matchAll],
    [split], [trim] and [includes]). *)

From Stdlib Require Import String Ascii List NArith Arith Bool Lia DecimalString.
From Stdlib Require Import ZArith Floats.
Import ListNotations.

(** * Part I: the model *)

(** ** JavaScript strings *)

(** A JavaScript string is a sequence of UTF-16 code units. *)
Definition char := N.
Definition jsstring := list char.

Module Utf8.

(** Source literals are written in UTF-8; [decode] turns the bytes of a
    literal into UTF-16 code units (a code point above U+FFFF becomes a
    surrogate pair). *)
Definition cont (b : N) : N := N.land b 63.

Definition units (cp : N) : list char :=
  if (cp <? 65536)%N then [cp]
  else let v := (cp - 65536)%N in
       [(55296 + N.shiftr v 10)%N; (56320 + N.land v 1023)%N].

Fixpoint decode (bs : list N) : jsstring :=
  match bs with
  | [] => []
  | b0 :: t0 =>
    if (b0 <? 128)%N then b0 :: decode t0
    else match t0 with
    | [] => [b0]
    | b1 :: t1 =>
      if (b0 <? 224)%N then
        ((N.land b0 31) * 64 + cont b1)%N :: decode t1
      else match t1 with
      | [] => [b0; b1]
      | b2 :: t2 =>
        if (b0 <? 240)%N then
          ((N.land b0 15) * 4096 + cont b1 * 64 + cont b2)%N :: decode t2
        else match t2 with
        | [] => [b0; b1; b2]
        | b3 :: t3 =>
          units ((N.land b0 7) * 262144 + cont b1 * 4096
                 + cont b2 * 64 + cont b3)%N ++ decode t3
        end
      end
    end
  end.

Fixpoint bytes (s : string) : list N :=
  match s with
  | EmptyString => []
  | String a s' => N_of_ascii a :: bytes s'
  end.

End Utf8.

(** [js "..."] is the JavaScript string denoted by a source literal. *)
Definition js (s : string) : jsstring := Utf8.decode (Utf8.bytes s).
Arguments js s%_string.

(** The code unit of a one-character ASCII literal. *)
Definition ch (a : ascii) : char := N_of_ascii a.
Arguments ch a%_char.

Definition jseqb (s t : jsstring) : bool :=
  if list_eq_dec N.eq_dec s t then true else false.

(** ** Character classes *)

Definition in_range (lo hi c : char) : bool := ((lo <=? c) && (c <=? hi))%N.
Arguments in_range (lo hi c)%_N.

(** WhiteSpace and LineTerminator code points: the set used by [\s] and by
    [String.prototype.trim]. *)
Definition is_space (c : char) : bool :=
  (in_range 9 13 c || (c =? 32) || (c =? 160) || (c =? 5760)
   || in_range 8192 8202 c || (c =? 8232) || (c =? 8233) || (c =? 8239)
   || (c =? 8287) || (c =? 12288) || (c =? 65279))%N.

(** LineTerminator: LF, CR, LS, PS. [.] matches everything else. *)
Definition is_line_terminator (c : char) : bool :=
  ((c =? 10) || (c =? 13) || (c =? 8232) || (c =? 8233))%N.

Definition is_digit (c : char) : bool := in_range 48 57 c.
Definition is_upper (c : char) : bool := in_range 65 90 c.
Definition is_lower (c : char) : bool := in_range 97 122 c.
Definition is_alnum (c : char) : bool := is_lower c || is_upper c || is_digit c.
(** [\w], used by [\b]. *)
Definition is_word (c : char) : bool := is_alnum c || (c =? 95)%N.

Definition is_char (a : ascii) (c : char) : bool := (c =? ch a)%N.
Arguments is_char a%_char c.

(** A literal letter under the [i] flag (without [u]): the two code units
    whose canonical form (upper case) is that of the letter. Non-ASCII
    characters whose upper case is ASCII are excluded by Canonicalize. *)
Definition is_char_ci (a : ascii) (c : char) : bool :=
  let n := ch a in
  if is_lower n then ((c =? n) || (c =? n - 32))%N
  else if is_upper n then ((c =? n) || (c =? n + 32))%N
  else (c =? n)%N.

(** ** Regular expressions *)

(** The fragment of ECMAScript patterns used by the application. *)
Inductive regex : Type :=
| Eps                                         (* empty pattern *)
| Chr (p : char -> bool)                      (* one character of a class *)
| Seq (r1 r2 : regex)
| Alt (r1 r2 : regex)                         (* r1|r2 *)
| Star (greedy : bool) (r : regex)            (* r* and r*? *)
| Opt (greedy : bool) (r : regex)             (* r? and r?? *)
| Group (n : nat) (r : regex)                 (* capturing group number n *)
| AtEnd                                       (* $ without the m flag *)
| WordB                                       (* \b *)
| Behind (p : char -> bool).                  (* (?<=[class]) *)

(** r+ and r+? : one mandatory iteration, then the star. *)
Definition Plus (greedy : bool) (r : regex) : regex := Seq r (Star greedy r).

Fixpoint seqs (rs : list regex) : regex :=
  match rs with
  | [] => Eps
  | [r] => r
  | r :: rs' => Seq r (seqs rs')
  end.

Fixpoint alts (r : regex) (rs : list regex) : regex :=
  match rs with
  | [] => r
  | r' :: rs' => Alt r (alts r' rs')
  end.

(** Literal text, case-sensitive and under the [i] flag. *)
Fixpoint lit (s : string) : regex :=
  match s with
  | EmptyString => Eps
  | String a EmptyString => Chr (is_char a)
  | String a s' => Seq (Chr (is_char a)) (lit s')
  end.

Fixpoint lit_ci (s : string) : regex :=
  match s with
  | EmptyString => Eps
  | String a EmptyString => Chr (is_char_ci a)
  | String a s' => Seq (Chr (is_char_ci a)) (lit_ci s')
  end.

(** Literal text given as code units (a name spliced into a pattern). *)
Fixpoint lit_units (s : jsstring) : regex :=
  match s with
  | [] => Eps
  | c :: s' => Seq (Chr (N.eqb c)) (lit_units s')
  end.

(** Capturing groups occurring in a pattern. *)
Fixpoint groups (r : regex) : list nat :=
  match r with
  | Seq r1 r2 | Alt r1 r2 => groups r1 ++ groups r2
  | Star _ r1 | Opt _ r1 => groups r1
  | Group n r1 => n :: groups r1
  | _ => []
  end.

(** ** The backtracking matcher *)

(** A match state: the text before the current position (nearest character
    first), the text from the current position on, and the captures. *)
Record mstate : Type := MState {
  m_prev : jsstring;
  m_rest : jsstring;
  m_caps : list (nat * jsstring)
}.

Definition cont := mstate -> option mstate.

Fixpoint cap_lookup (n : nat) (caps : list (nat * jsstring)) : option jsstring :=
  match caps with
  | [] => None
  | (m, s) :: caps' => if Nat.eqb n m then Some s else cap_lookup n caps'
  end.

(** The captures of the groups [ns] set back to undefined. *)
Definition caps_without (ns : list nat) (caps : list (nat * jsstring))
  : list (nat * jsstring) :=
  filter (fun e => negb (existsb (Nat.eqb (fst e)) ns)) caps.

Definition cap_reset (ns : list nat) (x : mstate) : mstate :=
  MState (m_prev x) (m_rest x) (caps_without ns (m_caps x)).

(** Characters consumed between two states of one match attempt. *)
Definition consumed (x y : mstate) : jsstring :=
  firstn (length (m_rest x) - length (m_rest y)) (m_rest x).

Definition or_else (a : option mstate) (b : option mstate) : option mstate :=
  match a with Some _ => a | None => b end.

Definition is_word_at (s : jsstring) : bool :=
  match s with c :: _ => is_word c | [] => false end.

Section Repeat.
(** RepeatMatcher with min = 0 and max = infinity. An iteration that
    consumes nothing is rejected; [fuel] bounds the number of iterations
    by the length of the remaining text. *)
Variable step : mstate -> cont -> option mstate.
Variable ns : list nat.
Variable greedy : bool.

Fixpoint repeat_matcher (fuel : nat) (x : mstate) (k : cont) : option mstate :=
  match fuel with
  | O => k x
  | S fuel' =>
    let iter :=
      step (cap_reset ns x)
           (fun y => if Nat.eqb (length (m_rest y)) (length (m_rest x))
                     then None
                     else repeat_matcher fuel' y k) in
    if greedy then or_else iter (k x) else or_else (k x) iter
  end.
End Repeat.

Fixpoint rmatch (r : regex) (x : mstate) (k : cont) : option mstate :=
  match r with
  | Eps => k x
  | Chr p =>
    match m_rest x with
    | c :: rest => if p c then k (MState (c :: m_prev x) rest (m_caps x)) else None
    | [] => None
    end
  | Seq r1 r2 => rmatch r1 x (fun y => rmatch r2 y k)
  | Alt r1 r2 => or_else (rmatch r1 x k) (rmatch r2 x k)
  | Star greedy r1 =>
    repeat_matcher (rmatch r1) (groups r1) greedy (length (m_rest x)) x k
  | Opt greedy r1 =>
    let iter :=
      rmatch r1 (cap_reset (groups r1) x)
             (fun y => if Nat.eqb (length (m_rest y)) (length (m_rest x))
                       then None else k y) in
    if greedy then or_else iter (k x) else or_else (k x) iter
  | Group n r1 =>
    rmatch r1 x (fun y => k (MState (m_prev y) (m_rest y)
                                    ((n, consumed x y) :: m_caps y)))
  | AtEnd => match m_rest x with [] => k x | _ :: _ => None end
  | WordB => if xorb (is_word_at (m_prev x)) (is_word_at (m_rest x))
             then k x else None
  | Behind p =>
    match m_prev x with
    | c :: _ => if p c then k x else None
    | [] => None
    end
  end.

(** One match attempt at a fixed position (the matcher applied with the
    accepting continuation). *)
Definition match_at (r : regex) (prev rest : jsstring) : option mstate :=
  rmatch r (MState prev rest []) Some.

(** RegExpBuiltinExec without the sticky flag: the first position, from the
    current one on, at which the pattern matches. The result carries the
    text skipped before the match and the final state. *)
Fixpoint search (r : regex) (prev rest : jsstring) : option (jsstring * mstate) :=
  match match_at r prev rest with
  | Some y => Some ([], y)
  | None =>
    match rest with
    | [] => None
    | c :: rest' =>
      match search r (c :: prev) rest' with
      | Some (skipped, y) => Some (c :: skipped, y)
      | None => None
      end
    end
  end.

(** ** String operations *)

Fixpoint drop_while (p : char -> bool) (s : jsstring) : jsstring :=
  match s with
  | [] => []
  | c :: s' => if p c then drop_while p s' else s
  end.

Fixpoint take_while (p : char -> bool) (s : jsstring) : jsstring :=
  match s with
  | [] => []
  | c :: s' => if p c then c :: take_while p s' else []
  end.

(** [String.prototype.trim]. *)
Definition trim (s : jsstring) : jsstring :=
  rev (drop_while is_space (rev (drop_while is_space s))).

Fixpoint starts_with (pat s : jsstring) : bool :=
  match pat, s with
  | [], _ => true
  | _ :: _, [] => false
  | a :: pat', c :: s' => N.eqb a c && starts_with pat' s'
  end.

(** [String.prototype.includes]. *)
Fixpoint includes (s pat : jsstring) : bool :=
  starts_with pat s ||
  match s with
  | [] => false
  | _ :: s' => includes s' pat
  end.

(** [s.split(sep)] for a separator of one code unit; [cur] holds the piece
    being read, last character first. *)
Fixpoint split_char_from (sep : char) (cur s : jsstring) : list jsstring :=
  match s with
  | [] => [rev cur]
  | c :: s' =>
    if N.eqb c sep then rev cur :: split_char_from sep [] s'
    else split_char_from sep (c :: cur) s'
  end.

Definition split_char (sep : char) (s : jsstring) : list jsstring :=
  split_char_from sep [] s.

(** A truthy string is a non-empty one. *)
Definition truthy (s : jsstring) : bool :=
  match s with [] => false | _ :: _ => true end.

(** [a || b] on strings. *)
Definition str_or (a b : jsstring) : jsstring := if truthy a then a else b.

(** ** Regular-expression methods of strings *)

(** One result of [exec]: the text passed over since the previous match (or
    the start), the matched text and the captures. *)
Record match_result : Type := MatchResult {
  mr_skipped : jsstring;
  mr_text : jsstring;
  mr_caps : list (nat * jsstring)
}.

Definition result_of (rest skipped : jsstring) (y : mstate) : match_result :=
  let start := skipn (length skipped) rest in
  MatchResult skipped
              (firstn (length start - length (m_rest y)) start)
              (m_caps y).

Definition push_skipped (c : char) (m : match_result) : match_result :=
  MatchResult (c :: mr_skipped m) (mr_text m) (mr_caps m).

(** The loop shared by [match], [matchAll] and [replace] for a pattern with
    the [g] flag: successive [exec] calls, the position moved one code unit
    forward after an empty match. Returns the matches and the text after the
    last one. *)
Fixpoint exec_all (r : regex) (fuel : nat) (prev rest : jsstring)
  : list match_result * jsstring :=
  match fuel with
  | O => ([], rest)
  | S fuel' =>
    match search r prev rest with
    | None => ([], rest)
    | Some (skipped, y) =>
      let here := result_of rest skipped y in
      match mr_text here, m_rest y with
      | [], [] => ([here], [])
      | [], c :: rest' =>
        match exec_all r fuel' (c :: m_prev y) rest' with
        | ([], tl) => ([here], c :: tl)
        | (m :: ms, tl) => (here :: push_skipped c m :: ms, tl)
        end
      | _ :: _, _ =>
        let (ms, tl) := exec_all r fuel' (m_prev y) (m_rest y) in
        (here :: ms, tl)
      end
    end
  end.

Definition match_all (r : regex) (s : jsstring) : list match_result :=
  fst (exec_all r (S (length s)) [] s).

(** [s.match(r) || []] for a pattern with the [g] flag. *)
Definition match_g (r : regex) (s : jsstring) : list jsstring :=
  map mr_text (match_all r s).

(** GetSubstitution for a pattern without capturing groups: [$$], [$&],
    [$`] and [$'] are expanded, any other [$] stands for itself. *)
Fixpoint get_substitution (before matched after repl : jsstring) : jsstring :=
  match repl with
  | [] => []
  | c :: repl' =>
    if N.eqb c (ch "$") then
      match repl' with
      | d :: repl'' =>
        if N.eqb d (ch "$") then
          c :: get_substitution before matched after repl''
        else if N.eqb d (ch "&") then
          matched ++ get_substitution before matched after repl''
        else if N.eqb d (ch "`") then
          before ++ get_substitution before matched after repl''
        else if N.eqb d (ch "'") then
          after ++ get_substitution before matched after repl''
        else c :: get_substitution before matched after repl'
      | [] => [c]
      end
    else c :: get_substitution before matched after repl'
  end.

(** [s.replace(r, repl)] for a pattern without the [g] flag: the first match
    only. *)
Definition replace_first (r : regex) (repl s : jsstring) : jsstring :=
  match search r [] s with
  | None => s
  | Some (skipped, y) =>
    skipped
      ++ get_substitution skipped (mr_text (result_of s skipped y)) (m_rest y) repl
      ++ m_rest y
  end.

(** [s.replace(r, '')] for a pattern with the [g] flag: what is left is the
    text between the matches. *)
Definition remove_all (r : regex) (s : jsstring) : jsstring :=
  let (ms, tl) := exec_all r (S (length s)) [] s in
  concat (map mr_skipped ms) ++ tl.

(** [s.split(r)] for a pattern without capturing groups. [cur] is the piece
    read since the last separator, last character first; [at_p] tells
    whether the position is the end of the last separator (q = p). *)
Fixpoint split_loop (r : regex) (fuel : nat) (prev cur rest : jsstring)
         (at_p : bool) : list jsstring :=
  match fuel with
  | O => [rev cur ++ rest]
  | S fuel' =>
    match rest with
    | [] => [rev cur]
    | c :: rest' =>
      match match_at r prev rest with
      | None => split_loop r fuel' (c :: prev) (c :: cur) rest' false
      | Some y =>
        if at_p && Nat.eqb (length (m_rest y)) (length rest)
        then split_loop r fuel' (c :: prev) (c :: cur) rest' false
        else rev cur :: split_loop r fuel' (m_prev y) [] (m_rest y) true
      end
    end
  end.

Definition split_regex (r : regex) (s : jsstring) : list jsstring :=
  match s with
  | [] => match match_at r [] [] with Some _ => [] | None => [[]] end
  | _ :: _ => split_loop r (2 * length s) [] [] s true
  end.

(** [new Set(l)] turned back into an array: first occurrences, in order. *)
Fixpoint uniq_from (seen l : list jsstring) : list jsstring :=
  match l with
  | [] => []
  | x :: l' =>
    if existsb (jseqb x) seen then uniq_from seen l'
    else x :: uniq_from (x :: seen) l'
  end.

Definition set_of (l : list jsstring) : list jsstring := uniq_from [] l.

(** Keeping the first occurrence of every element, in the words of the
    specification: an element, then the rest without it. *)
Fixpoint first_occurrences (l : list jsstring) : list jsstring :=
  match l with
  | [] => []
  | x :: l' => x :: filter (fun y => negb (jseqb y x)) (first_occurrences l')
  end.

(** ** The parameter catalog *)

Inductive ParameterType : Type := TNumber | TText | TSelect.

(** [ParameterInfo], without the fields that are only displayed ([name],
    [description], [examples]). [min] and [max] are the non-negative
    integers of the table. *)
Record ParameterInfo : Type := {
  values : option (list jsstring);
  default : option jsstring;
  type : option ParameterType;
  min : option N;
  max : option N
}.

Definition info (ty : ParameterType) (vs : option (list string))
           (d : option string) (lo hi : option N) : ParameterInfo :=
  {| values := option_map (map js) vs;
     default := option_map js d;
     type := Some ty;
     min := lo;
     max := hi |}.

Definition PARAMETER_INFO : list (jsstring * ParameterInfo) :=
  [ (js "ar", info TText
       (Some ["1:1"; "16:9"; "9:16"; "4:3"; "3:4"; "2:1"; "1:2"]%string)
       None None None);
    (js "chaos", info TNumber None None (Some 0%N) (Some 100%N));
    (js "quality", info TSelect (Some [".25"; ".5"; "1"]%string)
       (Some "1"%string) None None);
    (js "seed", info TNumber None None None None);
    (js "stop", info TNumber None None (Some 10%N) (Some 100%N));
    (js "style", info TText (Some ["raw"]%string) None None None);
    (js "stylize", info TNumber None (Some "100"%string)
       (Some 0%N) (Some 1000%N));
    (js "tile", info TText None None None None);
    (js "version", info TText (Some ["5.0"; "5.1"; "5.2"; "6.0"]%string)
       None None None);
    (js "weird", info TNumber None None (Some 0%N) (Some 3000%N));
    (js "iw", info TNumber None (Some "1"%string) (Some 0%N) (Some 2%N));
    (js "v", info TSelect (Some ["5.0"; "5.1"; "5.2"; "6.0"]%string)
       (Some "6.0"%string) None None);
    (js "s", info TNumber None (Some "100"%string) (Some 0%N) (Some 1000%N)) ].

Fixpoint assoc (key : jsstring) (l : list (jsstring * ParameterInfo))
  : option ParameterInfo :=
  match l with
  | [] => None
  | (k, v) :: l' => if jseqb key k then Some v else assoc key l'
  end.

(** Property names every object inherits from [Object.prototype]. *)
Definition object_prototype_names : list jsstring :=
  map js [ "constructor"; "__defineGetter__"; "__defineSetter__";
           "hasOwnProperty"; "__lookupGetter__"; "__lookupSetter__";
           "isPrototypeOf"; "propertyIsEnumerable"; "toString"; "valueOf";
           "__proto__"; "toLocaleString" ]%string.

(** What the property read [PARAMETER_INFO[key]] evaluates to. *)
Inductive property : Type :=
| Own (i : ParameterInfo)     (* an entry of the table *)
| ObjectFunction              (* the inherited [constructor]: [Object] *)
| Inherited                   (* another member of [Object.prototype] *)
| Undefined.

Definition get_property (key : jsstring) : property :=
  match assoc key PARAMETER_INFO with
  | Some i => Own i
  | None =>
    if jseqb key (js "constructor") then ObjectFunction
    else if existsb (jseqb key) object_prototype_names then Inherited
    else Undefined
  end.

(** The reads [p.default], [p.type], [p.min] and [p.values] on a value that
    is not [undefined]. Of the inherited values only [Object] has one of
    these properties: [Object.values], a function, hence truthy, with no
    element 0; it is read as an empty array. *)
Definition prop_default (p : property) : option jsstring :=
  match p with Own i => default i | _ => None end.
Definition prop_type (p : property) : option ParameterType :=
  match p with Own i => type i | _ => None end.
Definition prop_min (p : property) : option N :=
  match p with Own i => min i | _ => None end.
Definition prop_values (p : property) : option (list jsstring) :=
  match p with
  | Own i => values i
  | ObjectFunction => Some []
  | _ => None
  end.

(** [String(n)] for a non-negative integer. *)
Definition String_of (n : N) : jsstring :=
  js (DecimalString.NilEmpty.string_of_uint (N.to_uint n)).

(** The default value both editing operations compute; [None] stands for
    [undefined]:
      p.default ||
        (p.type === 'number'
          ? (p.min !== undefined ? String(p.min) : '1')
          : (p.values ? p.values[0] : '1')) *)
Definition default_value (p : property) : option jsstring :=
  match prop_default p with
  | Some (c :: d) => Some (c :: d)
  | _ =>
    match prop_type p with
    | Some TNumber =>
      match prop_min p with
      | Some n => Some (String_of n)
      | None => Some (js "1")
      end
    | _ =>
      match prop_values p with
      | Some vs => nth_error vs 0
      | None => Some (js "1")
      end
    end
  end.

(** The resolution order in the words of the specification, for a catalog
    entry or its absence: the default if defined; for a number, the minimum
    if defined, else 1; the first allowed value if there is one; else 1. *)
Definition spec_default (entry : option ParameterInfo) : jsstring :=
  match entry with
  | None => js "1"
  | Some i =>
    match default i with
    | Some d => d
    | None =>
      match type i with
      | Some TNumber =>
        match min i with Some n => String_of n | None => js "1" end
      | _ =>
        match values i with Some (v :: _) => v | _ => js "1" end
      end
    end
  end.

(** A value spliced into a template literal. *)
Definition in_template (v : option jsstring) : jsstring :=
  match v with Some s => s | None => js "undefined" end.

(** ** Patterns of the application *)

Definition url_char (c : char) : bool :=
  negb (is_space c || is_char "<" c || is_char ">" c
        || (c =? 34)%N || is_char "'" c).

Definition colon_or_space (c : char) : bool := is_char ":" c || is_space c.
Definition non_space (c : char) : bool := negb (is_space c).
Definition not_paren (c : char) : bool := negb (is_char "(" c || is_char ")" c).
Definition not_close (c : char) : bool := negb (is_char ")" c).
Definition any_char (c : char) : bool := negb (is_line_terminator c).

(** /https?:\/\/(?:C+?\.(?:jpg|jpeg|gif|png|webp|bmp|svg)|s\.mj\.run\/C+)Q?/gi
    where C is the class of everything but white space, the angle brackets
    and the two quote characters ([url_char]), and Q is the query group: a
    question mark and any number of C. The class is closed under
    Canonicalize, so the [i] flag only touches the letters. *)
Definition imageUrlRegex : regex :=
  seqs [ lit_ci "http"; Opt true (lit_ci "s"); lit "://";
         Alt (seqs [ Plus false (Chr url_char); lit ".";
                     alts (lit_ci "jpg")
                          [ lit_ci "jpeg"; lit_ci "gif"; lit_ci "png";
                            lit_ci "webp"; lit_ci "bmp"; lit_ci "svg" ] ])
             (seqs [ lit_ci "s"; lit "."; lit_ci "mj"; lit "."; lit_ci "run";
                     lit "/"; Plus true (Chr url_char) ]);
         Opt true (seqs [ lit "?"; Star true (Chr url_char) ]) ].

(** /--([a-zA-Z0-9]+)(?:[:\s]+([^\s]+))?/g *)
Definition paramRegex : regex :=
  seqs [ lit "--"; Group 1 (Plus true (Chr is_alnum));
         Opt true (seqs [ Plus true (Chr colon_or_space);
                          Group 2 (Plus true (Chr non_space)) ]) ].

(** /--.*$/ *)
Definition flagsToEndRegex : regex :=
  seqs [ lit "--"; Star true (Chr any_char); AtEnd ].

(** /@[^()]*(?:\([^)]*\))?/g *)
Definition mentionRegex : regex :=
  seqs [ lit "@"; Star true (Chr not_paren);
         Opt true (seqs [ lit "("; Star true (Chr not_close); lit ")" ]) ].

(** /\d+:\d+/g *)
Definition ratioRegex : regex :=
  seqs [ Plus true (Chr is_digit); lit ":"; Plus true (Chr is_digit) ].

(** /\b\d+(\.\d+)?\b/g *)
Definition numberRegex : regex :=
  seqs [ WordB; Plus true (Chr is_digit);
         Opt true (Group 1 (seqs [ lit "."; Plus true (Chr is_digit) ]));
         WordB ].

(** /\([^)]*\)/g *)
Definition parenRegex : regex :=
  seqs [ lit "("; Star true (Chr not_close); lit ")" ].

(** /\s*,\s*$/ *)
Definition trailingCommaRegex : regex :=
  seqs [ Star true (Chr is_space); lit ","; Star true (Chr is_space); AtEnd ].

(** new RegExp(`--${paramName}(?:[:\\s]+[^\\s]+)?\\s*`): the name stands for
    itself in the pattern, which is the case for the alphanumeric names the
    analysis produces. *)
Definition updateRegex (paramName : jsstring) : regex :=
  seqs [ lit "--"; lit_units paramName;
         Opt true (seqs [ Plus true (Chr colon_or_space);
                          Plus true (Chr non_space) ]);
         Star true (Chr is_space) ].

Definition is_terminal (c : char) : bool :=
  is_char "." c || is_char "!" c || is_char "?" c.

(** The ideographic full stop U+3002 and the fullwidth marks U+FF01 and
    U+FF1F. *)
Definition is_cjk_terminal (c : char) : bool :=
  ((c =? 12290) || (c =? 65281) || (c =? 65311))%N.

(** The first character of a text is of a class. *)
Definition starts_in (p : char -> bool) (s : jsstring) : bool :=
  match s with c :: _ => p c | [] => false end.

(** The state after the longest run of a class at the current position. *)
Definition after_run (p : char -> bool) (prev rest : jsstring) : mstate :=
  MState (rev (take_while p rest) ++ prev) (drop_while p rest) [].

(** /(?<=[.!?])\s+/ *)
Definition sentenceRegex : regex :=
  seqs [ Behind is_terminal; Plus true (Chr is_space) ].

(** /(?<=[。！？])\s*/ *)
Definition cjkSentenceRegex : regex :=
  seqs [ Behind is_cjk_terminal; Star true (Chr is_space) ].

(** ** The application *)

Record ExtractedParameter : Type := {
  name : jsstring;
  value : jsstring;
  enabled : bool
}.

Record PromptAnalysis : Type := {
  imageUrls : list jsstring;
  descriptions : list jsstring;
  parameters : list ExtractedParameter
}.

Record TextMapping : Type := {
  original : jsstring;
  translated : jsstring;
  index : nat
}.

(** The part of the component state the four functions read or write. *)
Record AppState : Type := {
  prompt : jsstring;
  analysis : option PromptAnalysis;
  editingParam : option jsstring;
  paramValue : jsstring;
  translationError : option jsstring;
  translatedText : jsstring;
  isTranslating : bool;
  textMappings : list TextMapping
}.

Definition initialState : AppState :=
  {| prompt := []; analysis := None; editingParam := None; paramValue := [];
     translationError := None; translatedText := []; isTranslating := false;
     textMappings := [] |}.

(** *** analyzePrompt *)

(** map(match => ({ name: match[1], value: match[2] || '', enabled: true })) *)
Definition parameter_of (m : match_result) : ExtractedParameter :=
  {| name := match cap_lookup 1 (mr_caps m) with Some s => s | None => [] end;
     value := match cap_lookup 2 (mr_caps m) with
              | Some s => str_or s []
              | None => []
              end;
     enabled := true |}.

(** What the specification says of one flag and the parameter read from it:
    a name of letters and digits after [--], then either nothing, the value
    being empty, or colons and white space followed by a value token without
    white space. *)
Definition flag_occurrence (w : jsstring) (p : ExtractedParameter) : Prop :=
  enabled p = true
  /\ name p <> []
  /\ forallb is_alnum (name p) = true
  /\ ((w = js "--" ++ name p /\ value p = [])
      \/ exists sep,
           sep <> []
           /\ forallb colon_or_space sep = true
           /\ value p <> []
           /\ forallb non_space (value p) = true
           /\ w = js "--" ++ name p ++ sep ++ value p).

(** The chain of replacements applied to the text, ending with [trim]. *)
Definition descriptionText (text : jsstring) : jsstring :=
  let t := remove_all imageUrlRegex text in
  let t := replace_first flagsToEndRegex [] t in
  let t := remove_all mentionRegex t in
  let t := remove_all ratioRegex t in
  let t := remove_all numberRegex t in
  let t := remove_all parenRegex t in
  trim (replace_first trailingCommaRegex [] t).

Definition analyze (text : jsstring) : PromptAnalysis :=
  {| imageUrls := set_of (match_g imageUrlRegex text);
     parameters := map parameter_of (match_all paramRegex text);
     descriptions :=
       filter (fun part => negb (Nat.eqb (length part) 0))
              (map trim (split_char (ch "010") (descriptionText text))) |}.

(** *** The sentence aligner of handleTranslate *)

Definition sentence_parts (r : regex) (s : jsstring) : list jsstring :=
  map trim (filter (fun part => truthy (trim part)) (split_regex r s)).

Definition originalParts (text : jsstring) : list jsstring :=
  sentence_parts sentenceRegex text.

Definition translatedParts (result : jsstring) : list jsstring :=
  sentence_parts cjkSentenceRegex result.

(** originalParts.map((part, index) => ...), from [index] on. *)
Fixpoint mappings_from (i : nat) (parts translations : list jsstring)
  : list TextMapping :=
  match parts with
  | [] => []
  | part :: parts' =>
    {| original := part;
       translated := match nth_error translations i with
                     | Some t => str_or t []
                     | None => []
                     end;
       index := i |} :: mappings_from (S i) parts' translations
  end.

Definition align (text result : jsstring) : list TextMapping :=
  mappings_from 0 (originalParts text) (translatedParts result).

(** *** The handlers *)

(** How the call to the translation service ends. *)
Inductive outcome : Type :=
| Resolved (result : jsstring)
| RejectedError (message : jsstring)   (* rejected with an Error *)
| RejectedOther.                       (* rejected with another value *)

Definition errorUnknown : jsstring := js "未知错误".
Definition errorBalance : jsstring := js "翻译服务余额不足，请联系管理员充值".
Definition textFailed : jsstring := js "翻译失败".

Section Handlers.

(** The selected translation service. *)
Variable translate : jsstring -> outcome.

Definition handleTranslate (text : jsstring) (st : AppState) : AppState :=
  if negb (truthy text) then st
  else
    match translate text with
    | Resolved result =>
      {| prompt := prompt st; analysis := analysis st;
         editingParam := editingParam st; paramValue := paramValue st;
         translationError := None;
         translatedText := result;
         isTranslating := false;
         textMappings := align text result |}
    | failure =>
      let errorMessage :=
        match failure with
        | RejectedError message =>
          if includes message (js "54004") then errorBalance else message
        | _ => errorUnknown
        end in
      {| prompt := prompt st; analysis := analysis st;
         editingParam := editingParam st; paramValue := paramValue st;
         translationError := Some errorMessage;
         translatedText := textFailed;
         isTranslating := false;
         textMappings := textMappings st |}
    end.

Definition analyzePrompt (text : jsstring) (st : AppState) : AppState :=
  handleTranslate (descriptionText text)
    {| prompt := prompt st; analysis := Some (analyze text);
       editingParam := editingParam st; paramValue := paramValue st;
       translationError := translationError st;
       translatedText := translatedText st;
       isTranslating := isTranslating st;
       textMappings := textMappings st |}.

Definition setPrompt (p : jsstring) (st : AppState) : AppState :=
  {| prompt := p; analysis := analysis st;
     editingParam := editingParam st; paramValue := paramValue st;
     translationError := translationError st;
     translatedText := translatedText st;
     isTranslating := isTranslating st;
     textMappings := textMappings st |}.

(** setEditingParam(null); setParamValue('') *)
Definition stopEditing (st : AppState) : AppState :=
  {| prompt := prompt st; analysis := analysis st;
     editingParam := None; paramValue := [];
     translationError := translationError st;
     translatedText := translatedText st;
     isTranslating := isTranslating st;
     textMappings := textMappings st |}.

(** newValue.trim() || defaultValue *)
Definition valueToUse (paramName newValue : jsstring) : option jsstring :=
  let defaultValue := default_value (get_property paramName) in
  if truthy (trim newValue) then Some (trim newValue) else defaultValue.

(** The prompt written by updateParameter. *)
Definition updatedPrompt (prompt paramName newValue : jsstring) : jsstring :=
  let newPrompt :=
    replace_first (updateRegex paramName)
      (js "--" ++ paramName ++ js " "
          ++ in_template (valueToUse paramName newValue) ++ js " ")
      prompt in
  trim newPrompt.

Definition updateParameter (paramName newValue : jsstring) (st : AppState)
  : AppState :=
  match analysis st with
  | None => st
  | Some _ =>
    let p := updatedPrompt (prompt st) paramName newValue in
    stopEditing (analyzePrompt p (setPrompt p st))
  end.

(** The prompt written by handleAddParameter; reading a property of
    [undefined] throws, which is [None]. *)
Definition addedPrompt (prompt key : jsstring) : option jsstring :=
  match get_property key with
  | Undefined => None
  | p =>
    Some (trim (prompt ++ js " --" ++ key ++ js " "
                       ++ in_template (default_value p)))
  end.

Definition handleAddParameter (key : jsstring) (st : AppState)
  : option AppState :=
  match addedPrompt (prompt st) key with
  | None => None
  | Some p => Some (analyzePrompt p (setPrompt p st))
  end.

End Handlers.

(** ** Declarative meaning of patterns *)

Definition captures := list (nat * jsstring).

(** [lang r p w s ci co]: the text [w] matches [r] when preceded by [p]
    (nearest character first) and followed by [s]; the captures [ci] on
    entry become [co]. *)
Inductive lang
  : regex -> jsstring -> jsstring -> jsstring -> captures -> captures -> Prop :=
| L_eps p s ci : lang Eps p [] s ci ci
| L_chr f c p s ci : f c = true -> lang (Chr f) p [c] s ci ci
| L_seq r1 r2 p w1 w2 s ci cm co :
    lang r1 p w1 (w2 ++ s) ci cm -> lang r2 (rev w1 ++ p) w2 s cm co ->
    lang (Seq r1 r2) p (w1 ++ w2) s ci co
| L_alt_l r1 r2 p w s ci co :
    lang r1 p w s ci co -> lang (Alt r1 r2) p w s ci co
| L_alt_r r1 r2 p w s ci co :
    lang r2 p w s ci co -> lang (Alt r1 r2) p w s ci co
| L_star_nil g r p s ci : lang (Star g r) p [] s ci ci
| L_star_cons g r p w1 w2 s ci cm co :
    lang r p w1 (w2 ++ s) (caps_without (groups r) ci) cm ->
    lang (Star g r) (rev w1 ++ p) w2 s cm co ->
    lang (Star g r) p (w1 ++ w2) s ci co
| L_opt_none g r p s ci : lang (Opt g r) p [] s ci ci
| L_opt_some g r p w s ci co :
    lang r p w s (caps_without (groups r) ci) co ->
    lang (Opt g r) p w s ci co
| L_group n r p w s ci co :
    lang r p w s ci co -> lang (Group n r) p w s ci ((n, w) :: co)
| L_end p ci : lang AtEnd p [] [] ci ci
| L_wordb p s ci :
    xorb (is_word_at p) (is_word_at s) = true -> lang WordB p [] s ci ci
| L_behind f c p s ci : f c = true -> lang (Behind f) (c :: p) [] s ci ci.

(** The whole of [u] matches [r], on its own. *)
Definition matches (r : regex) (u : jsstring) : Prop :=
  exists co, lang r [] u [] [] co.

(** Patterns whose matches do not depend on the surrounding text. *)
Fixpoint assertion_free (r : regex) : bool :=
  match r with
  | Eps | Chr _ => true
  | Seq r1 r2 | Alt r1 r2 => assertion_free r1 && assertion_free r2
  | Star _ r1 | Opt _ r1 | Group _ r1 => assertion_free r1
  | AtEnd | WordB | Behind _ => false
  end.

(** ** Notions used in the statements and their proofs *)

(** [y] is reached from [x] by reading [w]. *)
Definition reads (x y : mstate) (w : jsstring) : Prop :=
  m_rest x = w ++ m_rest y /\ m_prev y = rev w ++ m_prev x.

(** A matcher is sound for a pattern when every success goes through a
    state reached by reading a word of the language. *)
Definition sound_for (r : regex) (m : mstate -> cont -> option mstate) : Prop :=
  forall x k z, m x k = Some z ->
    exists y w, reads x y w
                /\ lang r (m_prev x) w (m_rest y) (m_caps x) (m_caps y)
                /\ k y = Some z.

(** A result comes from one successful match attempt. *)
Definition produced_by (r : regex) (m : match_result) : Prop :=
  exists p y, match_at r p (mr_text m ++ m_rest y) = Some y
              /\ mr_caps m = m_caps y.

(** The text a list of results and the remaining text were cut from. *)
Definition laid_out (ms : list match_result) (tl : jsstring) : jsstring :=
  concat (map (fun m => mr_skipped m ++ mr_text m) ms) ++ tl.

(** Patterns that can only match where the text has [--]. *)
Definition dashed (r : regex) : Prop :=
  forall prev rest,
    starts_with (js "--") rest = false -> match_at r prev rest = None.


(** A greedy star over a class followed by [k]: the longest run first, then
    the shorter ones. *)
Fixpoint star_try (f : char -> bool) (k : cont) (prev rest : jsstring)
         (caps : captures) : option mstate :=
  match rest with
  | c :: rest' =>
    if f c
    then or_else (star_try f k (c :: prev) rest' caps) (k (MState prev rest caps))
    else k (MState prev rest caps)
  | [] => k (MState prev [] caps)
  end.

(** The value token at a position: the longest run of characters that are
    not white space, kept as group 2. *)
Definition token_at (y : mstate) : option mstate :=
  if starts_in non_space (m_rest y)
  then Some (MState (rev (take_while non_space (m_rest y)) ++ m_prev y)
                    (drop_while non_space (m_rest y))
                    ((2, take_while non_space (m_rest y)) :: m_caps y))
  else None.

(** The flag pattern read directly: [--], the longest name of letters and
    digits, then, if it can be found, colons and white space followed by a
    value token. *)
Definition flag_at (prev rest : jsstring) : option mstate :=
  match rest with
  | d1 :: d2 :: rest1 =>
    if is_char "-" d1 && is_char "-" d2 && starts_in is_alnum rest1 then
      let nm := take_while is_alnum rest1 in
      let prev1 := rev nm ++ d2 :: d1 :: prev in
      let caps1 := [(1, nm)] in
      or_else
        match drop_while is_alnum rest1 with
        | s :: rest2 =>
          if colon_or_space s
          then star_try colon_or_space token_at (s :: prev1) rest2 caps1
          else None
        | [] => None
        end
        (Some (MState prev1 (drop_while is_alnum rest1) caps1))
    else None
  | _ => None
  end.








(** ** Further parts of the application *)

(** *** splitText *)

(** [,.!?，。！？\s] *)
Definition is_break (c : char) : bool :=
  is_char "," c || is_char "." c || is_char "!" c || is_char "?" c
  || (c =? 65292)%N || (c =? 12290)%N || (c =? 65281)%N || (c =? 65311)%N
  || is_space c.

(** /([,.!?，。！？\s]+)/ *)
Definition splitTextRegex : regex := Group 1 (Plus true (Chr is_break)).

(** [s.split(r)] for a pattern with capturing groups: every piece is followed
    by the captures of the separator found after it, [None] standing for the
    [undefined] of a group that took no part in the match. *)
Fixpoint split_groups_loop (r : regex) (fuel : nat) (prev cur rest : jsstring)
         (at_p : bool) : list (option jsstring) :=
  match fuel with
  | O => [Some (rev cur ++ rest)]
  | S fuel' =>
    match rest with
    | [] => [Some (rev cur)]
    | c :: rest' =>
      match match_at r prev rest with
      | None => split_groups_loop r fuel' (c :: prev) (c :: cur) rest' false
      | Some y =>
        if at_p && Nat.eqb (length (m_rest y)) (length rest)
        then split_groups_loop r fuel' (c :: prev) (c :: cur) rest' false
        else Some (rev cur)
             :: map (fun n => cap_lookup n (m_caps y))
                    (seq 1 (length (groups r)))
             ++ split_groups_loop r fuel' (m_prev y) [] (m_rest y) true
      end
    end
  end.

Definition split_groups (r : regex) (s : jsstring) : list (option jsstring) :=
  match s with
  | [] => match match_at r [] [] with Some _ => [] | None => [Some []] end
  | _ :: _ => split_groups_loop r (2 * length s) [] [] s true
  end.

(** [filter(Boolean)] on an array of strings and [undefined]: the strings
    that are not empty. *)
Fixpoint filter_Boolean (l : list (option jsstring)) : list jsstring :=
  match l with
  | [] => []
  | Some (c :: s) :: l' => (c :: s) :: filter_Boolean l'
  | _ :: l' => filter_Boolean l'
  end.

Definition splitText (text : jsstring) : list jsstring :=
  filter_Boolean (split_groups splitTextRegex text).

(** Pieces that are maximal runs: none is empty, each one is made of
    punctuation and white space only ([b] true) or has none of it, and the
    two kinds alternate, starting with [b]. *)
Inductive runs_from : bool -> list jsstring -> Prop :=
| runs_nil b : runs_from b []
| runs_cons b piece l :
    piece <> [] ->
    forallb (fun c => Bool.eqb (is_break c) b) piece = true ->
    runs_from (negb b) l ->
    runs_from b (piece :: l).

(** *** Texts inside texts *)

(** [a] is what is left of [b] when some characters are deleted. *)
Inductive subseq : jsstring -> jsstring -> Prop :=
| subseq_nil : subseq [] []
| subseq_skip a c b : subseq a b -> subseq a (c :: b)
| subseq_keep c a b : subseq a b -> subseq (c :: a) (c :: b).

(** [u] occurs in [s] in one piece. *)
Definition substring (u s : jsstring) : Prop := exists a b, s = a ++ u ++ b.

(** *** The parameters on offer *)

(** Object.entries(PARAMETER_INFO)
      .filter(([key]) => !analysis.parameters.some(p => p.name === key)):
    the entries in the order of the table, none of its keys being an array
    index. *)
Definition availableParameters (a : PromptAnalysis)
  : list (jsstring * ParameterInfo) :=
  filter (fun entry =>
            negb (existsb (fun p => jseqb (name p) (fst entry)) (parameters a)))
         PARAMETER_INFO.

(** *** Reading the flags of a text one after the other *)

(** One flag read at the start of a text: the parameter and the text after
    it. *)
Definition read_flag (rest : jsstring)
  : option (ExtractedParameter * jsstring) :=
  match flag_at [] rest with
  | Some y => Some (parameter_of (MatchResult [] [] (m_caps y)), m_rest y)
  | None => None
  end.

(** The parameters of a text. *)
Definition params_in (text : jsstring) : list ExtractedParameter :=
  parameters (analyze text).

(** Scanning [a ++ b] gives the parameters [ps] within [a] and then looks
    for the next flag from the start of [b] on. *)
Inductive arrives (b : jsstring) : jsstring -> list ExtractedParameter -> Prop :=
| arrives_here : arrives b [] []
| arrives_skip c a ps :
    read_flag (c :: a ++ b) = None ->
    arrives b a ps ->
    arrives b (c :: a) ps
| arrives_flag w a q ps :
    w <> [] ->
    read_flag ((w ++ a) ++ b) = Some (q, a ++ b) ->
    arrives b a ps ->
    arrives b (w ++ a) (q :: ps).

(** What a match leaves to the scan: the text after it and the captures. *)
Definition view (y : mstate) : jsstring * list (nat * jsstring) :=
  (m_rest y, m_caps y).

(** The value token at the start of a text, and the text after it. *)
Definition token_of (x : jsstring) : option (jsstring * jsstring) :=
  if starts_in non_space x
  then Some (take_while non_space x, drop_while non_space x)
  else None.

(** After a first separator: the longest run of separators after which a
    value token is found, then shorter ones. *)
Fixpoint value_scan (x : jsstring) : option (jsstring * jsstring) :=
  match x with
  | c :: x' =>
    if colon_or_space c
    then match value_scan x' with
         | Some r => Some r
         | None => token_of x
         end
    else token_of x
  | [] => None
  end.

(** The value of a flag and the text after the flag, read from the text
    after the name. *)
Definition value_part (after : jsstring) : jsstring * jsstring :=
  match after with
  | s :: x =>
    if colon_or_space s
    then match value_scan x with
         | Some r => r
         | None => ([], after)
         end
    else ([], after)
  | [] => ([], [])
  end.

(** [pat] starts at no position of [pre] in the text [pre ++ b]. *)
Fixpoint none_starts (pat pre b : jsstring) : bool :=
  match pre with
  | [] => true
  | c :: pre' => negb (starts_with pat (pre ++ b)) && none_starts pat pre' b
  end.

(** The text without the white space at its end. *)
Definition trim_end (s : jsstring) : jsstring :=
  rev (drop_while is_space (rev s)).

(** *** Characters a pattern can take *)

(** Every character class of the pattern lies within [f]. *)
Fixpoint classes_within (f : char -> bool) (r : regex) : Prop :=
  match r with
  | Chr p => forall c, p c = true -> f c = true
  | Seq r1 r2 | Alt r1 r2 => classes_within f r1 /\ classes_within f r2
  | Star _ r1 | Opt _ r1 | Group _ r1 => classes_within f r1
  | _ => True
  end.

(** *** The translation services *)

(** A value a provider hands over: [undefined] (also a property that is
    absent), [null], a boolean, a number, a string, an array, or a plain
    object given by its own properties in the order they are written. A
    number is given by the text that ToString makes of it, which is all the
    services do with one besides testing it: [0] for both zeros, [NaN],
    [54004], [-1.5], [1e+21]. *)
#[warnings="-register-all"] Inductive json : Type :=
| JUndefined
| JNull
| JBool (b : bool)
| JNumber (text : jsstring)
| JString (s : jsstring)
| JArray (items : list json)
| JObject (fields : list (jsstring * json)).

(** ToBoolean. *)
Definition truthy_json (v : json) : bool :=
  match v with
  | JUndefined | JNull => false
  | JBool b => b
  | JNumber text => negb (jseqb text (js "0") || jseqb text (js "NaN"))
  | JString s => truthy s
  | JArray _ | JObject _ => true
  end.

(** ToString, as a template literal applies it; [None] when it throws. An
    array joins its items with commas, [null] and [undefined] giving nothing
    there. A plain object gives the text of [Object.prototype.toString],
    unless a property of its own named [toString] hides that method: none of
    these values can be called, and a [TypeError] is thrown. *)
Fixpoint to_text (v : json) : option jsstring :=
  match v with
  | JUndefined => Some (js "undefined")
  | JNull => Some (js "null")
  | JBool true => Some (js "true")
  | JBool false => Some (js "false")
  | JNumber text => Some text
  | JString s => Some s
  | JArray items =>
    (fix join (l : list json) : option jsstring :=
       match l with
       | [] => Some []
       | x :: l' =>
         match match x with
               | JUndefined | JNull => Some []
               | _ => to_text x
               end with
         | None => None
         | Some a =>
           match l' with
           | [] => Some a
           | _ :: _ =>
             match join l' with
             | None => None
             | Some b => Some (a ++ ch "," :: b)
             end
           end
         end
       end) items
  | JObject fields =>
    if existsb (fun e => jseqb (js "toString") (fst e)) fields
    then None
    else Some (js "[object Object]")
  end.

(** The last binding of a key in the fields of an object. *)
Fixpoint last_binding (key : jsstring) (fields : list (jsstring * json))
  : json :=
  match fields with
  | [] => JUndefined
  | (k, v) :: fields' =>
    if existsb (fun e => jseqb key (fst e)) fields'
    then last_binding key fields'
    else if jseqb key k then v else JUndefined
  end.

(** The read [v.key] for one of the keys the services read ([error_code],
    [error_msg], [trans_result], [dst]), on a value that is neither [null]
    nor [undefined]: only an object has such a property. *)
Definition field (v : json) (key : jsstring) : json :=
  match v with
  | JObject fields => last_binding key fields
  | _ => JUndefined
  end.

(** The read [v[0]] on a value that is neither [null] nor [undefined]. *)
Definition first_item (v : json) : json :=
  match v with
  | JArray (x :: _) => x
  | JString (c :: _) => JString [c]
  | JObject fields => last_binding (js "0") fields
  | _ => JUndefined
  end.

(** The two events at which code of [jsonp] runs: the script element it
    added runs and calls the callback with the response, or the script fails
    to load. *)
Inductive jsonp_event : Type :=
| ScriptCalls (response : json)
| ScriptFails.

(** How a promise ends: fulfilled with a value, or rejected with an [Error]
    that carries a message. *)
Inductive settled : Type :=
| Fulfilled (v : json)
| Rejected (message : jsstring).

(** jsonp: how the promise it returns is settled. Reading [error_code] of
    [null] or [undefined] throws inside the callback, and so does a
    conversion to text that throws: the callback is left without the promise
    being settled, [None]. The callback name, the script element and their
    removal are not part of the model. *)
Definition jsonp (ev : jsonp_event) : option settled :=
  match ev with
  | ScriptCalls response =>
    match response with
    | JUndefined | JNull => None
    | _ =>
      if truthy_json (field response (js "error_code"))
      then
        match to_text (field response (js "error_code")) with
        | None => None
        | Some code =>
          match to_text (field response (js "error_msg")) with
          | None => None
          | Some msg => Some (Rejected (code ++ js ": " ++ msg))
          end
        end
      else Some (Fulfilled response)
    end
  | ScriptFails => Some (Rejected (js "网络请求失败"))
  end.

(** baiduTranslate.translate, from the request on: everything thrown in the
    [try] block is an [Error], which the [catch] block throws again with the
    prefix. The signed request itself is not part of the model. *)
Definition baiduTranslate (ev : jsonp_event) : option settled :=
  match jsonp ev with
  | None => None
  | Some (Rejected message) => Some (Rejected (js "翻译失败: " ++ message))
  | Some (Fulfilled response) =>
    let trans_result := field response (js "trans_result") in
    if negb (truthy_json trans_result)
       || negb (truthy_json (first_item trans_result))
    then Some (Rejected (js "翻译失败: " ++ js "翻译结果格式错误"))
    else Some (Fulfilled (field (first_item trans_result) (js "dst")))
  end.

(** How [handleTranslate] sees the end of a call that gives a string or
    fails. *)
Definition outcome_of (r : settled) : option outcome :=
  match r with
  | Fulfilled (JString s) => Some (Resolved s)
  | Fulfilled _ => None
  | Rejected message => Some (RejectedError message)
  end.

(** *** The page *)

(** translationServices: the Google service, then the Baidu service found
    by [baiduTranslate]. *)
Inductive TranslationService : Type :=
| GoogleTranslationService
| BaiduTranslationService.

Definition service_name (s : TranslationService) : jsstring :=
  match s with
  | GoogleTranslationService => js "谷歌翻译"
  | BaiduTranslationService => js "百度翻译"
  end.

Definition translationServices : list TranslationService :=
  [ GoogleTranslationService; BaiduTranslationService ].

(** The state of the component that the handlers read and write, with the
    selected service: [useState(translationServices[0])]. *)
Record Page : Type := {
  state : AppState;
  selectedService : TranslationService
}.

Definition initialPage : Page :=
  {| state := initialState; selectedService := GoogleTranslationService |}.

(** editingParam === param.name *)
Definition is_editing (st : AppState) (p : ExtractedParameter) : bool :=
  match editingParam st with
  | Some n => jseqb n (name p)
  | None => false
  end.

(** setEditingParam(param.name); setParamValue(param.value || '') *)
Definition startEditing (p : ExtractedParameter) (st : AppState) : AppState :=
  {| prompt := prompt st; analysis := analysis st;
     editingParam := Some (name p); paramValue := str_or (value p) [];
     translationError := translationError st;
     translatedText := translatedText st;
     isTranslating := isTranslating st;
     textMappings := textMappings st |}.

Definition setParamValue (v : jsstring) (st : AppState) : AppState :=
  {| prompt := prompt st; analysis := analysis st;
     editingParam := editingParam st; paramValue := v;
     translationError := translationError st;
     translatedText := translatedText st;
     isTranslating := isTranslating st;
     textMappings := textMappings st |}.

(** What the user does on the page. A parameter of the analysis is named by
    its place in the list: each one is drawn with handlers of its own. *)
Inductive event : Type :=
| PromptChange (newValue : jsstring)      (* the text area *)
| ServiceChange (service : jsstring)      (* the select element *)
| Retry                                   (* the retry button *)
| ParamClick (i : nat)                    (* a parameter that is shown *)
| ParamValueChange (i : nat) (v : jsstring)  (* the input of an edited one *)
| Confirm (i : nat)                       (* Enter, or the confirm button *)
| Cancel (i : nat)                        (* Escape, or the cancel button *)
| Add (key : jsstring).                   (* a parameter on offer *)

Section Page.

(** How the call to each service ends, at the event at hand; every call
    ends before the next event. *)
Variable answers : TranslationService -> jsstring -> outcome.

(** The handler of an event, run in the state the page was drawn from; [None]
    when the page does not show the control, or when the handler throws. The
    handlers call [handleTranslate] as it was at that drawing, with the
    service selected then. *)
Definition step (e : event) (ui : Page) : option Page :=
  let st := state ui in
  let translate := answers (selectedService ui) in
  let keep st' :=
      Some {| state := st'; selectedService := selectedService ui |} in
  let parameter i :=
      match analysis st with
      | Some a => nth_error (parameters a) i
      | None => None
      end in
  match e with
  | PromptChange newValue =>
    keep (analyzePrompt translate newValue (setPrompt newValue st))
  | ServiceChange service =>
    match find (fun s => jseqb (service_name s) service) translationServices
    with
    | Some s =>
      Some {| state :=
                match analysis st with
                | Some a =>
                  match descriptions a with
                  | d :: _ => handleTranslate translate d st
                  | [] => st
                  end
                | None => st
                end;
              selectedService := s |}
    | None => Some ui
    end
  | Retry =>
    match analysis st with
    | Some a =>
      match descriptions a, isTranslating st, translationError st with
      | d :: _, false, Some (_ :: _) => keep (handleTranslate translate d st)
      | _, _, _ => None
      end
    | None => None
    end
  | ParamClick i =>
    match parameter i with
    | Some p => if is_editing st p then None else keep (startEditing p st)
    | None => None
    end
  | ParamValueChange i v =>
    match parameter i with
    | Some p => if is_editing st p then keep (setParamValue v st) else None
    | None => None
    end
  | Confirm i =>
    match parameter i with
    | Some p =>
      if is_editing st p
      then keep (updateParameter translate (name p) (paramValue st) st)
      else None
    | None => None
    end
  | Cancel i =>
    match parameter i with
    | Some p => if is_editing st p then keep (stopEditing st) else None
    | None => None
    end
  | Add key =>
    match analysis st with
    | Some a =>
      if existsb (fun entry => jseqb (fst entry) key) (availableParameters a)
      then
        match handleAddParameter translate key st with
        | Some st' => keep st'
        | None => None
        end
      else None
    | None => None
    end
  end.

End Page.

(** The pages that events lead to from the first one. *)
Inductive reachable : Page -> Prop :=
| reachable_first : reachable initialPage
| reachable_step answers e ui ui' :
    reachable ui -> step answers e ui = Some ui' -> reachable ui'.

(** *** The image view *)

(** The handlers of the enlarged image: [handleWheel], [handleMouseDown],
    [handleMouseMove], [handleMouseUp], [resetImageView] and
    [handleImageLoad]. A JavaScript number is a binary64 floating-point
    number, here a primitive [float]. Each handler is run in the state the
    page was last drawn from. *)

(** Math.max and Math.min of two numbers: NaN when one of them is NaN, and
    [+0] above [-0]. *)
Definition Math_max (a b : float) : float :=
  if is_nan a || is_nan b then nan
  else if (a <? b)%float then b
  else match classify a, classify b with
       | NZero, PZero => b
       | _, _ => a
       end.

Definition Math_min (a b : float) : float :=
  if is_nan a || is_nan b then nan
  else if (b <? a)%float then b
  else match classify a, classify b with
       | PZero, NZero => b
       | _, _ => a
       end.

(** { x, y } *)
Record Point : Type := { px : float; py : float }.

(** { width, height } *)
Record Size : Type := { width : float; height : float }.

(** What [getBoundingClientRect] gives that the handlers read. *)
Record DOMRect : Type := {
  rect_left : float; rect_top : float;
  rect_width : float; rect_height : float
}.

(** What the handlers read of a mouse or wheel event. *)
Record MouseEvent : Type := {
  clientX : float; clientY : float; deltaY : float
}.

Record ImageView : Type := {
  imageScale : float;
  imagePosition : Point;
  isDragging : bool;
  dragStart : Point;
  imageContainerSize : Size;
  imageSize : Size
}.

Definition initialImageView : ImageView :=
  {| imageScale := 1;
     imagePosition := {| px := 0; py := 0 |};
     isDragging := false;
     dragStart := {| px := 0; py := 0 |};
     imageContainerSize := {| width := 0; height := 0 |};
     imageSize := {| width := 0; height := 0 |} |}.

(** handleWheel; [container] is the rectangle of the container when both
    [imageRef.current] and [containerRef.current] hold an element. The
    literal is the number nearest to 0.01. *)
Definition handleWheel (e : MouseEvent) (container : option DOMRect)
           (st : ImageView) : ImageView :=
  let delta := (deltaY e * -0x1.47ae147ae147bp-7)%float in
  if (delta <? 0)%float && (imageScale st <=? 1)%float then st
  else
    let newScale := Math_min (Math_max 1 (imageScale st + delta)%float) 5 in
    {| imageScale := newScale;
       imagePosition :=
         match container with
         | Some rect =>
           let x := (clientX e - rect_left rect)%float in
           let y := (clientY e - rect_top rect)%float in
           let deltaX := ((x - px (imagePosition st))
                          * (delta / imageScale st))%float in
           let deltaY := ((y - py (imagePosition st))
                          * (delta / imageScale st))%float in
           {| px := (px (imagePosition st) - deltaX)%float;
              py := (py (imagePosition st) - deltaY)%float |}
         | None => imagePosition st
         end;
       isDragging := isDragging st;
       dragStart := dragStart st;
       imageContainerSize := imageContainerSize st;
       imageSize := imageSize st |}.

Definition handleMouseDown (e : MouseEvent) (st : ImageView) : ImageView :=
  {| imageScale := imageScale st;
     imagePosition := imagePosition st;
     isDragging := true;
     dragStart := {| px := (clientX e - px (imagePosition st))%float;
                     py := (clientY e - py (imagePosition st))%float |};
     imageContainerSize := imageContainerSize st;
     imageSize := imageSize st |}.

Definition handleMouseMove (e : MouseEvent) (container : option DOMRect)
           (st : ImageView) : ImageView :=
  if negb (isDragging st) then st
  else
    let newX := (clientX e - px (dragStart st))%float in
    let newY := (clientY e - py (dragStart st))%float in
    match container with
    | Some containerRect =>
      let scaledWidth := (width (imageSize st) * imageScale st)%float in
      let scaledHeight := (height (imageSize st) * imageScale st)%float in
      let maxX := Math_max 0 ((scaledWidth - rect_width containerRect) / 2)%float in
      let maxY := Math_max 0 ((scaledHeight - rect_height containerRect) / 2)%float in
      let boundedX := Math_min (Math_max newX (- maxX)%float) maxX in
      let boundedY := Math_min (Math_max newY (- maxY)%float) maxY in
      {| imageScale := imageScale st;
         imagePosition := {| px := boundedX; py := boundedY |};
         isDragging := isDragging st;
         dragStart := dragStart st;
         imageContainerSize := imageContainerSize st;
         imageSize := imageSize st |}
    | None => st
    end.

Definition handleMouseUp (st : ImageView) : ImageView :=
  {| imageScale := imageScale st;
     imagePosition := imagePosition st;
     isDragging := false;
     dragStart := dragStart st;
     imageContainerSize := imageContainerSize st;
     imageSize := imageSize st |}.

Definition resetImageView (st : ImageView) : ImageView :=
  {| imageScale := 1;
     imagePosition := {| px := 0; py := 0 |};
     isDragging := isDragging st;
     dragStart := dragStart st;
     imageContainerSize := imageContainerSize st;
     imageSize := imageSize st |}.

(** handleImageLoad; [elements] are the natural size of the image and the
    client size of the container when both references hold an element. *)
Definition handleImageLoad (elements : option (Size * Size)) (st : ImageView)
  : ImageView :=
  match elements with
  | Some (natural, client) =>
    {| imageScale := imageScale st;
       imagePosition := imagePosition st;
       isDragging := isDragging st;
       dragStart := dragStart st;
       imageContainerSize := client;
       imageSize := natural |}
  | None => st
  end.

(** A call of one of the handlers. *)
Inductive image_call : Type :=
| Wheel (e : MouseEvent) (container : option DOMRect)
| MouseDown (e : MouseEvent)
| MouseMove (e : MouseEvent) (container : option DOMRect)
| MouseUp
| ResetView
| ImageLoad (elements : option (Size * Size)).

Definition call (c : image_call) (st : ImageView) : ImageView :=
  match c with
  | Wheel e container => handleWheel e container st
  | MouseDown e => handleMouseDown e st
  | MouseMove e container => handleMouseMove e container st
  | MouseUp => handleMouseUp st
  | ResetView => resetImageView st
  | ImageLoad elements => handleImageLoad elements st
  end.

(** The wheel event of the call, if it is one, has a number as [deltaY]. *)
Definition wheel_is_number (c : image_call) : bool :=
  match c with
  | Wheel e _ => negb (is_nan (deltaY e))
  | _ => true
  end.

(** A number that is neither NaN nor infinite. *)
Definition bounded_number (x : spec_float) : Prop :=
  match x with
  | S754_zero _ | S754_finite _ _ _ => True
  | _ => False
  end.


(** * Part II: the matcher *)


(** ** General facts about the matcher *)

Ltac list_norm :=
  repeat first [rewrite app_nil_r | rewrite <- app_assoc | progress simpl].

Lemma reads_refl x : reads x x [].
Proof. split; reflexivity. Qed.

Lemma reads_trans x y z w1 w2 :
  reads x y w1 -> reads y z w2 -> reads x z (w1 ++ w2).
Proof.
  intros [R1 P1] [R2 P2]. split.
  - rewrite R1, R2, app_assoc. reflexivity.
  - rewrite P2, P1, rev_app_distr, app_assoc. reflexivity.
Qed.

Lemma reads_length x y w :
  reads x y w -> length (m_rest x) = length w + length (m_rest y).
Proof. intros [R _]. rewrite R, length_app. reflexivity. Qed.

Lemma firstn_exact (w s : jsstring) :
  firstn (length (w ++ s) - length s) (w ++ s) = w.
Proof.
  rewrite length_app, Nat.add_sub.
  rewrite firstn_app, Nat.sub_diag, firstn_all, firstn_O, app_nil_r.
  reflexivity.
Qed.

Lemma skipn_exact (a b : jsstring) : skipn (length a) (a ++ b) = b.
Proof. induction a; simpl; auto. Qed.

Lemma reads_consumed x y w : reads x y w -> consumed x y = w.
Proof. intros [R _]. unfold consumed. rewrite R. apply firstn_exact. Qed.

Lemma or_else_some a b z :
  or_else a b = Some z -> a = Some z \/ (a = None /\ b = Some z).
Proof. destruct a; simpl; intros H; [left | right]; auto. Qed.

Lemma or_else_none a : or_else a None = a.
Proof. destruct a; reflexivity. Qed.

Lemma or_else_accepts a b : b <> None -> or_else a b <> None.
Proof. destruct a; simpl; [discriminate | trivial]. Qed.

Lemma caps_without_nil caps : caps_without [] caps = caps.
Proof.
  induction caps as [| e caps IH]; [reflexivity |].
  unfold caps_without in *. simpl. f_equal. exact IH.
Qed.

Lemma cap_reset_nil x : cap_reset [] x = x.
Proof. destruct x. unfold cap_reset. simpl. rewrite caps_without_nil. reflexivity. Qed.

Lemma repeat_sound g r :
  sound_for r (rmatch r) ->
  forall fuel,
    sound_for (Star g r) (repeat_matcher (rmatch r) (groups r) g fuel).
Proof.
  intros IH fuel. induction fuel as [| fuel IHf]; intros x k z H; simpl in H.
  - exists x, []. auto using reads_refl, L_star_nil.
  - assert (Hstop : k x = Some z ->
              exists y w,
                reads x y w
                /\ lang (Star g r) (m_prev x) w (m_rest y) (m_caps x) (m_caps y)
                /\ k y = Some z)
      by (intros K; exists x, []; auto using reads_refl, L_star_nil).
    assert (Hiter :
              rmatch r (cap_reset (groups r) x)
                (fun y => if Nat.eqb (length (m_rest y)) (length (m_rest x))
                          then None
                          else repeat_matcher (rmatch r) (groups r) g fuel y k)
              = Some z ->
              exists y w,
                reads x y w
                /\ lang (Star g r) (m_prev x) w (m_rest y) (m_caps x) (m_caps y)
                /\ k y = Some z).
    { intros Hz. apply IH in Hz.
      destruct Hz as (y1 & w1 & R1 & L1 & K1).
      destruct (Nat.eqb (length (m_rest y1)) (length (m_rest x)));
        [discriminate |].
      apply IHf in K1. destruct K1 as (y2 & w2 & R2 & L2 & K2).
      exists y2, (w1 ++ w2). split; [| split]; trivial.
      - exact (reads_trans _ _ _ _ _ R1 R2).
      - destruct R2 as [R2 P2]. destruct R1 as [R1 P1].
        simpl in L1, P1. rewrite R2 in L1. rewrite P1 in L2.
        eapply L_star_cons; eassumption. }
    destruct g; apply or_else_some in H;
      destruct H as [H | [_ H]]; eauto.
Qed.

Theorem rmatch_sound r : sound_for r (rmatch r).
Proof.
  induction r as [| f | r1 IH1 r2 IH2 | r1 IH1 r2 IH2 | g r IH | g r IH
                  | n r IH | | | f]; intros x k z H; simpl in H.
  - exists x, []. auto using reads_refl, L_eps.
  - destruct x as [p [| c s] caps]; simpl in H; [discriminate |].
    destruct (f c) eqn:F; [| discriminate].
    exists (MState (c :: p) s caps), [c].
    split; [split; reflexivity | split; [apply L_chr; exact F | exact H]].
  - apply IH1 in H. destruct H as (y1 & w1 & R1 & L1 & H).
    apply IH2 in H. destruct H as (y2 & w2 & R2 & L2 & H).
    exists y2, (w1 ++ w2). split; [| split]; trivial.
    + exact (reads_trans _ _ _ _ _ R1 R2).
    + destruct R2 as [R2 P2]. destruct R1 as [R1 P1].
      rewrite R2 in L1. rewrite P1 in L2. eapply L_seq; eassumption.
  - apply or_else_some in H. destruct H as [H | [_ H]].
    + apply IH1 in H. destruct H as (y & w & R & L & H).
      exists y, w. auto using L_alt_l.
    + apply IH2 in H. destruct H as (y & w & R & L & H).
      exists y, w. auto using L_alt_r.
  - eapply repeat_sound; eassumption.
  - assert (Hstop : k x = Some z ->
              exists y w,
                reads x y w
                /\ lang (Opt g r) (m_prev x) w (m_rest y) (m_caps x) (m_caps y)
                /\ k y = Some z)
      by (intros K; exists x, []; auto using reads_refl, L_opt_none).
    assert (Hiter :
              rmatch r (cap_reset (groups r) x)
                (fun y => if Nat.eqb (length (m_rest y)) (length (m_rest x))
                          then None else k y) = Some z ->
              exists y w,
                reads x y w
                /\ lang (Opt g r) (m_prev x) w (m_rest y) (m_caps x) (m_caps y)
                /\ k y = Some z).
    { intros Hz. apply IH in Hz. destruct Hz as (y & w & R & L & K).
      destruct (Nat.eqb (length (m_rest y)) (length (m_rest x)));
        [discriminate |].
      exists y, w. split; [exact R | split; [| exact K]].
      apply L_opt_some. exact L. }
    destruct g; apply or_else_some in H; destruct H as [H | [_ H]]; auto.
  - apply IH in H. destruct H as (y & w & R & L & H).
    exists (MState (m_prev y) (m_rest y) ((n, consumed x y) :: m_caps y)), w.
    split; [exact R | split; [| exact H]].
    simpl. rewrite (reads_consumed _ _ _ R). apply L_group. exact L.
  - destruct (m_rest x) eqn:E; [| discriminate].
    exists x, []. split; [apply reads_refl | split; [| exact H]].
    rewrite ?E. apply L_end.
  - destruct (xorb (is_word_at (m_prev x)) (is_word_at (m_rest x))) eqn:E;
      [| discriminate].
    exists x, []. auto using reads_refl, L_wordb.
  - destruct (m_prev x) as [| c p] eqn:E; [discriminate |].
    destruct (f c) eqn:F; [| discriminate].
    exists x, []. split; [apply reads_refl | split; [| exact H]].
    rewrite ?E. apply L_behind. exact F.
Qed.

Lemma match_at_sound r prev rest y :
  match_at r prev rest = Some y ->
  exists w, rest = w ++ m_rest y /\ m_prev y = rev w ++ prev
            /\ lang r prev w (m_rest y) [] (m_caps y).
Proof.
  unfold match_at. intros H. apply rmatch_sound in H.
  destruct H as (y' & w & [R P] & L & K). injection K as <-.
  simpl in *. eauto.
Qed.

Lemma match_at_shorter r prev rest y :
  match_at r prev rest = Some y -> length (m_rest y) <= length rest.
Proof.
  intros M. apply match_at_sound in M. destruct M as (w & -> & _).
  rewrite length_app. lia.
Qed.

Lemma lang_context r p w s ci co :
  lang r p w s ci co -> assertion_free r = true ->
  forall p' s', lang r p' w s' ci co.
Proof.
  induction 1; simpl; intros A p' s';
    try discriminate;
    try (apply andb_prop in A; destruct A as [A1 A2]);
    eauto using lang.
Qed.


(** ** Searching and scanning *)

Lemma search_eq r prev rest :
  search r prev rest =
  match match_at r prev rest with
  | Some y => Some ([], y)
  | None =>
    match rest with
    | [] => None
    | c :: rest' =>
      match search r (c :: prev) rest' with
      | Some (skipped, y) => Some (c :: skipped, y)
      | None => None
      end
    end
  end.
Proof. destruct rest; reflexivity. Qed.

Lemma search_sound r rest :
  forall prev sk y,
    search r prev rest = Some (sk, y) ->
    exists w, rest = sk ++ w ++ m_rest y
              /\ m_prev y = rev w ++ rev sk ++ prev
              /\ match_at r (rev sk ++ prev) (w ++ m_rest y) = Some y.
Proof.
  induction rest as [| c rest IH]; intros prev sk y H;
    rewrite search_eq in H;
    destruct (match_at r prev _) as [y0 |] eqn:M.
  - injection H as <- <-. destruct (match_at_sound _ _ _ _ M) as (w & R & P & _).
    exists w. simpl. rewrite <- R. auto.
  - discriminate.
  - injection H as <- <-. destruct (match_at_sound _ _ _ _ M) as (w & R & P & _).
    exists w. simpl. rewrite <- R. auto.
  - destruct (search r (c :: prev) rest) as [[sk' y'] |] eqn:S; [| discriminate].
    injection H as <- <-. apply IH in S. destruct S as (w & R & P & M').
    exists w. simpl. rewrite <- app_assoc. simpl.
    split; [f_equal; exact R | auto].
Qed.

Lemma result_of_exact sk w y :
  result_of (sk ++ w ++ m_rest y) sk y = MatchResult sk w (m_caps y).
Proof. unfold result_of. rewrite skipn_exact, firstn_exact. reflexivity. Qed.


Lemma exec_all_S r fuel prev rest :
  exec_all r (S fuel) prev rest =
  match search r prev rest with
  | None => ([], rest)
  | Some (skipped, y) =>
    let here := result_of rest skipped y in
    match mr_text here, m_rest y with
    | [], [] => ([here], [])
    | [], c :: rest' =>
      match exec_all r fuel (c :: m_prev y) rest' with
      | ([], tl) => ([here], c :: tl)
      | (m :: ms, tl) => (here :: push_skipped c m :: ms, tl)
      end
    | _ :: _, _ =>
      let (ms, tl) := exec_all r fuel (m_prev y) (m_rest y) in
      (here :: ms, tl)
    end
  end.
Proof. reflexivity. Qed.

Lemma exec_all_miss r f prev rest :
  search r prev rest = None -> exec_all r (S f) prev rest = ([], rest).
Proof. intros E. rewrite exec_all_S, E. reflexivity. Qed.

Lemma exec_all_hit r f prev rest sk a w y :
  search r prev rest = Some (sk, y) ->
  rest = sk ++ (a :: w) ++ m_rest y ->
  exec_all r (S f) prev rest =
  (MatchResult sk (a :: w) (m_caps y) :: fst (exec_all r f (m_prev y) (m_rest y)),
   snd (exec_all r f (m_prev y) (m_rest y))).
Proof.
  intros E R. rewrite exec_all_S, E. cbv zeta. subst rest.
  rewrite !result_of_exact. cbn [mr_text].
  destruct (exec_all r f (m_prev y) (m_rest y)). reflexivity.
Qed.


Lemma exec_all_spec r fuel :
  forall prev rest ms tl,
    exec_all r fuel prev rest = (ms, tl) ->
    rest = laid_out ms tl /\ Forall (produced_by r) ms.
Proof.
  unfold laid_out.
  induction fuel as [| fuel IH]; intros prev rest ms tl H.
  - injection H as <- <-. auto.
  - rewrite exec_all_S in H.
    destruct (search r prev rest) as [[sk y] |] eqn:S.
    2:{ injection H as <- <-. auto. }
    apply search_sound in S. destruct S as (w & R & P & M).
    subst rest. rewrite result_of_exact in H. simpl in H.
    assert (PB : produced_by r (MatchResult sk w (m_caps y)))
      by (exists (rev sk ++ prev), y; auto).
    destruct w as [| a w].
    + destruct (m_rest y) as [| c rest'] eqn:E.
      * injection H as <- <-. list_norm. auto.
      * destruct (exec_all r fuel (c :: m_prev y) rest') as [[| m ms'] tl']
          eqn:X; injection H as <- <-; apply IH in X; destruct X as [X F].
        -- subst rest'. list_norm. auto.
        -- subst rest'. list_norm. split; [reflexivity |].
           constructor; [exact PB |]. inversion F; subst.
           constructor; assumption.
    + destruct (exec_all r fuel (m_prev y) (m_rest y)) as [ms' tl'] eqn:X.
      injection H as <- <-. apply IH in X. destruct X as [X F].
      list_norm. rewrite <- X. auto.
Qed.

Lemma match_all_produced r s : Forall (produced_by r) (match_all r s).
Proof.
  unfold match_all.
  destruct (exec_all r (S (length s)) [] s) as [ms tl] eqn:X.
  apply exec_all_spec in X. tauto.
Qed.

Lemma match_all_laid_out r text :
  exists tl, text = laid_out (match_all r text) tl.
Proof.
  unfold match_all.
  destruct (exec_all r (S (length text)) [] text) as [ms tl] eqn:X.
  apply exec_all_spec in X. exists tl. tauto.
Qed.

Lemma produced_by_matches r m :
  assertion_free r = true -> produced_by r m -> matches r (mr_text m).
Proof.
  intros A (p & y & M & _). apply match_at_sound in M.
  destruct M as (w & R & _ & L). apply app_inv_tail in R. subst w.
  exists (m_caps y). exact (lang_context _ _ _ _ _ _ L A [] []).
Qed.


(** ** Termination of the loops *)

Lemma exec_all_fuel r f1 :
  forall f2 prev rest,
    length rest < f1 -> length rest < f2 ->
    exec_all r f1 prev rest = exec_all r f2 prev rest.
Proof.
  induction f1 as [| f1 IH]; intros f2 prev rest L1 L2; [lia |].
  destruct f2 as [| f2]; [lia |]. rewrite !exec_all_S.
  destruct (search r prev rest) as [[sk y] |] eqn:S; [| reflexivity].
  apply search_sound in S. destruct S as (w & R & P & M).
  subst rest. rewrite result_of_exact. simpl.
  rewrite !length_app in L1, L2.
  destruct w as [| a w].
  - destruct (m_rest y) as [| c rest'] eqn:E; [reflexivity |].
    simpl in L1, L2. rewrite (IH f2) by lia. reflexivity.
  - simpl in L1, L2. rewrite (IH f2) by lia. reflexivity.
Qed.

Lemma repeat_ext r ns g :
  (forall x k1 k2,
      (forall y, length (m_rest y) <= length (m_rest x) -> k1 y = k2 y) ->
      rmatch r x k1 = rmatch r x k2) ->
  forall fuel x k1 k2,
    (forall y, length (m_rest y) <= length (m_rest x) -> k1 y = k2 y) ->
    repeat_matcher (rmatch r) ns g fuel x k1
    = repeat_matcher (rmatch r) ns g fuel x k2.
Proof.
  intros IH. induction fuel as [| fuel IHf]; intros x k1 k2 H; simpl.
  - apply H. lia.
  - rewrite (H x) by lia. destruct g; f_equal;
      apply IH; intros y L; simpl in L;
      destruct (Nat.eqb _ _); trivial;
      apply IHf; intros y' L'; apply H; lia.
Qed.

(** What follows a pattern is only consulted at positions not before the
    current one. *)
Lemma rmatch_ext r :
  forall x k1 k2,
    (forall y, length (m_rest y) <= length (m_rest x) -> k1 y = k2 y) ->
    rmatch r x k1 = rmatch r x k2.
Proof.
  induction r as [| f | r1 IH1 r2 IH2 | r1 IH1 r2 IH2 | g r IH | g r IH
                  | n r IH | | | f]; intros x k1 k2 H; simpl.
  - apply H. lia.
  - destruct x as [p [| c s] caps]; simpl; [reflexivity |].
    destruct (f c); [| reflexivity]. apply H. simpl. lia.
  - apply IH1. intros y L. apply IH2. intros y' L'. apply H. lia.
  - rewrite (IH1 x k1 k2 H), (IH2 x k1 k2 H). reflexivity.
  - apply repeat_ext; assumption.
  - rewrite (H x) by lia. destruct g; f_equal;
      apply IH; intros y L; simpl in L;
      destruct (Nat.eqb _ _); trivial; apply H; lia.
  - apply IH. intros y L. apply H. simpl. lia.
  - pose proof (H x (Nat.le_refl _)) as K.
    destruct (m_rest x); [exact K | reflexivity].
  - pose proof (H x (Nat.le_refl _)) as K.
    destruct (xorb _ _); [exact K | reflexivity].
  - pose proof (H x (Nat.le_refl _)) as K.
    destruct (m_prev x) as [| c p]; [reflexivity |].
    destruct (f c); [exact K | reflexivity].
Qed.

Lemma rmatch_none r x : rmatch r x (fun _ => None) = None.
Proof.
  destruct (rmatch r x (fun _ => None)) as [z |] eqn:E; [| reflexivity].
  apply rmatch_sound in E. destruct E as (y & w & _ & _ & K). discriminate.
Qed.

Lemma repeat_at_end r ns g fuel x k :
  length (m_rest x) = 0 ->
  repeat_matcher (rmatch r) ns g fuel x k = k x.
Proof.
  intros E. destruct fuel as [| fuel]; [reflexivity |]. simpl.
  rewrite (rmatch_ext r _ _ (fun _ => None)), rmatch_none.
  - destruct g; [reflexivity | apply or_else_none].
  - intros y L. simpl in L. rewrite E in *.
    replace (length (m_rest y)) with 0 by lia. reflexivity.
Qed.

(** The number of iterations a star is allowed does not matter once it
    covers the remaining text. *)
Lemma repeat_fuel r ns g f1 :
  forall f2 x k,
    length (m_rest x) <= f1 -> length (m_rest x) <= f2 ->
    repeat_matcher (rmatch r) ns g f1 x k
    = repeat_matcher (rmatch r) ns g f2 x k.
Proof.
  induction f1 as [| f1 IH]; intros f2 x k L1 L2.
  - rewrite !repeat_at_end by lia. reflexivity.
  - destruct f2 as [| f2]; [rewrite !repeat_at_end by lia; reflexivity |].
    simpl. destruct g; f_equal;
      apply rmatch_ext; intros y L; simpl in L;
      destruct (Nat.eqb _ _) eqn:E; trivial;
      apply Nat.eqb_neq in E; apply IH; lia.
Qed.

Lemma split_loop_fuel r f1 :
  forall f2 prev cur rest (at_p : bool),
    2 * length rest + (if at_p then 0 else 1) <= f1 ->
    2 * length rest + (if at_p then 0 else 1) <= f2 ->
    split_loop r f1 prev cur rest at_p = split_loop r f2 prev cur rest at_p.
Proof.
  induction f1 as [| f1 IH]; intros f2 prev cur rest at_p L1 L2.
  - destruct rest; [| simpl in L1; lia].
    destruct f2; simpl; rewrite ?app_nil_r; reflexivity.
  - destruct f2 as [| f2].
    + destruct rest; [| simpl in L2; lia].
      simpl. rewrite ?app_nil_r. reflexivity.
    + destruct rest as [| c rest]; [reflexivity |].
      cbn [split_loop]. simpl length in *.
      destruct (match_at r prev (c :: rest)) as [y |] eqn:M.
      * apply match_at_shorter in M. simpl length in M.
        destruct (at_p && Nat.eqb (length (m_rest y)) (S (length rest))) eqn:E.
        -- apply IH; simpl; lia.
        -- f_equal. apply IH; simpl;
             destruct at_p; simpl in E;
             try (apply Nat.eqb_neq in E); lia.
      * apply IH; simpl; lia.
Qed.


(** ** Unfolding the matcher *)

Lemma rmatch_seq r1 r2 x k :
  rmatch (Seq r1 r2) x k = rmatch r1 x (fun y => rmatch r2 y k).
Proof. reflexivity. Qed.

Lemma rmatch_chr_cons f p c s caps k :
  rmatch (Chr f) (MState p (c :: s) caps) k =
  if f c then k (MState (c :: p) s caps) else None.
Proof. reflexivity. Qed.

Lemma rmatch_chr_nil f p caps k : rmatch (Chr f) (MState p [] caps) k = None.
Proof. reflexivity. Qed.

Lemma rmatch_star g r x k :
  rmatch (Star g r) x k =
  repeat_matcher (rmatch r) (groups r) g (length (m_rest x)) x k.
Proof. reflexivity. Qed.

Lemma rmatch_opt_greedy r x k :
  rmatch (Opt true r) x k =
  or_else (rmatch r (cap_reset (groups r) x)
                  (fun y => if Nat.eqb (length (m_rest y)) (length (m_rest x))
                            then None else k y))
          (k x).
Proof. reflexivity. Qed.

Lemma rmatch_group n r x k :
  rmatch (Group n r) x k =
  rmatch r x (fun y => k (MState (m_prev y) (m_rest y)
                                 ((n, consumed x y) :: m_caps y))).
Proof. reflexivity. Qed.

Lemma rmatch_behind f p s caps k :
  rmatch (Behind f) (MState p s caps) k =
  if starts_in f p then k (MState p s caps) else None.
Proof. destruct p; reflexivity. Qed.

Lemma rmatch_at_end p s caps k :
  rmatch AtEnd (MState p s caps) k =
  match s with [] => k (MState p s caps) | _ :: _ => None end.
Proof. reflexivity. Qed.

Ltac rmatch_step :=
  first [ rewrite rmatch_seq | rewrite rmatch_chr_cons | rewrite rmatch_chr_nil
        | rewrite rmatch_star | rewrite rmatch_opt_greedy
        | rewrite rmatch_group | rewrite rmatch_behind | rewrite rmatch_at_end ];
  cbv beta.


(** ** Classes under a star *)

Lemma take_drop_while f (s : jsstring) :
  take_while f s ++ drop_while f s = s.
Proof. induction s as [| c s IH]; simpl; [| destruct (f c); simpl]; congruence. Qed.

Lemma take_while_all f (s : jsstring) : forallb f (take_while f s) = true.
Proof.
  induction s as [| c s IH]; simpl; [reflexivity |].
  destruct (f c) eqn:F; simpl; [rewrite F |]; auto.
Qed.

Lemma length_drop_while f (s : jsstring) : length (drop_while f s) <= length s.
Proof. induction s as [| c s IH]; simpl; [| destruct (f c); simpl]; lia. Qed.

Lemma take_while_stops f u v :
  forallb f u = true -> starts_in f v = false -> take_while f (u ++ v) = u.
Proof.
  intros U V. induction u as [| c u IH]; cbn [app].
  - destruct v as [| d v]; [reflexivity |]. cbn in *. rewrite V. reflexivity.
  - cbn [forallb] in U. apply andb_prop in U. destruct U as [C U].
    cbn [take_while]. rewrite C, (IH U). reflexivity.
Qed.

Lemma drop_while_stops f u v :
  forallb f u = true -> starts_in f v = false -> drop_while f (u ++ v) = v.
Proof.
  intros U V. induction u as [| c u IH]; cbn [app].
  - destruct v as [| d v]; [reflexivity |]. cbn in *. rewrite V. reflexivity.
  - cbn [forallb] in U. apply andb_prop in U. destruct U as [C U].
    cbn [drop_while]. rewrite C. exact (IH U).
Qed.

Lemma drop_while_head p l c t : drop_while p l = c :: t -> p c = false.
Proof.
  induction l as [| d l IH]; simpl; [discriminate |].
  destruct (p d) eqn:P; [exact IH |]. intros [= <- <-]. exact P.
Qed.

Lemma drop_while_idem p l : drop_while p (drop_while p l) = drop_while p l.
Proof.
  destruct (drop_while p l) as [| c t] eqn:E; [reflexivity |].
  simpl. rewrite (drop_while_head p l c t E). reflexivity.
Qed.

Lemma drop_while_app f a b :
  drop_while f (a ++ b) =
  match drop_while f a with
  | [] => drop_while f b
  | c :: d => (c :: d) ++ b
  end.
Proof.
  induction a as [| c a IH]; simpl; [destruct (drop_while f b); reflexivity |].
  destruct (f c); [exact IH | reflexivity].
Qed.

(** A greedy star over a class reads the longest run when what follows
    accepts there. *)
Lemma star_class_greedy f k fuel :
  forall rest prev caps,
    length rest <= fuel ->
    k (MState (rev (take_while f rest) ++ prev) (drop_while f rest) caps)
      <> None ->
    repeat_matcher (rmatch (Chr f)) [] true fuel (MState prev rest caps) k
    = k (MState (rev (take_while f rest) ++ prev) (drop_while f rest) caps).
Proof.
  induction fuel as [| fuel IH]; intros rest prev caps L K.
  - destruct rest; [reflexivity | simpl in L; lia].
  - destruct rest as [| c rest]; [reflexivity |].
    simpl in *. destruct (f c) eqn:F; [| reflexivity].
    rewrite caps_without_nil.
    replace (Nat.eqb (length rest) (S (length rest))) with false
      by (symmetry; apply Nat.eqb_neq; lia).
    simpl in K. rewrite <- app_assoc in K. simpl in K.
    rewrite IH by (trivial; lia).
    simpl. rewrite <- app_assoc. simpl.
    destruct (k _); [reflexivity | contradiction].
Qed.

Lemma star_class_try f k fuel :
  forall rest prev caps,
    length rest <= fuel ->
    repeat_matcher (rmatch (Chr f)) [] true fuel (MState prev rest caps) k
    = star_try f k prev rest caps.
Proof.
  induction fuel as [| fuel IH]; intros rest prev caps L.
  - destruct rest; [reflexivity | simpl in L; lia].
  - destruct rest as [| c rest]; [reflexivity |].
    simpl in L. cbn [repeat_matcher star_try]. unfold cap_reset.
    cbn [m_prev m_rest m_caps]. rewrite caps_without_nil, rmatch_chr_cons.
    destruct (f c); [| reflexivity]. cbn [m_rest].
    replace (Nat.eqb (length rest) (length (c :: rest))) with false
      by (symmetry; apply Nat.eqb_neq; simpl; lia).
    rewrite IH by lia. reflexivity.
Qed.

Lemma star_try_ext f k1 k2 caps :
  forall rest prev,
    (forall p r, length r <= length rest ->
                 k1 (MState p r caps) = k2 (MState p r caps)) ->
    star_try f k1 prev rest caps = star_try f k2 prev rest caps.
Proof.
  induction rest as [| c rest IH]; intros prev H; simpl.
  - apply H. simpl. lia.
  - rewrite (H prev (c :: rest)) by lia.
    destruct (f c); [| reflexivity].
    rewrite (IH (c :: prev)); [reflexivity |].
    intros p r L. apply H. simpl. lia.
Qed.

Lemma lang_star_class g f p w s ci co :
  lang (Star g (Chr f)) p w s ci co -> forallb f w = true /\ co = ci.
Proof.
  remember (Star g (Chr f)) as r eqn:E. intros H. revert E.
  induction H; intros E; try discriminate; [auto |].
  injection E as -> ->. clear IHlang1.
  inversion H; subst. simpl in *.
  rewrite caps_without_nil in IHlang2.
  destruct (IHlang2 eq_refl) as [A ->].
  rewrite A. match goal with F : f _ = true |- _ => rewrite F end. auto.
Qed.

Ltac inv_lang :=
  repeat match goal with
  | H : lang (Seq _ _) _ _ _ _ _ |- _ => inversion H; subst; clear H
  | H : lang (Chr _) _ _ _ _ _ |- _ => inversion H; subst; clear H
  | H : lang (Group _ _) _ _ _ _ _ |- _ => inversion H; subst; clear H
  | H : lang (Star _ (Chr _)) _ _ _ _ _ |- _ =>
    apply lang_star_class in H; destruct H as [? ?]; subst
  end.

Lemma is_char_eq a c : is_char a c = true -> c = ch a.
Proof. unfold is_char. apply N.eqb_eq. Qed.

Lemma repeat_accepts step ns fuel x :
  repeat_matcher step ns true fuel x Some <> None.
Proof.
  destruct fuel; simpl; [discriminate |].
  destruct (step _ _); simpl; discriminate.
Qed.

Lemma consumed_run f p s caps q caps' :
  consumed (MState p s caps) (MState q (drop_while f s) caps') = take_while f s.
Proof.
  unfold consumed. cbn [m_rest].
  rewrite <- (take_drop_while f s) at 1 3. apply firstn_exact.
Qed.

Lemma consumed_run_cons f p c s caps q caps' :
  consumed (MState p (c :: s) caps) (MState q (drop_while f s) caps')
  = c :: take_while f s.
Proof.
  unfold consumed. cbn [m_rest].
  rewrite <- (take_drop_while f s) at 1 3.
  exact (firstn_exact (c :: take_while f s) (drop_while f s)).
Qed.


(** * Part III: strings and lists *)


(** ** Trimming *)


Lemma trim_head s c t : trim s = c :: t -> is_space c = false.
Proof.
  unfold trim. intros H.
  pose proof (take_drop_while is_space (rev (drop_while is_space s))) as D.
  apply (f_equal (@rev char)) in D.
  rewrite rev_app_distr, rev_involutive, H in D. simpl in D.
  exact (drop_while_head is_space s c _ (eq_sym D)).
Qed.

Lemma trim_idem s : trim (trim s) = trim s.
Proof.
  assert (H : drop_while is_space (trim s) = trim s).
  { destruct (trim s) as [| c t] eqn:E; [reflexivity |].
    simpl. rewrite (trim_head s c t E). reflexivity. }
  unfold trim at 1. rewrite H. unfold trim.
  rewrite rev_involutive, drop_while_idem. reflexivity.
Qed.

Lemma trim_not_blank s : trim s <> [] -> forallb is_space (trim s) = false.
Proof.
  destruct (trim s) as [| c t] eqn:E; [congruence |].
  intros _. simpl. rewrite (trim_head s c t E). reflexivity.
Qed.

Lemma trim_within s : exists l r, s = l ++ trim s ++ r.
Proof.
  exists (take_while is_space s),
         (rev (take_while is_space (rev (drop_while is_space s)))).
  unfold trim. rewrite <- rev_app_distr, take_drop_while, rev_involutive.
  symmetry. apply take_drop_while.
Qed.


(** ** Prefixes and substrings *)

Lemma starts_with_app pat s : starts_with pat (pat ++ s) = true.
Proof.
  induction pat as [| a pat IH]; [reflexivity |].
  simpl. rewrite N.eqb_refl. exact IH.
Qed.

Lemma starts_with_split pat :
  forall s, starts_with pat s = true -> exists s', s = pat ++ s'.
Proof.
  induction pat as [| a pat IH]; intros s H; [exists s; reflexivity |].
  destruct s as [| c s]; [discriminate |]. simpl in H.
  apply andb_prop in H. destruct H as [E H]. apply N.eqb_eq in E. subst c.
  destruct (IH s H) as [s' ->]. exists s'. reflexivity.
Qed.

Lemma starts_with_prefix pat :
  forall a b, starts_with pat a = true -> starts_with pat (a ++ b) = true.
Proof.
  induction pat as [| c pat IH]; intros a b H; [reflexivity |].
  destruct a as [| d a]; [discriminate |]. simpl in *.
  apply andb_prop in H. destruct H as [-> H]. simpl. auto.
Qed.




Lemma includes_eq s pat :
  includes s pat =
  starts_with pat s || match s with [] => false | _ :: s' => includes s' pat end.
Proof. destruct s; reflexivity. Qed.

Lemma includes_suffix pat a b :
  includes (a ++ b) pat = false -> includes b pat = false.
Proof.
  induction a as [| c a IH]; [trivial |].
  simpl app. rewrite includes_eq. intros H.
  apply orb_false_elim in H. tauto.
Qed.

Lemma includes_prefix pat a b :
  includes (a ++ b) pat = false -> includes a pat = false.
Proof.
  induction a as [| c a IH].
  - rewrite (includes_eq (_ ++ _)), (includes_eq []). intros H.
    apply orb_false_elim in H. destruct H as [H _].
    destruct (starts_with pat []) eqn:E; [| reflexivity].
    rewrite (starts_with_prefix pat [] b E) in H. discriminate.
  - simpl app. rewrite (includes_eq (_ :: _ ++ _)), (includes_eq (_ :: a)).
    intros H. apply orb_false_elim in H. destruct H as [H1 H2].
    rewrite (IH H2), orb_false_r.
    destruct (starts_with pat (c :: a)) eqn:E; [| reflexivity].
    pose proof (starts_with_prefix pat (c :: a) b E) as E'.
    simpl app in E'. congruence.
Qed.

Lemma includes_found a pat b : includes (a ++ pat ++ b) pat = true.
Proof.
  induction a as [| c a IH]; cbn [app]; rewrite includes_eq.
  - rewrite starts_with_app. reflexivity.
  - rewrite IH. apply orb_true_r.
Qed.

Lemma includes_trim s pat : includes s pat = false -> includes (trim s) pat = false.
Proof.
  destruct (trim_within s) as (l & r & E). intros H. rewrite E in H.
  apply includes_suffix in H. apply includes_prefix in H. exact H.
Qed.




Lemma forallb_rev f (u : jsstring) : forallb f (rev u) = forallb f u.
Proof.
  induction u as [| c u IH]; [reflexivity |].
  cbn [rev forallb]. rewrite forallb_app, IH. cbn. rewrite andb_true_r.
  apply andb_comm.
Qed.


Lemma str_or_empty t : str_or t [] = t.
Proof. destruct t; reflexivity. Qed.

Lemma get_substitution_plain before matched after repl :
  forallb (fun c => negb (N.eqb c (ch "$"))) repl = true ->
  get_substitution before matched after repl = repl.
Proof.
  induction repl as [| c repl IH]; [reflexivity |]. cbn [forallb].
  intros H. apply andb_prop in H. destruct H as [C H].
  cbn [get_substitution]. apply negb_true_iff in C. rewrite C.
  rewrite (IH H). reflexivity.
Qed.

Lemma Forall2_map_right {A B} (P : A -> B -> Prop) (f : A -> B) l :
  Forall (fun a => P a (f a)) l -> Forall2 P l (map f l).
Proof. induction 1; simpl; constructor; assumption. Qed.


(** ** First occurrences *)

Lemma jseqb_true x y : jseqb x y = true <-> x = y.
Proof.
  unfold jseqb. destruct (list_eq_dec N.eq_dec x y); split; congruence.
Qed.

Lemma jseqb_refl x : jseqb x x = true.
Proof. apply jseqb_true. reflexivity. Qed.

Lemma filter_implied (p q : jsstring -> bool) l :
  (forall y, p y = true -> q y = true) ->
  filter p (filter q l) = filter p l.
Proof.
  intros I. induction l as [| y l IH]; simpl; [reflexivity |].
  destruct (q y) eqn:Q; simpl.
  - destruct (p y); congruence.
  - destruct (p y) eqn:P; [| exact IH].
    apply I in P. congruence.
Qed.

Lemma filter_both (p q : jsstring -> bool) l :
  filter (fun y => p y && q y) l = filter p (filter q l).
Proof.
  induction l as [| y l IH]; simpl; [reflexivity |].
  destruct (p y) eqn:P, (q y) eqn:Q; simpl; rewrite ?P; congruence.
Qed.

Lemma uniq_from_first_occurrences l :
  forall seen,
    uniq_from seen l =
    filter (fun y => negb (existsb (jseqb y) seen)) (first_occurrences l).
Proof.
  induction l as [| x l IH]; intros seen; simpl; [reflexivity |].
  destruct (existsb (jseqb x) seen) eqn:S; simpl.
  - rewrite IH. symmetry. apply filter_implied.
    intros y N. destruct (jseqb y x) eqn:E; [| reflexivity].
    apply jseqb_true in E. subst y. rewrite S in N. discriminate.
  - rewrite IH. f_equal. rewrite <- filter_both. apply filter_ext.
    intros y. simpl. rewrite negb_orb. apply andb_comm.
Qed.

Lemma set_of_first_occurrences l : set_of l = first_occurrences l.
Proof.
  unfold set_of. rewrite uniq_from_first_occurrences.
  induction (first_occurrences l) as [| y l' IH]; simpl;
    [reflexivity | f_equal; exact IH].
Qed.

Lemma NoDup_first_occurrences l : NoDup (first_occurrences l).
Proof.
  induction l as [| x l IH]; simpl; constructor.
  - rewrite filter_In. intros [_ N]. rewrite jseqb_refl in N. discriminate.
  - apply NoDup_filter. exact IH.
Qed.

Lemma In_first_occurrences l x : In x (first_occurrences l) -> In x l.
Proof.
  induction l as [| y l IH]; simpl; [tauto |].
  rewrite filter_In. tauto.
Qed.


(** ** Texts that end in white space *)






Lemma non_space_of_space c : is_space c = true -> non_space c = false.
Proof. unfold non_space. intros ->. reflexivity. Qed.

Lemma is_alnum_of_space c : is_space c = true -> is_alnum c = false.
Proof.
  unfold is_space, is_alnum, is_lower, is_upper, is_digit, in_range.
  intros H. repeat (apply orb_prop in H; destruct H as [H | H]);
    repeat match goal with
           | H : (_ && _)%bool = true |- _ => apply andb_prop in H; destruct H
           | H : (_ <=? _)%N = true |- _ => apply N.leb_le in H
           | H : (_ =? _)%N = true |- _ => apply N.eqb_eq in H
           end;
    repeat (apply orb_false_intro);
    apply andb_false_iff;
    rewrite !N.leb_gt; lia.
Qed.









(** * Part IV: the patterns of the application *)


(** ** The flag pattern *)

Lemma param_match_shape p w s co :
  lang paramRegex p w s [] co ->
  flag_occurrence w (parameter_of (MatchResult [] w co)).
Proof.
  unfold paramRegex, seqs, lit, Plus. intros H. inv_lang.
  repeat match goal with
         | H : is_char _ _ = true |- _ => apply is_char_eq in H; subst
         end.
  match goal with
  | H : lang (Opt _ _) _ _ _ _ _ |- _ => inversion H; subst; clear H
  end.
  - unfold flag_occurrence, parameter_of. cbn.
    repeat split; try discriminate.
    + match goal with A : is_alnum _ = true |- _ => rewrite A end. assumption.
    + left. rewrite app_nil_r. auto.
  - cbn in *. inv_lang.
    unfold flag_occurrence, parameter_of. cbn.
    repeat split; try discriminate.
    + match goal with A : is_alnum _ = true |- _ => rewrite A end. assumption.
    + right.
      match goal with
      | C : colon_or_space ?c = true, W : forallb colon_or_space ?w = true
        |- _ => exists (c :: w)
      end. cbn.
      repeat split; try discriminate; try assumption;
        repeat match goal with A : _ = true |- _ => rewrite A; clear A end;
        try reflexivity.
Qed.

Lemma param_match_needs_dashes prev rest y :
  match_at paramRegex prev rest = Some y ->
  starts_with (js "--") rest = true.
Proof.
  intros M. apply match_at_sound in M. destruct M as (w & -> & _ & L).
  unfold paramRegex, seqs, lit in L. inv_lang.
  repeat match goal with
         | H : is_char _ _ = true |- _ => apply is_char_eq in H; subst
         end.
  reflexivity.
Qed.

Lemma paramRegex_dashed : dashed paramRegex.
Proof.
  intros prev rest H.
  destruct (match_at paramRegex prev rest) eqn:M; [| reflexivity].
  apply param_match_needs_dashes in M. congruence.
Qed.

(** The token group followed by the check of the optional group. *)
Lemma token_matched n y :
  length (m_rest y) < n ->
  rmatch (Group 2 (Plus true (Chr non_space))) y
         (fun z => if Nat.eqb (length (m_rest z)) n then None else Some z)
  = token_at y.
Proof.
  destruct y as [p s caps]. intros L. unfold token_at, Plus.
  cbn [m_rest m_prev m_caps] in *. rmatch_step. rmatch_step.
  destruct s as [| c s]; [reflexivity |].
  rmatch_step. cbn [starts_in take_while drop_while].
  destruct (non_space c); [| reflexivity].
  rmatch_step. cbn [m_rest groups].
  pose proof (length_drop_while non_space s) as D. simpl in L.
  rewrite star_class_greedy;
    cbn [m_rest m_prev m_caps]; trivial.
  - rewrite consumed_run_cons.
    replace (Nat.eqb (length (drop_while non_space s)) n) with false
      by (symmetry; apply Nat.eqb_neq; lia).
    cbn [rev]. rewrite <- app_assoc. reflexivity.
  - destruct (Nat.eqb _ _) eqn:E; [| discriminate].
    apply Nat.eqb_eq in E. lia.
Qed.

Lemma param_match_is_flag_at prev rest :
  match_at paramRegex prev rest = flag_at prev rest.
Proof.
  unfold match_at, paramRegex, flag_at. cbn [seqs lit].
  do 2 rmatch_step.
  destruct rest as [| d1 [| d2 rest1]]; [reflexivity | |].
  { do 2 rmatch_step. destruct (is_char "-" d1); reflexivity. }
  rmatch_step. destruct (is_char "-" d1); [| reflexivity]. cbn [andb].
  rmatch_step. destruct (is_char "-" d2); [| reflexivity]. cbn [andb].
  rmatch_step. rmatch_step. unfold Plus at 1. rmatch_step.
  destruct rest1 as [| c rest1]; [reflexivity |]. rmatch_step.
  cbn [starts_in take_while drop_while].
  destruct (is_alnum c); [| reflexivity].
  rmatch_step. cbn [m_rest groups].
  rewrite star_class_greedy; cbn [m_rest m_prev m_caps]; trivial.
  2:{ rewrite rmatch_opt_greedy. apply or_else_accepts. discriminate. }
  rewrite consumed_run_cons, rmatch_opt_greedy.
  cbn [rev]. rewrite <- !app_assoc. cbn [app].
  f_equal. unfold cap_reset. cbn [m_prev m_rest m_caps groups seqs app Plus].
  change (caps_without [2] [(1, c :: take_while is_alnum rest1)])
    with [(1, c :: take_while is_alnum rest1)].
  unfold Plus at 1. do 2 rmatch_step.
  destruct (drop_while is_alnum rest1) as [| s rest2]; [reflexivity |].
  rmatch_step. destruct (colon_or_space s); [| reflexivity].
  rmatch_step. cbn [m_rest groups]. rewrite star_class_try by trivial.
  apply star_try_ext. intros p r L.
  apply token_matched. cbn [m_rest]. simpl. lia.
Qed.

Lemma flag_at_dashed prev rest :
  starts_with (js "--") rest = false -> flag_at prev rest = None.
Proof. rewrite <- param_match_is_flag_at. apply paramRegex_dashed. Qed.

Lemma flag_at_consumes prev rest y :
  flag_at prev rest = Some y -> length (m_rest y) < length rest.
Proof.
  rewrite <- param_match_is_flag_at. intros M.
  apply match_at_sound in M. destruct M as (w & -> & _ & L).
  unfold paramRegex, seqs, lit in L. inv_lang.
  rewrite !length_app. simpl. lia.
Qed.

Lemma flag_shape prev rest y :
  flag_at prev rest = Some y ->
  exists w, rest = w ++ m_rest y
            /\ flag_occurrence w (parameter_of (MatchResult [] w (m_caps y))).
Proof.
  rewrite <- param_match_is_flag_at. intros M.
  apply match_at_sound in M. destruct M as (w & R & _ & L).
  exists w. split; [exact R | exact (param_match_shape _ _ _ _ L)].
Qed.



(** ** The pattern of an update *)

Lemma lang_lit_units name :
  forall p w s ci co, lang (lit_units name) p w s ci co -> w = name /\ co = ci.
Proof.
  induction name as [| c name IH]; intros p w s ci co H; simpl in H.
  - inversion H; subst. auto.
  - inversion H; subst; clear H.
    match goal with H : lang (Chr _) _ _ _ _ _ |- _ => inversion H; subst end.
    match goal with H : lang (lit_units _) _ _ _ _ _ |- _ =>
      apply IH in H; destruct H as [-> ->] end.
    match goal with E : N.eqb _ _ = true |- _ => apply N.eqb_eq in E; subst end.
    auto.
Qed.

Lemma rmatch_lit_units name :
  forall p s caps k,
    rmatch (lit_units name) (MState p (name ++ s) caps) k
    = k (MState (rev name ++ p) s caps).
Proof.
  induction name as [| c name IH]; intros p s caps k; [reflexivity |].
  cbn [lit_units app]. rmatch_step. rmatch_step. rewrite N.eqb_refl.
  rewrite IH. cbn [rev]. rewrite <- app_assoc. reflexivity.
Qed.

Lemma update_match_needs_flag name prev rest y :
  match_at (updateRegex name) prev rest = Some y ->
  starts_with (js "--" ++ name) rest = true.
Proof.
  intros M. apply match_at_sound in M. destruct M as (w & -> & _ & L).
  unfold updateRegex, seqs, lit in L. inv_lang.
  match goal with H : lang (lit_units _) _ _ _ _ _ |- _ =>
    apply lang_lit_units in H; destruct H as [-> _] end.
  repeat match goal with
         | H : is_char _ _ = true |- _ => apply is_char_eq in H; subst
         end.
  change (js "--") with [ch "-"; ch "-"].
  list_norm. apply starts_with_app.
Qed.

Lemma update_match_at_flag name prev s :
  match_at (updateRegex name) prev (js "--" ++ name ++ s) <> None.
Proof.
  unfold match_at, updateRegex, seqs, lit.
  change (js "--") with [ch "-"; ch "-"]. cbn [app].
  do 3 rmatch_step. change (is_char "-" (ch "-")) with true. cbv iota.
  rmatch_step. change (is_char "-" (ch "-")) with true. cbv iota.
  rmatch_step. rewrite rmatch_lit_units. rmatch_step. rmatch_step.
  apply or_else_accepts. rmatch_step. apply repeat_accepts.
Qed.

Lemma update_match_iff name prev rest :
  match_at (updateRegex name) prev rest = None
  <-> starts_with (js "--" ++ name) rest = false.
Proof.
  split; intros H.
  - destruct (starts_with (js "--" ++ name) rest) eqn:E; [| reflexivity].
    apply starts_with_split in E. destruct E as [s ->].
    rewrite <- app_assoc in H. apply update_match_at_flag in H. contradiction.
  - destruct (match_at (updateRegex name) prev rest) eqn:M; [| reflexivity].
    apply update_match_needs_flag in M. congruence.
Qed.

Lemma update_needs_its_flag name prev rest :
  starts_with (js "--" ++ name) rest = false ->
  match_at (updateRegex name) prev rest = None.
Proof. apply update_match_iff. Qed.


Lemma search_update_iff name rest :
  forall prev,
    search (updateRegex name) prev rest = None
    <-> includes rest (js "--" ++ name) = false.
Proof.
  induction rest as [| c rest IH]; intros prev;
    rewrite search_eq, includes_eq;
    pose proof (update_match_iff name prev) as U.
  - rewrite orb_false_r, <- U.
    destruct (match_at _ _ _); split; congruence.
  - specialize (IH (c :: prev)). specialize (U (c :: rest)).
    destruct (match_at _ _ _) eqn:M.
    + split; [discriminate |]. intros H. apply orb_false_elim in H.
      destruct H as [H _]. apply U in H. discriminate.
    + destruct U as [U _]. rewrite (U eq_refl). simpl.
      destruct (search _ _ rest) as [[sk y] |]; rewrite <- IH;
        split; congruence.
Qed.


(** ** Searching a prompt *)









(** ** One text, two tails *)









(** ** The pattern that cuts the flags off *)

Lemma star_try_at_end f caps :
  forall rest prev,
    star_try f (fun y => rmatch AtEnd y Some) prev rest caps
    = if forallb f rest then Some (MState (rev rest ++ prev) [] caps) else None.
Proof.
  induction rest as [| c rest IH]; intros prev; [reflexivity |].
  cbn [star_try forallb]. rewrite rmatch_at_end.
  destruct (f c); [| reflexivity].
  rewrite IH, or_else_none. cbn [rev andb]. rewrite <- app_assoc. reflexivity.
Qed.

Lemma cut_match prev rest :
  match_at flagsToEndRegex prev rest =
  if starts_with (js "--") rest && forallb any_char (skipn 2 rest)
  then Some (MState (rev rest ++ prev) [] [])
  else None.
Proof.
  unfold match_at, flagsToEndRegex. cbn [seqs lit].
  change (js "--") with [ch "-"; ch "-"].
  do 2 rmatch_step.
  destruct rest as [| d1 [| d2 rest]]; [reflexivity | |].
  { do 2 rmatch_step. cbn [starts_with]. unfold is_char.
    rewrite (N.eqb_sym (ch "-")). destruct (N.eqb d1 (ch "-")); reflexivity. }
  rmatch_step. cbn [starts_with skipn]. unfold is_char.
  rewrite !(N.eqb_sym (ch "-")).
  destruct (N.eqb d1 (ch "-")); [| reflexivity].
  rmatch_step. destruct (N.eqb d2 (ch "-")); [| reflexivity].
  cbn [andb]. do 2 rmatch_step. cbn [m_rest groups].
  rewrite star_class_try by trivial. rewrite star_try_at_end.
  cbn [rev]. rewrite <- !app_assoc. reflexivity.
Qed.

(** ** Sentence separators *)

Lemma sentence_separator prev rest :
  match_at sentenceRegex prev rest =
  if starts_in is_terminal prev && starts_in is_space rest
  then Some (after_run is_space prev rest)
  else None.
Proof.
  unfold match_at, sentenceRegex, seqs, Plus, after_run.
  do 2 rmatch_step. destruct (starts_in is_terminal prev); [| reflexivity].
  rmatch_step. destruct rest as [| c rest]; [reflexivity |].
  rmatch_step. cbn [starts_in andb take_while drop_while].
  destruct (is_space c); [| reflexivity].
  rmatch_step. cbn [m_rest groups].
  rewrite star_class_greedy by (trivial; discriminate).
  cbn [rev]. rewrite <- app_assoc. reflexivity.
Qed.

Lemma cjk_sentence_separator prev rest :
  match_at cjkSentenceRegex prev rest =
  if starts_in is_cjk_terminal prev
  then Some (after_run is_space prev rest)
  else None.
Proof.
  unfold match_at, cjkSentenceRegex, seqs, after_run.
  do 2 rmatch_step. destruct (starts_in is_cjk_terminal prev); [| reflexivity].
  rmatch_step. cbn [m_rest groups].
  rewrite star_class_greedy by (trivial; discriminate). reflexivity.
Qed.

Lemma sentence_parts_trimmed r s :
  Forall (fun part => trim part = part /\ forallb is_space part = false)
         (sentence_parts r s).
Proof.
  apply Forall_forall. intros part I. unfold sentence_parts in I.
  apply in_map_iff in I. destruct I as (piece & <- & I).
  apply filter_In in I. destruct I as [_ T].
  split; [apply trim_idem |]. apply trim_not_blank.
  destruct (trim piece); [discriminate | discriminate].
Qed.


(** * Part V: the application *)


(** ** The handlers *)

Lemma prompt_handleTranslate translate text st :
  prompt (handleTranslate translate text st) = prompt st.
Proof.
  unfold handleTranslate. destruct (negb (truthy text)); [reflexivity |].
  destruct (translate text); reflexivity.
Qed.

Lemma prompt_setPrompt p st : prompt (setPrompt p st) = p.
Proof. reflexivity. Qed.

Lemma prompt_stopEditing st : prompt (stopEditing st) = prompt st.
Proof. reflexivity. Qed.

Lemma prompt_analyzePrompt translate text st :
  prompt (analyzePrompt translate text st) = prompt st.
Proof. unfold analyzePrompt. rewrite prompt_handleTranslate. reflexivity. Qed.

Lemma prompt_updateParameter translate name value st :
  analysis st <> None ->
  prompt (updateParameter translate name value st)
  = updatedPrompt (prompt st) name value.
Proof.
  intros A. unfold updateParameter.
  destruct (analysis st); [| contradiction]. cbv zeta.
  rewrite prompt_stopEditing, prompt_analyzePrompt, prompt_setPrompt.
  reflexivity.
Qed.


(** ** Description isolation on several lines *)

(** C1. The pattern that cuts the flags off matches at a position exactly
    when the text there starts with [--] and no line terminator comes after
    it, and then takes everything up to the end of the text. So in a
    two-line text a flag on the first line is not cut off: the pattern does
    not match, and both the flag and the second line reach the
    descriptions. On one line the cut is made. *)
Theorem flags_before_a_line_break_stay :
  (forall prev rest,
      match_at flagsToEndRegex prev rest =
      if starts_with (js "--") rest && forallb any_char (skipn 2 rest)
      then Some (MState (rev rest ++ prev) [] [])
      else None)
  /\ let text := js "a cat --ar 16:9" ++ [ch "010"] ++ js "second line" in
     replace_first flagsToEndRegex [] text = text
     /\ descriptions (analyze text) = [js "a cat --ar"; js "second line"]
     /\ descriptions (analyze (js "a cat --ar 16:9 second line"))
        = [js "a cat"].
Proof. split; [exact cut_match |]. vm_compute. repeat split. Qed.


(** ** Default values *)

Lemma assoc_In key l i :
  assoc key l = Some i -> In (key, i) l.
Proof.
  induction l as [| [k v] l IH]; simpl; [discriminate |].
  unfold jseqb. destruct (list_eq_dec N.eq_dec key k) as [-> |].
  - intros [= ->]. auto.
  - auto.
Qed.

Lemma catalog_default_is_spec_default key i :
  In (key, i) PARAMETER_INFO ->
  default_value (Own i) = Some (spec_default (Some i)).
Proof.
  unfold PARAMETER_INFO. simpl.
  intros H.
  repeat (destruct H as [H | H]; [injection H as <- <-; vm_compute; reflexivity |]).
  contradiction.
Qed.

Lemma get_property_own key i :
  assoc key PARAMETER_INFO = Some i -> get_property key = Own i.
Proof. unfold get_property. intros ->. reflexivity. Qed.

Lemma get_property_absent key :
  assoc key PARAMETER_INFO = None ->
  key <> js "constructor" ->
  get_property key =
  if existsb (jseqb key) object_prototype_names then Inherited else Undefined.
Proof.
  unfold get_property. intros -> NC. unfold jseqb at 1.
  destruct (list_eq_dec N.eq_dec key (js "constructor")); [contradiction |].
  reflexivity.
Qed.





(** ** Parameter extraction *)

(** C3. The parameters of an analysis are read off the matches of the flag
    pattern, scanned with the [g] flag over the text as given: one parameter
    per match, in the order of the matches, which lie one after the other in
    the text. Each parameter has the name matched after [--], the value
    token matched after the separator or the empty string when there is
    none, and is enabled. At a position the pattern matches what [flag_at]
    reads: [--], the longest name, and, when they can be found, separators
    and a value token. A flag that occurs twice gives two parameters. *)
Theorem parameters_follow_matches (text : jsstring) :
  parameters (analyze text) = map parameter_of (match_all paramRegex text)
  /\ length (parameters (analyze text)) = length (match_all paramRegex text)
  /\ (exists tl, text = laid_out (match_all paramRegex text) tl)
  /\ Forall2 (fun m p => flag_occurrence (mr_text m) p)
             (match_all paramRegex text) (parameters (analyze text))
  /\ Forall (fun p => enabled p = true) (parameters (analyze text))
  /\ (forall prev rest, match_at paramRegex prev rest = flag_at prev rest)
  /\ map name (parameters (analyze (js "--ar 1:1 --ar 1:1")))
     = [js "ar"; js "ar"].
Proof.
  cbn [analyze parameters].
  assert (F : Forall (fun m => flag_occurrence (mr_text m) (parameter_of m))
                     (match_all paramRegex text)).
  { eapply Forall_impl; [| apply match_all_produced].
    intros [sk w co] (p & y & M & C). cbn [mr_text mr_caps] in *. subst co.
    apply match_at_sound in M. destruct M as (w' & R & _ & L).
    apply app_inv_tail in R. subst w'.
    exact (param_match_shape _ _ _ _ L). }
  split; [reflexivity | split; [apply length_map | split]].
  - apply match_all_laid_out.
  - split; [apply Forall2_map_right; exact F | split; [| split]].
    + apply Forall_forall. intros p I. apply in_map_iff in I.
      destruct I as (m & <- & _). reflexivity.
    + exact param_match_is_flag_at.
    + vm_compute. reflexivity.
Qed.


(** ** Image addresses and description lines *)

(** C4. The image addresses of an analysis are the first occurrences, in
    order, of the matches of the image pattern in the text: no address is
    listed twice and each one matches the pattern; every description line is
    trimmed and has a character that is not white space. *)
Theorem analysis_invariants (text : jsstring) :
  NoDup (imageUrls (analyze text))
  /\ imageUrls (analyze text) = first_occurrences (match_g imageUrlRegex text)
  /\ Forall (matches imageUrlRegex) (imageUrls (analyze text))
  /\ Forall (fun line => trim line = line /\ forallb is_space line = false)
            (descriptions (analyze text)).
Proof.
  unfold analyze. cbn [imageUrls descriptions].
  rewrite set_of_first_occurrences.
  split; [apply NoDup_first_occurrences | split; [reflexivity | split]].
  - apply Forall_forall. intros u I. apply In_first_occurrences in I.
    unfold match_g in I. apply in_map_iff in I. destruct I as (m & <- & I).
    apply produced_by_matches; [reflexivity |].
    pose proof (match_all_produced imageUrlRegex text) as F.
    rewrite Forall_forall in F. auto.
  - apply Forall_forall. intros line I. apply filter_In in I.
    destruct I as [I N]. apply in_map_iff in I. destruct I as (part & <- & _).
    split; [apply trim_idem |]. apply trim_not_blank.
    destruct (trim part); [discriminate | discriminate].
Qed.


(** ** The sentence aligner *)

Lemma length_mappings_from parts translations :
  forall i, length (mappings_from i parts translations) = length parts.
Proof. induction parts as [| part parts IH]; intros i; simpl; auto. Qed.

Lemma nth_error_mappings_from parts translations :
  forall i j,
    nth_error (mappings_from i parts translations) j =
    option_map
      (fun part =>
         {| original := part;
            translated := match nth_error translations (i + j) with
                          | Some t => t
                          | None => []
                          end;
            index := i + j |})
      (nth_error parts j).
Proof.
  induction parts as [| part parts IH]; intros i [| j]; simpl; trivial.
  - rewrite Nat.add_0_r. destruct (nth_error translations i); trivial.
    rewrite str_or_empty. reflexivity.
  - rewrite IH. rewrite Nat.add_succ_r. reflexivity.
Qed.

(** C5. [align] pairs by position: the result is as long as the list of
    original sentence parts; pair [i] holds part [i] of the original, part
    [i] of the translation when there is one and the empty string
    otherwise, and the index [i]; translated parts beyond that length are
    dropped. For "One. Two. Three." and a one-sentence translation, pairs 1
    and 2 have an empty translation. *)
Theorem align_pairs_by_position (text result : jsstring) :
  length (align text result) = length (originalParts text)
  /\ (forall i,
        nth_error (align text result) i =
        option_map
          (fun part =>
             {| original := part;
                translated := match nth_error (translatedParts result) i with
                              | Some t => t
                              | None => []
                              end;
                index := i |})
          (nth_error (originalParts text) i))
  /\ align (js "One. Two. Three.") (js "一。") =
     [ {| original := js "One."; translated := js "一。"; index := 0 |};
       {| original := js "Two."; translated := []; index := 1 |};
       {| original := js "Three."; translated := []; index := 2 |} ].
Proof.
  split; [apply length_mappings_from | split].
  - intros i. unfold align. rewrite nth_error_mappings_from. reflexivity.
  - vm_compute. reflexivity.
Qed.

(** C6. The separator of the original text is a run of white space right
    after a full stop, an exclamation mark or a question mark: the pattern
    matches exactly at such a place and takes the whole run. The separator
    of the translated text is the possibly empty run of white space right
    after an ideographic full stop or a fullwidth exclamation or question
    mark. The parts are the pieces between separators, trimmed, the blank
    ones left out. The two-sentence example gives the two pairs. *)
Theorem align_splits_after_terminals :
  (forall prev rest,
      match_at sentenceRegex prev rest =
      if starts_in is_terminal prev && starts_in is_space rest
      then Some (after_run is_space prev rest)
      else None)
  /\ (forall prev rest,
         match_at cjkSentenceRegex prev rest =
         if starts_in is_cjk_terminal prev
         then Some (after_run is_space prev rest)
         else None)
  /\ (forall text result,
         align text result =
         mappings_from 0
           (map trim (filter (fun part => truthy (trim part))
                             (split_regex sentenceRegex text)))
           (map trim (filter (fun part => truthy (trim part))
                             (split_regex cjkSentenceRegex result))))
  /\ (forall text result,
         Forall (fun part => trim part = part /\ forallb is_space part = false)
                (originalParts text ++ translatedParts result))
  /\ align (js "A cat. A dog!") (js "一只猫。一只狗！") =
     [ {| original := js "A cat."; translated := js "一只猫。"; index := 0 |};
       {| original := js "A dog!"; translated := js "一只狗！"; index := 1 |} ].
Proof.
  split; [exact sentence_separator | split; [exact cjk_sentence_separator |]].
  split; [reflexivity | split].
  - intros text result. apply Forall_app.
    split; apply sentence_parts_trimmed.
  - vm_compute. reflexivity.
Qed.


(** ** Adding a flag, then updating it *)










Example chaos_added_after_a_flag :
  addedPrompt (js " a cat --ar 16:9 ") (js "chaos")
  = Some (js "a cat --ar 16:9  --chaos 0")
  /\ updatedPrompt (js "a cat --ar 16:9  --chaos 0") (js "chaos") (js "50")
     = js "a cat --ar 16:9  --chaos 50"
  /\ parameters (analyze (js "a cat --ar 16:9  --chaos 50"))
     = [ {| name := js "ar"; value := js "16:9"; enabled := true |};
         {| name := js "chaos"; value := js "50"; enabled := true |} ].
Proof. vm_compute. repeat split. Qed.


(** ** Totality *)

Lemma translatedParts_nil : translatedParts [] = [].
Proof. reflexivity. Qed.

(** C8. Nothing in [analyze] or [align] can fail: the handler stores the
    analysis of any text, whatever becomes of the translation, and stores
    the pairs of any text and translation; the analysis of the empty text,
    and of a text with nothing to find, has three empty collections, and the
    empty text has no pairs. The loops of the matcher, of the scans and of
    the splitting end within the length of the text: a larger bound gives
    the same result. *)
Theorem analysis_never_fails :
  (forall translate text st,
      analysis (analyzePrompt translate text st) = Some (analyze text))
  /\ (forall c text result st,
         textMappings
           (handleTranslate (fun _ => Resolved result) (c :: text) st)
         = align (c :: text) result)
  /\ analyze [] = {| imageUrls := []; descriptions := []; parameters := [] |}
  /\ analyze (js " -- @ () ")
     = {| imageUrls := []; descriptions := []; parameters := [] |}
  /\ (forall result, align [] result = [])
  /\ (forall r g x k extra,
         repeat_matcher (rmatch r) (groups r) g (length (m_rest x) + extra) x k
         = rmatch (Star g r) x k)
  /\ (forall r text extra,
         exec_all r (S (length text) + extra) [] text
         = exec_all r (S (length text)) [] text)
  /\ (forall r text extra,
         split_loop r (2 * length text + extra) [] [] text true
         = split_loop r (2 * length text) [] [] text true).
Proof.
  split; [| split; [| split; [| split; [| split; [| split; [| split]]]]]].
  - intros translate text st. unfold analyzePrompt, handleTranslate.
    destruct (negb (truthy (descriptionText text))); [reflexivity |].
    destruct (translate (descriptionText text)); reflexivity.
  - reflexivity.
  - vm_compute. reflexivity.
  - vm_compute. reflexivity.
  - intros result. reflexivity.
  - intros r g x k extra. rewrite rmatch_star. apply repeat_fuel; lia.
  - intros r text extra. apply exec_all_fuel; lia.
  - intros r text extra. apply split_loop_fuel; simpl; lia.
Qed.


(** ** Translation failures *)

(** C9. When the translation call is rejected with an Error, the message
    shown is the insufficient-balance message exactly when the error message
    contains the code 54004, and the error message itself otherwise; the
    failure marks the translation state as failed and leaves the analysis,
    the prompt and the sentence pairs as they were. Through [analyzePrompt]
    the analysis of the text is stored whatever the call does. *)
Theorem translation_failure_is_contained
        (translate : jsstring -> outcome) (text message : jsstring)
        (st : AppState) :
  text <> [] ->
  translate text = RejectedError message ->
  let st' := handleTranslate translate text st in
  translationError st' =
    Some (if includes message (js "54004") then errorBalance else message)
  /\ translatedText st' = textFailed
  /\ isTranslating st' = false
  /\ analysis st' = analysis st
  /\ prompt st' = prompt st
  /\ textMappings st' = textMappings st
  /\ forall input,
       analysis (analyzePrompt translate input st) = Some (analyze input).
Proof.
  intros NE F. unfold handleTranslate.
  destruct text as [| c text]; [contradiction |].
  cbn [truthy negb]. rewrite F. cbv beta iota.
  repeat split.
  intros input. unfold analyzePrompt, handleTranslate.
  destruct (negb (truthy (descriptionText input))); [reflexivity |].
  destruct (translate (descriptionText input)); reflexivity.
Qed.

Lemma translation_failure_witness :
  let translate := fun _ : jsstring => RejectedError (js "54004: recharge") in
  let st' := handleTranslate translate (js "a cat") initialState in
  translationError st' = Some errorBalance
  /\ analysis st' = analysis initialState.
Proof.
  intros translate st'.
  destruct (translation_failure_is_contained
              translate (js "a cat") (js "54004: recharge") initialState)
    as (E & _ & _ & A & _).
  - vm_compute. discriminate.
  - reflexivity.
  - vm_compute in E, A |- *. split; [exact E | exact A].
Defined.


(** ** Updating a flag that is not there *)

(** C10. When the pattern built from a name (of letters and digits) matches
    nowhere in the prompt, which is the case exactly when the prompt does
    not contain [--] followed by the name, [update] gives back the prompt
    with its leading and trailing white space removed: the flag is not
    inserted, whatever the value, and the handler stores that prompt. *)
Theorem update_without_flag_only_trims (p name value : jsstring) :
  forallb is_alnum name = true ->
  search (updateRegex name) [] p = None ->
  updatedPrompt p name value = trim p
  /\ includes p (js "--" ++ name) = false
  /\ includes (updatedPrompt p name value) (js "--" ++ name) = false
  /\ forall translate st,
       prompt st = p -> analysis st <> None ->
       prompt (updateParameter translate name value st) = trim p.
Proof.
  intros _ S.
  assert (U : updatedPrompt p name value = trim p)
    by (unfold updatedPrompt, replace_first; rewrite S; reflexivity).
  assert (I : includes p (js "--" ++ name) = false)
    by (apply (search_update_iff name p []); exact S).
  split; [exact U | split; [exact I | split]].
  - rewrite U. apply includes_trim. exact I.
  - intros translate st E A.
    rewrite (prompt_updateParameter translate name value st A), E. exact U.
Qed.

Lemma update_without_flag_witness :
  updatedPrompt (js " a cat --ar 1:1 ") (js "chaos") (js "50")
  = js "a cat --ar 1:1".
Proof.
  destruct (update_without_flag_only_trims
              (js " a cat --ar 1:1 ") (js "chaos") (js "50")) as [U _].
  - reflexivity.
  - vm_compute. reflexivity.
  - rewrite U. vm_compute. reflexivity.
Defined.


(** * Part VI: further properties *)


(** ** Splitting a text into words and separators *)

Lemma split_text_match prev rest :
  match_at splitTextRegex prev rest =
  if starts_in is_break rest
  then Some (MState (rev (take_while is_break rest) ++ prev)
                    (drop_while is_break rest)
                    [(1, take_while is_break rest)])
  else None.
Proof.
  unfold match_at, splitTextRegex, Plus.
  rmatch_step. rmatch_step.
  destruct rest as [| c rest]; [reflexivity |].
  rmatch_step. cbn [starts_in take_while drop_while].
  destruct (is_break c); [| reflexivity].
  rmatch_step. cbn [m_rest groups].
  rewrite star_class_greedy by (trivial; discriminate).
  cbn [m_prev m_rest m_caps]. rewrite consumed_run_cons.
  cbn [rev]. rewrite <- app_assoc. reflexivity.
Qed.

Lemma concat_filter_Boolean l :
  concat (filter_Boolean l)
  = concat (map (fun v => match v with Some s => s | None => [] end) l).
Proof.
  induction l as [| [[| c s] |] l IH]; cbn [filter_Boolean map concat];
    rewrite ?IH; reflexivity.
Qed.

Lemma length_drop_run f c (s : jsstring) :
  length (drop_while f s) < length (c :: s).
Proof. pose proof (length_drop_while f s). simpl. lia. Qed.

Lemma split_text_loop_concat fuel :
  forall prev cur rest at_p,
    concat (filter_Boolean
              (split_groups_loop splitTextRegex fuel prev cur rest at_p))
    = rev cur ++ rest.
Proof.
  induction fuel as [| fuel IH]; intros prev cur rest at_p;
    rewrite concat_filter_Boolean.
  - cbn. apply app_nil_r.
  - cbn [split_groups_loop]. destruct rest as [| c rest].
    + cbn. rewrite !app_nil_r. reflexivity.
    + rewrite split_text_match. cbn [starts_in].
      destruct (is_break c) eqn:B.
      * cbn [m_rest m_prev m_caps take_while drop_while]. rewrite B.
        replace (Nat.eqb (length (drop_while is_break rest)) (length (c :: rest)))
          with false
          by (symmetry; apply Nat.eqb_neq;
              pose proof (length_drop_run is_break c rest); lia).
        rewrite andb_false_r. cbn [splitTextRegex groups Plus length seq map app].
        cbn [cap_lookup Nat.eqb concat map].
        rewrite <- concat_filter_Boolean, IH. cbn [rev app].
        rewrite <- (take_drop_while is_break rest) at 3. reflexivity.
      * rewrite <- concat_filter_Boolean, IH. cbn [rev].
        rewrite <- app_assoc. reflexivity.
Qed.

(** X1. [splitText] loses nothing: its pieces, put
    together in order, are the text. *)
Theorem split_text_round_trip (text : jsstring) :
  concat (splitText text) = text.
Proof.
  unfold splitText, split_groups. destruct text as [| c text].
  - reflexivity.
  - apply split_text_loop_concat.
Qed.

Lemma runs_from_app b u l :
  u <> [] -> forallb (fun c => Bool.eqb (is_break c) b) u = true ->
  runs_from (negb b) l -> runs_from b (u :: l).
Proof. intros. constructor; assumption. Qed.

Lemma drop_run_starts f (s : jsstring) : starts_in f (drop_while f s) = false.
Proof.
  destruct (drop_while f s) as [| c t] eqn:E; [reflexivity |].
  exact (drop_while_head f s c t E).
Qed.

Lemma forallb_kind_rev b (u : jsstring) :
  forallb (fun c => Bool.eqb (is_break c) b) (rev u)
  = forallb (fun c => Bool.eqb (is_break c) b) u.
Proof.
  induction u as [| c u IH]; [reflexivity |].
  cbn [rev forallb]. rewrite forallb_app, IH. cbn [forallb].
  rewrite andb_true_r. apply andb_comm.
Qed.

Lemma take_while_kind (s : jsstring) :
  forallb (fun c => Bool.eqb (is_break c) true) (take_while is_break s) = true.
Proof.
  induction s as [| c s IH]; [reflexivity |]. cbn [take_while].
  destruct (is_break c) eqn:B; [| reflexivity].
  cbn [forallb]. rewrite B, IH. reflexivity.
Qed.

(** The pieces of the loop: the piece being read, which has no punctuation
    or white space, comes first when it is not empty. *)
Lemma split_text_loop_runs fuel :
  forall prev cur rest at_p,
    length rest <= fuel ->
    forallb (fun c => Bool.eqb (is_break c) false) cur = true ->
    runs_from (match cur with [] => starts_in is_break rest | _ :: _ => false end)
              (filter_Boolean
                 (split_groups_loop splitTextRegex fuel prev cur rest at_p)).
Proof.
  induction fuel as [| fuel IH]; intros prev cur rest at_p L C.
  - destruct rest; [| simpl in L; lia]. cbn [split_groups_loop].
    rewrite app_nil_r. destruct cur as [| d cur]; [constructor |].
    destruct (rev (d :: cur)) as [| e u] eqn:E.
    { apply (f_equal (@length _)) in E. rewrite length_rev in E. discriminate. }
    cbn [filter_Boolean]. constructor; [discriminate | | constructor].
    rewrite <- E, forallb_kind_rev. exact C.
  - cbn [split_groups_loop]. destruct rest as [| c rest].
    + destruct cur as [| d cur]; [constructor |].
      destruct (rev (d :: cur)) as [| e u] eqn:E.
      { apply (f_equal (@length _)) in E. rewrite length_rev in E. discriminate. }
      cbn [filter_Boolean]. constructor; [discriminate | | constructor].
      rewrite <- E, forallb_kind_rev. exact C.
    + rewrite split_text_match. cbn [starts_in]. simpl in L.
      destruct (is_break c) eqn:B.
      * cbn [m_rest m_prev m_caps take_while drop_while]. rewrite B.
        replace (Nat.eqb (length (drop_while is_break rest)) (length (c :: rest)))
          with false
          by (symmetry; apply Nat.eqb_neq;
              pose proof (length_drop_run is_break c rest); lia).
        rewrite andb_false_r. cbn [splitTextRegex groups Plus length seq map app].
        cbn [cap_lookup Nat.eqb].
        assert (T : runs_from true
                      (filter_Boolean
                         (Some (c :: take_while is_break rest)
                            :: split_groups_loop (Group 1 (Seq (Chr is_break) (Star true (Chr is_break)))) fuel
                                 (rev (c :: take_while is_break rest) ++ prev)
                                 [] (drop_while is_break rest) true))).
        { cbn [filter_Boolean]. constructor; [discriminate | |].
          - cbn [forallb]. rewrite B. exact (take_while_kind rest).
          - specialize (IH (rev (c :: take_while is_break rest) ++ prev) []
                           (drop_while is_break rest) true).
            cbn [negb]. rewrite drop_run_starts in IH. apply IH; [| reflexivity].
            pose proof (length_drop_while is_break rest). lia. }
        destruct cur as [| d cur]; [exact T |].
        destruct (rev (d :: cur)) as [| e u] eqn:E.
        { apply (f_equal (@length _)) in E. rewrite length_rev in E. discriminate. }
        cbn [filter_Boolean] in *. constructor; [discriminate | | exact T].
        rewrite <- E, forallb_kind_rev. exact C.
      * specialize (IH (c :: prev) (c :: cur) rest false).
        destruct cur as [| d cur]; apply IH; try lia;
          cbn [forallb]; rewrite B; [reflexivity | exact C].
Qed.

Lemma forallb_same {A} (f g : A -> bool) l :
  (forall c, f c = g c) -> forallb f l = forallb g l.
Proof.
  intros E. induction l as [| c l IH]; [reflexivity |].
  cbn [forallb]. rewrite E, IH. reflexivity.
Qed.

Lemma runs_from_pieces b l :
  runs_from b l ->
  Forall (fun piece => piece <> []
                       /\ (forallb is_break piece = true
                           \/ forallb (fun c => negb (is_break c)) piece = true)) l
  /\ forall i u v, nth_error l i = Some u -> nth_error l (S i) = Some v ->
                   starts_in is_break u = negb (starts_in is_break v).
Proof.
  induction 1 as [b | b piece l N K R [F A]].
  - split; [constructor |]. intros [| i] u v H; discriminate.
  - split.
    + constructor; [split; [exact N |] | exact F].
      destruct b; [left | right]; rewrite <- K; apply forallb_same;
        intros c; destruct (is_break c); reflexivity.
    + intros [| i] u v U V; [| exact (A i u v U V)].
      cbn [nth_error] in U, V. injection U as <-.
      inversion R as [| b' q l' N' K' _ Eb El]; subst; [discriminate |].
      injection V as <-.
      destruct piece as [| c piece]; [contradiction |].
      destruct q as [| d q]; [contradiction |].
      cbn [forallb] in K, K'. apply andb_prop in K, K'.
      destruct K as [K _], K' as [K' _]. cbn [starts_in].
      destruct (is_break c), (is_break d), b; cbn [Bool.eqb negb] in *;
        congruence.
Qed.

(** X2. The pieces of [splitText] are the maximal runs of
    the text: no piece is empty, a piece is made of punctuation and white
    space only or has none of it, and two neighbours are never of the same
    kind. *)
Theorem split_text_runs (text : jsstring) :
  Forall (fun piece => piece <> []
                       /\ (forallb is_break piece = true
                           \/ forallb (fun c => negb (is_break c)) piece = true))
         (splitText text)
  /\ forall i u v, nth_error (splitText text) i = Some u ->
                   nth_error (splitText text) (S i) = Some v ->
                   starts_in is_break u = negb (starts_in is_break v).
Proof.
  apply (runs_from_pieces (starts_in is_break text)).
  unfold splitText, split_groups. destruct text as [| c text]; [constructor |].
  apply (split_text_loop_runs _ [] [] (c :: text) true); [simpl; lia | reflexivity].
Qed.


(** ** The analysis is made of the text *)

Lemma subseq_refl s : subseq s s.
Proof. induction s; constructor; assumption. Qed.

Lemma subseq_trans a b c : subseq a b -> subseq b c -> subseq a c.
Proof.
  intros H K. revert a H.
  induction K as [| b x c K IH | x b c K IH]; intros a H.
  - exact H.
  - constructor. auto.
  - inversion H; subst; [apply subseq_skip | apply subseq_keep]; auto.
Qed.

Lemma subseq_app a a' b b' : subseq a a' -> subseq b b' -> subseq (a ++ b) (a' ++ b').
Proof.
  induction 1; intros K; cbn [app];
    [exact K | apply subseq_skip | apply subseq_keep]; auto.
Qed.

Lemma subseq_empty s : subseq [] s.
Proof. induction s; constructor; assumption. Qed.

Lemma subseq_In a b c : subseq a b -> In c a -> In c b.
Proof.
  induction 1 as [| a x b H IH | x a b H IH]; intros I.
  - exact I.
  - right. auto.
  - destruct I as [-> | I]; [left; reflexivity | right; auto].
Qed.

Lemma substring_subseq u s : substring u s -> subseq u s.
Proof.
  intros (a & b & ->).
  rewrite <- (app_nil_l u) at 1. apply subseq_app; [apply subseq_empty |].
  rewrite <- (app_nil_r u) at 1. apply subseq_app;
    [apply subseq_refl | apply subseq_empty].
Qed.

Lemma substring_trans u v s : substring u v -> substring v s -> substring u s.
Proof.
  intros (a & b & ->) (c & d & ->). exists (c ++ a), (b ++ d).
  rewrite <- !app_assoc. reflexivity.
Qed.

Lemma laid_out_subseq ms tl :
  subseq (concat (map mr_skipped ms) ++ tl) (laid_out ms tl).
Proof.
  unfold laid_out. induction ms as [| m ms IH]; cbn [map concat app].
  - apply subseq_refl.
  - rewrite <- !app_assoc. apply subseq_app; [apply subseq_refl |].
    rewrite <- (app_nil_l (concat _ ++ tl)).
    apply subseq_app; [apply subseq_empty | exact IH].
Qed.

Lemma laid_out_substring ms tl m :
  In m ms -> substring (mr_text m) (laid_out ms tl).
Proof.
  unfold laid_out. induction ms as [| m' ms IH]; intros I; [contradiction |].
  cbn [map concat]. destruct I as [-> | I].
  - exists (mr_skipped m),
           (concat (map (fun m => mr_skipped m ++ mr_text m) ms) ++ tl).
    rewrite <- !app_assoc. reflexivity.
  - destruct (IH I) as (a & b & E).
    exists ((mr_skipped m' ++ mr_text m') ++ a), b.
    rewrite <- app_assoc, E, <- !app_assoc. reflexivity.
Qed.

Lemma remove_all_subseq r s : subseq (remove_all r s) s.
Proof.
  unfold remove_all.
  destruct (exec_all r (S (length s)) [] s) as [ms tl] eqn:X.
  apply exec_all_spec in X. destruct X as [X _].
  rewrite X. apply laid_out_subseq.
Qed.

Lemma cut_subseq r s : subseq (replace_first r [] s) s.
Proof.
  unfold replace_first.
  destruct (search r [] s) as [[sk y] |] eqn:S; [| apply subseq_refl].
  apply search_sound in S. destruct S as (w & R & _).
  cbn [get_substitution app]. rewrite R.
  apply subseq_app; [apply subseq_refl |].
  rewrite <- (app_nil_l (m_rest y)) at 1.
  apply subseq_app; [apply subseq_empty | apply subseq_refl].
Qed.

Lemma trim_substring s : substring (trim s) s.
Proof. destruct (trim_within s) as (l & r & E). exists l, r. exact E. Qed.

Lemma split_char_from_substring sep s :
  forall cur piece,
    In piece (split_char_from sep cur s) -> substring piece (rev cur ++ s).
Proof.
  induction s as [| c s IH]; intros cur piece I; cbn [split_char_from] in I.
  - destruct I as [<- | []]. exists [], []. rewrite !app_nil_r. reflexivity.
  - destruct (N.eqb c sep).
    + destruct I as [<- | I].
      * exists [], (c :: s). reflexivity.
      * apply IH in I. destruct I as (a & b & E). cbn [rev app] in E.
        exists (rev cur ++ c :: a), b. rewrite E, <- app_assoc. reflexivity.
    + apply IH in I. cbn [rev] in I. rewrite <- app_assoc in I. exact I.
Qed.

Lemma split_char_substring sep s piece :
  In piece (split_char sep s) -> substring piece s.
Proof. intros I. exact (split_char_from_substring sep s [] piece I). Qed.

Lemma descriptionText_subseq text : subseq (descriptionText text) text.
Proof.
  unfold descriptionText.
  eapply subseq_trans; [apply substring_subseq, trim_substring |].
  eapply subseq_trans; [apply cut_subseq |].
  do 4 (eapply subseq_trans; [apply remove_all_subseq |]).
  eapply subseq_trans; [apply cut_subseq |].
  apply remove_all_subseq.
Qed.

Lemma description_in_text text line :
  In line (descriptions (analyze text)) ->
  substring line (descriptionText text).
Proof.
  cbn [analyze descriptions]. intros I.
  apply filter_In in I. destruct I as [I _].
  apply in_map_iff in I. destruct I as (piece & <- & I).
  apply split_char_substring in I.
  exact (substring_trans _ _ _ (trim_substring piece) I).
Qed.

(** X3. The analysis invents nothing: every
    image address occurs in the text in one piece, so do [--] followed by
    the name of a parameter and the value of a parameter, and every
    description line is what is left of the text when characters are
    deleted. *)
Theorem analysis_keeps_to_the_text (text : jsstring) :
  Forall (fun u => substring u text) (imageUrls (analyze text))
  /\ Forall (fun p => substring (js "--" ++ name p) text
                      /\ substring (value p) text)
            (parameters (analyze text))
  /\ Forall (fun line => subseq line text) (descriptions (analyze text)).
Proof.
  split; [| split]; apply Forall_forall.
  - intros u I. cbn [analyze imageUrls] in I.
    rewrite set_of_first_occurrences in I. apply In_first_occurrences in I.
    unfold match_g in I. apply in_map_iff in I. destruct I as (m & <- & I).
    destruct (match_all_laid_out imageUrlRegex text) as [tl E].
    rewrite E at 1. apply laid_out_substring. exact I.
  - intros p I. cbn [analyze parameters] in I.
    apply in_map_iff in I. destruct I as (m & <- & I).
    assert (S : substring (mr_text m) text).
    { destruct (match_all_laid_out paramRegex text) as [tl E].
      rewrite E at 1. apply laid_out_substring. exact I. }
    pose proof (match_all_produced paramRegex text) as F.
    rewrite Forall_forall in F. destruct (F m I) as (q & y & M & C).
    apply match_at_sound in M. destruct M as (w & R & _ & L).
    apply app_inv_tail in R. subst w.
    apply param_match_shape in L.
    destruct m as [sk w co]. cbn [mr_text mr_caps] in *. subst co.
    change (parameter_of (MatchResult sk w (m_caps y)))
      with (parameter_of (MatchResult [] w (m_caps y))).
    set (p := parameter_of (MatchResult [] w (m_caps y))) in *.
    destruct L as (_ & _ & _ & [[E V] | (sep & _ & _ & _ & _ & E)]).
    + rewrite V. split; [rewrite <- E; exact S |].
      destruct S as (a & b & ->). exists a, (w ++ b). reflexivity.
    + split; refine (substring_trans _ _ _ _ S); rewrite E.
      * exists [], (sep ++ value p). rewrite <- !app_assoc. reflexivity.
      * exists (js "--" ++ name p ++ sep), [].
        rewrite app_nil_r, <- !app_assoc. reflexivity.
  - intros line I.
    exact (subseq_trans _ _ _
             (substring_subseq _ _ (description_in_text _ _ I))
             (descriptionText_subseq text)).
Qed.


(** ** At signs *)

Lemma search_skips c r :
  (forall prev rest, match_at r prev (c :: rest) <> None) ->
  forall rest prev,
    match search r prev rest with
    | Some (sk, _) => ~ In c sk
    | None => ~ In c rest
    end.
Proof.
  intros A. induction rest as [| d rest IH]; intros prev; rewrite search_eq.
  - destruct (match_at r prev []); intros [].
  - destruct (match_at r prev (d :: rest)) eqn:M; [intros [] |].
    specialize (IH (d :: prev)).
    assert (D : d <> c) by (intros ->; exact (A _ _ M)).
    destruct (search r (d :: prev) rest) as [[sk y] |];
      intros [E | I]; auto.
Qed.

Lemma mention_at prev rest :
  match_at mentionRegex prev (ch "@" :: rest) <> None.
Proof.
  unfold match_at, mentionRegex, seqs, lit.
  rmatch_step. rmatch_step. change (is_char "@" (ch "@")) with true. cbv iota.
  rmatch_step. rmatch_step.
  pose proof (star_class_try not_paren
                (fun y => rmatch (Opt true (Seq (Chr (is_char "(")) (Seq (Star true (Chr not_close)) (Chr (is_char ")"))))) y Some)
                (length rest) rest (ch "@" :: prev) [] (Nat.le_refl _)) as T.
  cbn [m_rest groups]. rewrite T. clear T.
  generalize (ch "@" :: prev). induction rest as [| c rest IH]; intros p.
  - cbn [star_try]. rmatch_step. apply or_else_accepts. discriminate.
  - cbn [star_try]. destruct (not_paren c).
    + specialize (IH (c :: p)).
      destruct (star_try _ _ (c :: p) rest []); [discriminate | contradiction].
    + rmatch_step. apply or_else_accepts. discriminate.
Qed.

Lemma mention_takes prev rest y :
  match_at mentionRegex prev rest = Some y ->
  length (m_rest y) < length rest.
Proof.
  intros M. apply match_at_sound in M. destruct M as (w & -> & _ & L).
  unfold mentionRegex, seqs, lit in L.
  inversion L; subst; clear L.
  match goal with H : lang (Chr _) _ _ _ _ _ |- _ => inversion H; subst end.
  rewrite <- app_assoc. cbn [app length]. rewrite length_app. lia.
Qed.

Lemma exec_all_takes c r :
  (forall prev rest, match_at r prev (c :: rest) <> None) ->
  (forall prev rest y, match_at r prev rest = Some y ->
                       length (m_rest y) < length rest) ->
  forall fuel prev rest,
    length rest < fuel ->
    ~ In c (concat (map mr_skipped (fst (exec_all r fuel prev rest)))
              ++ snd (exec_all r fuel prev rest)).
Proof.
  intros A T. induction fuel as [| fuel IH]; intros prev rest L; [lia |].
  pose proof (search_skips c r A rest prev) as K.
  destruct (search r prev rest) as [[sk y] |] eqn:S.
  2:{ rewrite (exec_all_miss _ _ _ _ S). exact K. }
  destruct (search_sound _ _ _ _ _ S) as (w & R & _ & M).
  pose proof (T _ _ _ M) as Lt. rewrite length_app in Lt.
  destruct w as [| a w]; [simpl in Lt; lia |].
  rewrite (exec_all_hit r fuel prev rest sk a w y S R).
  cbn [fst snd map concat mr_skipped]. rewrite <- app_assoc.
  intros I. apply in_app_or in I. destruct I as [I | I]; [exact (K I) |].
  refine (IH (m_prev y) (m_rest y) _ I).
  subst rest. rewrite !length_app in L. lia.
Qed.

Lemma remove_all_takes c r s :
  (forall prev rest, match_at r prev (c :: rest) <> None) ->
  (forall prev rest y, match_at r prev rest = Some y ->
                       length (m_rest y) < length rest) ->
  ~ In c (remove_all r s).
Proof.
  intros A T. unfold remove_all.
  pose proof (exec_all_takes c r A T (S (length s)) [] s (Nat.lt_succ_diag_r _)) as K.
  destruct (exec_all r (S (length s)) [] s). exact K.
Qed.

(** X4. No at sign survives: neither the text handed
    to the translation nor any description line contains one. *)
Theorem mentions_are_removed (text : jsstring) :
  ~ In (ch "@") (descriptionText text)
  /\ Forall (fun line => ~ In (ch "@") line) (descriptions (analyze text)).
Proof.
  assert (D : ~ In (ch "@") (descriptionText text)).
  { unfold descriptionText. intros I.
    apply (subseq_In _ _ _ (substring_subseq _ _ (trim_substring _))) in I.
    apply (subseq_In _ _ _ (cut_subseq _ _)) in I.
    do 3 apply (subseq_In _ _ _ (remove_all_subseq _ _)) in I.
    exact (remove_all_takes _ _ _ mention_at mention_takes I). }
  split; [exact D |]. apply Forall_forall. intros line I A.
  apply D.
  exact (subseq_In _ _ _ (substring_subseq _ _ (description_in_text _ _ I)) A).
Qed.


(** ** The catalog and the parameters on offer *)

Lemma analysis_handleTranslate translate text st :
  analysis (handleTranslate translate text st) = analysis st.
Proof.
  unfold handleTranslate. destruct (negb (truthy text)); [reflexivity |].
  destruct (translate text); reflexivity.
Qed.

Lemma analysis_analyzePrompt translate text st :
  analysis (analyzePrompt translate text st) = Some (analyze text).
Proof. unfold analyzePrompt. rewrite analysis_handleTranslate. reflexivity. Qed.

Lemma In_assoc key i :
  In (key, i) PARAMETER_INFO -> assoc key PARAMETER_INFO = Some i.
Proof.
  unfold PARAMETER_INFO. cbn [In].
  intros H.
  repeat (destruct H as [H | H]; [injection H as <- <-; reflexivity |]).
  contradiction.
Qed.

Ltac within_bounds n :=
  intros _; exists n; split; [reflexivity |];
  split; intros ? [= <-]; vm_compute; discriminate.

Ltac listed_value := intros vs [= <-]; cbn; auto 10.

(** X5. The value resolved for a catalog key is
    one the catalog itself allows: it is among the listed values when the
    entry lists values, and for a number it is the decimal form of a number
    that lies within the bounds the entry gives. *)
Theorem catalog_defaults_are_allowed (key : jsstring) (i : ParameterInfo) :
  assoc key PARAMETER_INFO = Some i ->
  exists v,
    default_value (Own i) = Some v
    /\ (forall vs, values i = Some vs -> In v vs)
    /\ (type i = Some TNumber ->
        exists n, v = String_of n
                  /\ (forall lo, min i = Some lo -> (lo <= n)%N)
                  /\ (forall hi, max i = Some hi -> (n <= hi)%N)).
Proof.
  intros A. apply assoc_In in A. unfold PARAMETER_INFO in A. cbn [In] in A.
  repeat (destruct A as [A | A];
          [injection A as <- <-; eexists; split; [reflexivity |];
           split; [try discriminate; try listed_value | try discriminate] |]);
    try contradiction.
  - within_bounds 0%N.
  - intros _. exists 1%N. split; [reflexivity |]. split; discriminate.
  - within_bounds 10%N.
  - within_bounds 100%N.
  - within_bounds 0%N.
  - within_bounds 1%N.
  - within_bounds 100%N.
Qed.

Lemma catalog_defaults_witness :
  exists v,
    default_value (Own (info TNumber None None (Some 10%N) (Some 100%N)))
    = Some v
    /\ (forall vs, None = Some vs -> In v vs)
    /\ (Some TNumber = Some TNumber ->
        exists n, v = String_of n
                  /\ (forall lo, Some 10%N = Some lo -> (lo <= n)%N)
                  /\ (forall hi, Some 100%N = Some hi -> (n <= hi)%N)).
Proof. exact (catalog_defaults_are_allowed (js "stop") _ eq_refl). Defined.

Lemma prompt_handleAddParameter translate key st st' :
  handleAddParameter translate key st = Some st' ->
  addedPrompt (prompt st) key = Some (prompt st')
  /\ analysis st' = Some (analyze (prompt st')).
Proof.
  unfold handleAddParameter.
  destruct (addedPrompt (prompt st) key) as [p |]; [| discriminate].
  intros [= <-].
  rewrite prompt_analyzePrompt, prompt_setPrompt, analysis_analyzePrompt.
  auto.
Qed.

Lemma offered_iff a key i :
  In (key, i) (availableParameters a)
  <-> assoc key PARAMETER_INFO = Some i
      /\ ~ In key (map name (parameters a)).
Proof.
  unfold availableParameters. rewrite filter_In. cbn [fst].
  rewrite negb_true_iff. split.
  - intros [I N]. split; [exact (In_assoc _ _ I) |].
    intros K. apply in_map_iff in K. destruct K as (p & E & K).
    assert (T : existsb (fun p => jseqb (name p) key) (parameters a) = true).
    { apply existsb_exists. exists p. split; [exact K |].
      rewrite E. apply jseqb_refl. }
    congruence.
  - intros [A N]. split; [exact (assoc_In _ _ _ A) |].
    destruct (existsb _ (parameters a)) eqn:E; [| reflexivity].
    apply existsb_exists in E. destruct E as (p & K & E).
    apply jseqb_true in E. exfalso. apply N. apply in_map_iff.
    exists p. auto.
Qed.

(** X6. The parameters on offer are the
    catalog entries whose key is not the name of an extracted parameter, and
    adding one of them cannot fail: the handler ends with the prompt
    followed by the flag and its resolved value, trimmed, and with the
    analysis of that prompt. *)
Theorem offered_parameters_can_be_added
        (translate : jsstring -> outcome) (st : AppState) (a : PromptAnalysis)
        (key : jsstring) (i : ParameterInfo) :
  (In (key, i) (availableParameters a)
   <-> assoc key PARAMETER_INFO = Some i
       /\ ~ In key (map name (parameters a)))
  /\ (In (key, i) (availableParameters a) ->
      exists st',
        handleAddParameter translate key st = Some st'
        /\ prompt st' = trim (prompt st ++ js " --" ++ key ++ js " "
                                     ++ spec_default (Some i))
        /\ analysis st' = Some (analyze (prompt st'))).
Proof.
  split; [apply offered_iff |]. intros I.
  apply offered_iff in I. destruct I as [I _].
  assert (A : addedPrompt (prompt st) key
              = Some (trim (prompt st ++ js " --" ++ key ++ js " "
                                   ++ spec_default (Some i)))).
  { unfold addedPrompt. rewrite (get_property_own _ _ I).
    rewrite (catalog_default_is_spec_default _ _ (assoc_In _ _ _ I)).
    reflexivity. }
  unfold handleAddParameter. rewrite A. eexists. split; [reflexivity |].
  rewrite prompt_analyzePrompt, prompt_setPrompt, analysis_analyzePrompt.
  auto.
Qed.

Lemma offered_parameters_witness :
  exists st',
    handleAddParameter (fun _ => RejectedOther) (js "tile")
      (setPrompt (js "a cat --ar 1:1") initialState)
    = Some st'
    /\ prompt st' = js "a cat --ar 1:1 --tile 1".
Proof.
  destruct (offered_parameters_can_be_added
              (fun _ => RejectedOther)
              (setPrompt (js "a cat --ar 1:1") initialState)
              (analyze (js "a cat --ar 1:1")) (js "tile")
              (info TText None None None None))
    as (_ & K).
  destruct K as (st' & H & P & _).
  - vm_compute. auto 20.
  - exists st'. split; [exact H |]. rewrite P.
    rewrite prompt_setPrompt. vm_compute. reflexivity.
Defined.


(** ** Reading the flags of a text one after the other *)

Lemma view_or_else a b a' b' :
  option_map view a = option_map view a' ->
  option_map view b = option_map view b' ->
  option_map view (or_else a b) = option_map view (or_else a' b').
Proof. destruct a, a'; cbn; intros A B; congruence. Qed.

Lemma token_at_view p p' s caps :
  option_map view (token_at (MState p s caps))
  = option_map view (token_at (MState p' s caps)).
Proof.
  unfold token_at. cbn [m_rest m_prev m_caps].
  destruct (starts_in non_space s); reflexivity.
Qed.

Lemma star_try_view f caps :
  forall rest p p',
    option_map view (star_try f token_at p rest caps)
    = option_map view (star_try f token_at p' rest caps).
Proof.
  induction rest as [| c rest IH]; intros p p'; cbn [star_try].
  - apply token_at_view.
  - destruct (f c); [| apply token_at_view].
    apply view_or_else; [apply IH | apply token_at_view].
Qed.

(** The text before the position plays no part in reading a flag. *)
Lemma flag_at_view prev prev' rest :
  option_map view (flag_at prev rest) = option_map view (flag_at prev' rest).
Proof.
  unfold flag_at. destruct rest as [| d1 [| d2 rest1]]; try reflexivity.
  destruct (is_char "-" d1 && is_char "-" d2 && starts_in is_alnum rest1);
    [| reflexivity].
  apply view_or_else; [| reflexivity].
  destruct (drop_while is_alnum rest1) as [| s rest2]; [reflexivity |].
  destruct (colon_or_space s); [| reflexivity].
  apply star_try_view.
Qed.

Lemma read_flag_at prev rest :
  read_flag rest =
  match flag_at prev rest with
  | Some y => Some (parameter_of (MatchResult [] [] (m_caps y)), m_rest y)
  | None => None
  end.
Proof.
  unfold read_flag. pose proof (flag_at_view [] prev rest) as V.
  destruct (flag_at [] rest) as [y |], (flag_at prev rest) as [y' |];
    try discriminate; [| reflexivity].
  injection V as R C. rewrite R, C. reflexivity.
Qed.

Lemma read_flag_shorter rest q rest' :
  read_flag rest = Some (q, rest') -> length rest' < length rest.
Proof.
  unfold read_flag. destruct (flag_at [] rest) as [y |] eqn:F; [| discriminate].
  intros [= _ <-]. exact (flag_at_consumes _ _ _ F).
Qed.

Lemma read_flag_dashed rest :
  starts_with (js "--") rest = false -> read_flag rest = None.
Proof. intros D. unfold read_flag. rewrite flag_at_dashed by exact D. reflexivity. Qed.

Lemma search_view r :
  (forall prev prev' rest,
      option_map view (match_at r prev rest)
      = option_map view (match_at r prev' rest)) ->
  forall rest prev prev',
    option_map (fun e => (fst e, view (snd e))) (search r prev rest)
    = option_map (fun e => (fst e, view (snd e))) (search r prev' rest).
Proof.
  intros V. induction rest as [| c rest IH]; intros prev prev';
    rewrite (search_eq r prev), (search_eq r prev').
  - specialize (V prev prev' []).
    destruct (match_at r prev []) as [y |], (match_at r prev' []) as [y' |];
      try discriminate; [| reflexivity].
    assert (E : view y = view y') by (cbn [option_map] in V; congruence).
    cbn [option_map fst snd]. rewrite E. reflexivity.
  - specialize (V prev prev' (c :: rest)).
    destruct (match_at r prev (c :: rest)) as [y |],
             (match_at r prev' (c :: rest)) as [y' |];
      try discriminate.
    + assert (E : view y = view y') by (cbn [option_map] in V; congruence).
      cbn [option_map fst snd]. rewrite E. reflexivity.
    + specialize (IH (c :: prev) (c :: prev')).
      destruct (search r (c :: prev) rest) as [[sk y] |],
               (search r (c :: prev') rest) as [[sk' y'] |];
        try discriminate; [| reflexivity].
      cbn [option_map fst snd] in *.
      assert (E : sk = sk' /\ view y = view y')
        by (split; congruence).
      destruct E as [-> E]. rewrite E. reflexivity.
Qed.

(** The matches of a pattern that does not look behind do not depend on
    the text before the position the scan starts from. *)
Lemma exec_all_view r :
  (forall prev prev' rest,
      option_map view (match_at r prev rest)
      = option_map view (match_at r prev' rest)) ->
  forall fuel prev prev' rest,
    exec_all r fuel prev rest = exec_all r fuel prev' rest.
Proof.
  intros V. induction fuel as [| fuel IH]; intros prev prev' rest;
    [reflexivity |].
  rewrite !exec_all_S. pose proof (search_view r V rest prev prev') as S.
  destruct (search r prev rest) as [[sk y] |],
           (search r prev' rest) as [[sk' y'] |];
    try discriminate; [| reflexivity].
  cbn [option_map fst snd] in S.
  assert (E0 : sk = sk' /\ m_rest y = m_rest y' /\ m_caps y = m_caps y')
    by (unfold view in S; repeat split; congruence).
  destruct E0 as (-> & R & C). cbv zeta.
  assert (E : result_of rest sk' y = result_of rest sk' y')
    by (unfold result_of; rewrite R, C; reflexivity).
  rewrite E, R.
  destruct (mr_text (result_of rest sk' y')); destruct (m_rest y') as [| d t].
  - reflexivity.
  - rewrite (IH (d :: m_prev y) (d :: m_prev y')). reflexivity.
  - rewrite (IH (m_prev y) (m_prev y')). reflexivity.
  - rewrite (IH (m_prev y) (m_prev y')). reflexivity.
Qed.

Lemma param_view prev prev' rest :
  option_map view (match_at paramRegex prev rest)
  = option_map view (match_at paramRegex prev' rest).
Proof. rewrite !param_match_is_flag_at. apply flag_at_view. Qed.

Lemma result_of_skip c rest sk y :
  result_of (c :: rest) (c :: sk) y = push_skipped c (result_of rest sk y).
Proof. reflexivity. Qed.

(** A position where the pattern does not match is passed over. *)
Lemma exec_all_skip r f prev c rest :
  match_at r prev (c :: rest) = None ->
  exec_all r (S f) prev (c :: rest) =
  match exec_all r (S f) (c :: prev) rest with
  | ([], tl) => ([], c :: tl)
  | (m :: ms, tl) => (push_skipped c m :: ms, tl)
  end.
Proof.
  intros M. rewrite !exec_all_S, search_eq, M.
  destruct (search r (c :: prev) rest) as [[sk y] |]; [| reflexivity].
  cbv zeta. rewrite result_of_skip.
  cbn [push_skipped mr_text].
  destruct (mr_text (result_of rest sk y)); destruct (m_rest y) as [| d t];
    try reflexivity.
  - destruct (exec_all r f (d :: m_prev y) t) as [[| m ms] tl]; reflexivity.
  - destruct (exec_all r f (m_prev y) []) as [ms tl]. reflexivity.
  - destruct (exec_all r f (m_prev y) (d :: t)) as [ms tl]. reflexivity.
Qed.

Lemma params_in_eq text :
  params_in text = map parameter_of (match_all paramRegex text).
Proof. reflexivity. Qed.

Lemma params_from fuel prev rest :
  length rest < fuel ->
  map parameter_of (fst (exec_all paramRegex fuel prev rest)) = params_in rest.
Proof.
  intros L. rewrite params_in_eq. unfold match_all.
  rewrite (exec_all_view paramRegex param_view fuel prev []).
  rewrite (exec_all_fuel paramRegex fuel (S (length rest))) by lia.
  reflexivity.
Qed.

Lemma params_in_nil : params_in [] = [].
Proof. reflexivity. Qed.

(** The parameters of a text, flag by flag. *)
Lemma params_in_cons c rest :
  params_in (c :: rest) =
  match read_flag (c :: rest) with
  | Some (q, rest2) => q :: params_in rest2
  | None => params_in rest
  end.
Proof.
  rewrite (params_in_eq (c :: rest)). unfold match_all.
  unfold read_flag. rewrite <- param_match_is_flag_at.
  destruct (match_at paramRegex [] (c :: rest)) as [y |] eqn:M.
  - destruct (match_at_sound _ _ _ _ M) as (w & R & _ & _).
    pose proof M as F. rewrite param_match_is_flag_at in F.
    apply flag_at_consumes in F.
    destruct w as [| a w]; [cbn [app] in R; rewrite <- R in F; lia |].
    rewrite (exec_all_hit paramRegex _ [] (c :: rest) [] a w y);
      [| rewrite search_eq, M; reflexivity | exact R].
    cbn [fst map]. f_equal. apply params_from. exact F.
  - rewrite (exec_all_skip _ _ _ _ _ M).
    rewrite <- (params_from (S (length (c :: rest))) [c] rest)
      by (simpl; lia).
    destruct (exec_all paramRegex _ [c] rest) as [[| m ms] tl]; reflexivity.
Qed.

Lemma token_at_of p x caps :
  option_map view (token_at (MState p x caps))
  = option_map (fun r => (snd r, (2, fst r) :: caps)) (token_of x).
Proof.
  unfold token_at, token_of. cbn [m_rest m_prev m_caps].
  destruct (starts_in non_space x); reflexivity.
Qed.

Lemma star_try_value_scan caps :
  forall x p,
    option_map view (star_try colon_or_space token_at p x caps)
    = option_map (fun r => (snd r, (2, fst r) :: caps)) (value_scan x).
Proof.
  induction x as [| c x IH]; intros p; cbn [star_try value_scan].
  - reflexivity.
  - destruct (colon_or_space c); [| apply token_at_of].
    specialize (IH (c :: p)).
    destruct (star_try colon_or_space token_at (c :: p) x caps) as [y |],
             (value_scan x) as [r |]; try discriminate.
    + exact IH.
    + cbn [or_else]. apply token_at_of.
Qed.

(** A flag read directly: the dashes, the longest name, the value. *)
Lemma read_flag_eq rest :
  read_flag rest =
  match rest with
  | d1 :: d2 :: rest1 =>
    if is_char "-" d1 && is_char "-" d2 && starts_in is_alnum rest1
    then Some ({| name := take_while is_alnum rest1;
                  value := fst (value_part (drop_while is_alnum rest1));
                  enabled := true |},
               snd (value_part (drop_while is_alnum rest1)))
    else None
  | _ => None
  end.
Proof.
  unfold read_flag, flag_at.
  destruct rest as [| d1 [| d2 rest1]]; try reflexivity.
  destruct (is_char "-" d1 && is_char "-" d2 && starts_in is_alnum rest1);
    [| reflexivity].
  unfold value_part.
  destruct (drop_while is_alnum rest1) as [| s x]; [reflexivity |].
  destruct (colon_or_space s); [| reflexivity].
  pose proof (star_try_value_scan [(1, take_while is_alnum rest1)] x
                (s :: rev (take_while is_alnum rest1) ++ [d2; d1])) as V.
  destruct (star_try colon_or_space token_at _ x _) as [y |],
           (value_scan x) as [[tok rem] |]; try discriminate; [| reflexivity].
  cbn [option_map or_else fst snd] in *. unfold view in V.
  injection V as R C. rewrite R, C. unfold parameter_of.
  cbn [mr_caps cap_lookup Nat.eqb]. rewrite str_or_empty. reflexivity.
Qed.

Lemma take_while_before f (x b : jsstring) :
  starts_in f b = false -> take_while f (x ++ b) = take_while f x.
Proof.
  intros B. induction x as [| c x IH]; cbn [app take_while].
  - destruct b as [| d b]; [reflexivity |]. cbn in *. rewrite B. reflexivity.
  - destruct (f c); [rewrite IH |]; reflexivity.
Qed.

Lemma drop_while_before f (x b : jsstring) :
  starts_in f b = false -> drop_while f (x ++ b) = drop_while f x ++ b.
Proof.
  intros B. induction x as [| c x IH]; cbn [app drop_while].
  - destruct b as [| d b]; [reflexivity |]. cbn in *. rewrite B. reflexivity.
  - destruct (f c); [exact IH | reflexivity].
Qed.

Lemma starts_in_app f (x b : jsstring) :
  x <> [] -> starts_in f (x ++ b) = starts_in f x.
Proof. destruct x; [contradiction | reflexivity]. Qed.

Lemma blank_starts (ws : jsstring) :
  forallb is_space ws = true -> starts_in non_space ws = false.
Proof.
  destruct ws as [| c ws]; [reflexivity |]. cbn [forallb starts_in].
  intros H. apply andb_prop in H. destruct H as [H _].
  unfold non_space. rewrite H. reflexivity.
Qed.

Lemma space_is_separator c : is_space c = true -> colon_or_space c = true.
Proof. intros H. unfold colon_or_space. rewrite H. apply orb_true_r. Qed.

Lemma token_of_blank_tail x ws :
  x <> [] -> forallb is_space ws = true ->
  token_of (x ++ ws)
  = option_map (fun r => (fst r, snd r ++ ws)) (token_of x).
Proof.
  intros N B. unfold token_of. rewrite (starts_in_app _ _ _ N).
  destruct (starts_in non_space x); [| reflexivity].
  rewrite take_while_before, drop_while_before by (apply blank_starts; exact B).
  reflexivity.
Qed.

Lemma value_scan_blank ws :
  forallb is_space ws = true -> value_scan ws = None.
Proof.
  induction ws as [| c ws IH]; [reflexivity |]. cbn [forallb value_scan].
  intros H. apply andb_prop in H. destruct H as [C H].
  rewrite (space_is_separator _ C), (IH H).
  unfold token_of, non_space. cbn [starts_in]. rewrite C. reflexivity.
Qed.

Lemma value_scan_blank_tail ws :
  forallb is_space ws = true ->
  forall x,
    value_scan (x ++ ws)
    = option_map (fun r => (fst r, snd r ++ ws)) (value_scan x).
Proof.
  intros B. induction x as [| c x IH]; cbn [app value_scan].
  - apply value_scan_blank. exact B.
  - pose proof (token_of_blank_tail (c :: x) ws) as T. cbn [app] in T.
    rewrite T by (discriminate || exact B). rewrite IH.
    destruct (colon_or_space c); [| reflexivity].
    destruct (value_scan x); reflexivity.
Qed.

Lemma value_part_blank_tail after ws :
  forallb is_space ws = true ->
  value_part (after ++ ws)
  = (fst (value_part after), snd (value_part after) ++ ws).
Proof.
  intros B. destruct after as [| s x].
  - cbn [app]. destruct ws as [| c ws]; [reflexivity |].
    cbn [value_part]. cbn [forallb] in B. apply andb_prop in B.
    destruct B as [C B]. rewrite (space_is_separator _ C).
    rewrite (value_scan_blank _ B). reflexivity.
  - cbn [app value_part]. destruct (colon_or_space s); [| reflexivity].
    rewrite (value_scan_blank_tail ws B).
    destruct (value_scan x) as [[tok rem] |]; reflexivity.
Qed.

Lemma blank_not_alnum (ws : jsstring) :
  forallb is_space ws = true -> starts_in is_alnum ws = false.
Proof.
  destruct ws as [| c ws]; [reflexivity |]. cbn [forallb starts_in].
  intros H. apply andb_prop in H. destruct H as [H _].
  exact (is_alnum_of_space c H).
Qed.

Lemma blank_not_dash c : is_space c = true -> is_char "-" c = false.
Proof.
  intros H. destruct (is_char "-" c) eqn:D; [| reflexivity].
  apply is_char_eq in D. subst c. vm_compute in H. discriminate.
Qed.

(** White space after a text changes no flag of it. *)
Lemma read_flag_blank_tail rest ws :
  forallb is_space ws = true ->
  read_flag (rest ++ ws)
  = option_map (fun r => (fst r, snd r ++ ws)) (read_flag rest).
Proof.
  intros B. rewrite !read_flag_eq.
  destruct rest as [| d1 [| d2 rest1]].
  - cbn [app option_map]. destruct ws as [| c [| c' ws]]; try reflexivity.
    cbn [forallb] in B. apply andb_prop in B. destruct B as [C _].
    rewrite (blank_not_dash _ C). reflexivity.
  - cbn [app option_map]. destruct ws as [| c ws]; [reflexivity |].
    cbn [forallb] in B. apply andb_prop in B. destruct B as [C _].
    rewrite (blank_not_dash _ C), andb_false_r. reflexivity.
  - cbn [app].
    destruct rest1 as [| a rest1].
    + cbn [app starts_in]. rewrite (blank_not_alnum _ B), andb_false_r.
      reflexivity.
    + cbn [app starts_in].
      destruct (is_char "-" d1 && is_char "-" d2 && is_alnum a);
        [| reflexivity].
      change (a :: rest1 ++ ws) with ((a :: rest1) ++ ws).
      rewrite take_while_before, drop_while_before
        by (apply blank_not_alnum; exact B).
      rewrite (value_part_blank_tail _ _ B). reflexivity.
Qed.

Lemma params_in_blank (ws : jsstring) :
  forallb is_space ws = true -> params_in ws = [].
Proof.
  induction ws as [| c ws IH]; [reflexivity |]. cbn [forallb].
  intros H. apply andb_prop in H. destruct H as [C H].
  rewrite params_in_cons, read_flag_eq.
  destruct ws as [| c' ws]; [reflexivity |].
  rewrite (blank_not_dash _ C). cbn [andb]. exact (IH H).
Qed.

Lemma params_in_blank_head (ws text : jsstring) :
  forallb is_space ws = true -> params_in (ws ++ text) = params_in text.
Proof.
  induction ws as [| c ws IH]; [reflexivity |]. cbn [forallb app].
  intros H. apply andb_prop in H. destruct H as [C H].
  rewrite params_in_cons, read_flag_eq.
  destruct (ws ++ text) as [| c' t] eqn:E.
  - destruct ws; [| discriminate]. cbn [app] in E. subst text. reflexivity.
  - rewrite (blank_not_dash _ C). cbn [andb]. exact (IH H).
Qed.

Lemma params_in_blank_tail (ws : jsstring) :
  forallb is_space ws = true ->
  forall n text, length text <= n -> params_in (text ++ ws) = params_in text.
Proof.
  intros B. induction n as [| n IH]; intros text L.
  - destruct text; [| simpl in L; lia]. cbn [app].
    rewrite params_in_blank by exact B. reflexivity.
  - destruct text as [| c text].
    + cbn [app]. rewrite params_in_blank by exact B. reflexivity.
    + cbn [app]. rewrite !params_in_cons.
      change (c :: text ++ ws) with ((c :: text) ++ ws).
      rewrite (read_flag_blank_tail _ _ B).
      destruct (read_flag (c :: text)) as [[q rem] |] eqn:R;
        cbn [option_map fst snd].
      * apply read_flag_shorter in R. simpl in *. rewrite IH by lia.
        reflexivity.
      * apply IH. simpl in L. lia.
Qed.

Lemma trim_parts s :
  exists l r, s = l ++ trim s ++ r
              /\ forallb is_space l = true /\ forallb is_space r = true.
Proof.
  exists (take_while is_space s),
         (rev (take_while is_space (rev (drop_while is_space s)))).
  split; [| split].
  - unfold trim. rewrite <- rev_app_distr, take_drop_while, rev_involutive.
    symmetry. apply take_drop_while.
  - apply take_while_all.
  - rewrite forallb_rev. apply take_while_all.
Qed.

Lemma params_in_trim text : params_in (trim text) = params_in text.
Proof.
  destruct (trim_parts text) as (l & r & E & L & R).
  rewrite E at 2.
  rewrite (params_in_blank_head l _ L).
  rewrite (params_in_blank_tail r R (length (trim text)) (trim text) (Nat.le_refl _)).
  reflexivity.
Qed.

(** X7. White space before and after the
    text plays no part in the parameters: the trimmed text has the
    parameters of the text. *)
Theorem parameters_ignore_outer_space (text : jsstring) :
  parameters (analyze (trim text)) = parameters (analyze text).
Proof. exact (params_in_trim text). Qed.


(** ** Adding a flag to any prompt *)

Lemma token_of_splits x tok rem :
  token_of x = Some (tok, rem) ->
  x = tok ++ rem /\ forallb non_space tok = true
  /\ starts_in non_space rem = false.
Proof.
  unfold token_of. destruct (starts_in non_space x); [| discriminate].
  intros [= <- <-]. split; [symmetry; apply take_drop_while |].
  split; [apply take_while_all | apply drop_run_starts].
Qed.

Lemma value_scan_splits :
  forall x tok rem,
    value_scan x = Some (tok, rem) ->
    exists seps, x = seps ++ tok ++ rem
                 /\ forallb colon_or_space seps = true
                 /\ forallb non_space tok = true
                 /\ starts_in non_space rem = false.
Proof.
  induction x as [| c x IH]; intros tok rem H; cbn [value_scan] in H;
    [discriminate |].
  destruct (colon_or_space c) eqn:C.
  - destruct (value_scan x) as [[tok' rem'] |] eqn:V.
    + injection H as <- <-. destruct (IH _ _ eq_refl) as (seps & -> & S & T).
      exists (c :: seps). cbn [forallb]. rewrite C, S. auto.
    + apply token_of_splits in H. exists []. tauto.
  - apply token_of_splits in H. exists []. tauto.
Qed.

(** Separators followed by another character: the value token starts
    there. *)
Lemma value_scan_guarded :
  forall x t u,
    drop_while colon_or_space x = t :: u ->
    value_scan x
    = Some (take_while non_space (t :: u), drop_while non_space (t :: u)).
Proof.
  assert (T : forall t u, colon_or_space t = false ->
                token_of (t :: u)
                = Some (take_while non_space (t :: u),
                        drop_while non_space (t :: u))).
  { intros t u C. unfold token_of. cbn [starts_in].
    unfold colon_or_space in C. apply orb_false_elim in C.
    destruct C as [_ C]. unfold non_space at 1. rewrite C. reflexivity. }
  induction x as [| c x IH]; intros t u D; cbn [drop_while] in D;
    [discriminate |].
  cbn [value_scan]. destruct (colon_or_space c) eqn:C.
  - rewrite (IH _ _ D). reflexivity.
  - injection D as <- <-. exact (T _ _ C).
Qed.

Lemma drop_while_all f (x : jsstring) :
  forallb f x = true -> drop_while f x = [].
Proof.
  induction x as [| c x IH]; [reflexivity |]. cbn [forallb drop_while].
  intros H. apply andb_prop in H. destruct H as [-> H]. auto.
Qed.

Lemma drop_while_nil f (x : jsstring) :
  drop_while f x = [] -> forallb f x = true.
Proof.
  induction x as [| c x IH]; [reflexivity |]. cbn [forallb drop_while].
  destruct (f c); [exact IH | discriminate].
Qed.

(** The value of a flag whose separators reach a text that starts with
    another character. *)
Lemma value_part_open x t u :
  forallb colon_or_space x = true ->
  colon_or_space t = false ->
  value_part (x ++ t :: u)
  = match x with
    | [] => ([], t :: u)
    | _ :: _ => (take_while non_space (t :: u), drop_while non_space (t :: u))
    end.
Proof.
  intros X T. destruct x as [| s x]; cbn [app value_part].
  - rewrite T. reflexivity.
  - cbn [forallb] in X. apply andb_prop in X. destruct X as [-> X].
    rewrite (value_scan_guarded (x ++ t :: u) t u); [reflexivity |].
    rewrite drop_while_app, (drop_while_all _ _ X).
    cbn [drop_while]. rewrite T. reflexivity.
Qed.

(** A value that is found before the end of the text stays what it is when
    the text goes on with white space. *)
Lemma value_part_guarded after b :
  forallb colon_or_space after = false ->
  starts_in non_space b = false ->
  value_part (after ++ b)
  = (fst (value_part after), snd (value_part after) ++ b).
Proof.
  intros A B. destruct after as [| s x]; [discriminate |].
  cbn [app value_part]. destruct (colon_or_space s) eqn:S; [| reflexivity].
  cbn [forallb] in A. rewrite S in A. cbn [andb] in A.
  destruct (drop_while colon_or_space x) as [| t u] eqn:D.
  { apply drop_while_nil in D. congruence. }
  rewrite (value_scan_guarded x t u D).
  rewrite (value_scan_guarded (x ++ b) t (u ++ b))
    by (rewrite drop_while_app, D; reflexivity).
  cbn [fst snd].
  change (t :: u ++ b) with ((t :: u) ++ b).
  rewrite take_while_before, drop_while_before by exact B. reflexivity.
Qed.

Lemma value_part_splits after :
  exists w, after = w ++ snd (value_part after).
Proof.
  destruct after as [| s x]; [exists []; reflexivity |].
  cbn [value_part]. destruct (colon_or_space s); [| exists []; reflexivity].
  destruct (value_scan x) as [[tok rem] |] eqn:V; [| exists []; reflexivity].
  apply value_scan_splits in V. destruct V as (seps & -> & _).
  exists (s :: seps ++ tok). cbn [snd app]. rewrite <- app_assoc. reflexivity.
Qed.

Lemma value_part_colons after :
  forallb colon_or_space after = true ->
  forallb colon_or_space (snd (value_part after)) = true
  /\ forallb (is_char ":") (fst (value_part after)) = true.
Proof.
  intros A. destruct after as [| s x]; [auto |].
  cbn [value_part]. destruct (colon_or_space s); [| auto].
  destruct (value_scan x) as [[tok rem] |] eqn:V; [| auto].
  apply value_scan_splits in V. destruct V as (seps & -> & _ & T & _).
  cbn [forallb] in A. apply andb_prop in A. destruct A as [_ A].
  rewrite !forallb_app in A. apply andb_prop in A. destruct A as [_ A].
  apply andb_prop in A. destruct A as [K R]. cbn [fst snd].
  split; [exact R |]. rewrite forallb_forall in *. intros c I.
  specialize (K c I). specialize (T c I). unfold colon_or_space in K.
  unfold non_space in T. apply negb_true_iff in T. rewrite T in K.
  rewrite orb_false_r in K. exact K.
Qed.

Lemma separators_no_dash c : colon_or_space c = true -> is_char "-" c = false.
Proof.
  intros H. destruct (is_char "-" c) eqn:D; [| reflexivity].
  apply is_char_eq in D. subst c. vm_compute in H. discriminate.
Qed.

Lemma params_in_separators (x : jsstring) :
  forallb colon_or_space x = true -> params_in x = [].
Proof.
  induction x as [| c x IH]; [reflexivity |]. cbn [forallb].
  intros H. apply andb_prop in H. destruct H as [C H].
  rewrite params_in_cons, read_flag_eq.
  destruct x as [| c' x]; [reflexivity |].
  rewrite (separators_no_dash _ C). cbn [andb]. exact (IH H).
Qed.

(** What a flag appended after white space does to the flag the text starts
    with: nothing when that flag is followed by more than separators, and
    else it becomes its value. *)
Lemma read_flag_append p s t u :
  is_space s = true -> colon_or_space t = false ->
  read_flag (p ++ s :: t :: u) =
  match read_flag p with
  | None => None
  | Some (q, rem) =>
    if forallb colon_or_space (drop_while is_alnum (skipn 2 p))
    then Some ({| name := name q; value := take_while non_space (t :: u);
                  enabled := true |},
               drop_while non_space (t :: u))
    else Some (q, rem ++ s :: t :: u)
  end.
Proof.
  intros S T. rewrite !read_flag_eq.
  destruct p as [| d1 [| d2 rest1]].
  - cbn [app]. rewrite (blank_not_dash _ S). reflexivity.
  - cbn [app]. rewrite (blank_not_dash _ S), andb_false_r. reflexivity.
  - cbn [app skipn].
    assert (B : starts_in is_alnum (s :: t :: u) = false)
      by exact (is_alnum_of_space s S).
    destruct rest1 as [| a rest1].
    + cbn [app starts_in] in *. rewrite B, !andb_false_r. reflexivity.
    + change ((a :: rest1) ++ s :: t :: u) with (a :: rest1 ++ s :: t :: u).
      cbn [starts_in].
      destruct (is_char "-" d1 && is_char "-" d2 && is_alnum a);
        [| reflexivity].
      change (a :: rest1 ++ s :: t :: u) with ((a :: rest1) ++ s :: t :: u).
      rewrite take_while_before, drop_while_before by exact B.
      cbn [name].
      destruct (forallb colon_or_space (drop_while is_alnum (a :: rest1)))
        eqn:A.
      * change (s :: t :: u) with ([s] ++ t :: u). rewrite app_assoc.
        rewrite value_part_open; [| | exact T].
        -- destruct (drop_while is_alnum (a :: rest1) ++ [s]) eqn:E;
             [| reflexivity].
           apply app_eq_nil in E. destruct E as [_ E]. discriminate.
        -- rewrite forallb_app, A. cbn [forallb].
           rewrite (space_is_separator _ S). reflexivity.
      * rewrite value_part_guarded; [reflexivity | exact A |].
        cbn [starts_in]. apply non_space_of_space. exact S.
Qed.

Lemma removelast_unit {A} (ps : list A) (q : A) : removelast (ps ++ [q]) = ps.
Proof. apply removelast_last. Qed.

(** A text followed by white space and more text that starts with neither a
    colon nor white space: the parameters of the two, one after the other,
    unless the last flag of the text is followed by separators only, and
    then takes the first token of the added text as its value. *)
Lemma params_in_append s t u :
  is_space s = true -> colon_or_space t = false ->
  forall n p,
    length p <= n ->
    params_in (p ++ s :: t :: u) = params_in p ++ params_in (t :: u)
    \/ exists ps q,
         params_in p = ps ++ [q]
         /\ forallb (is_char ":") (value q) = true
         /\ params_in (p ++ s :: t :: u)
            = ps ++ {| name := name q; value := take_while non_space (t :: u);
                       enabled := true |}
                 :: params_in (drop_while non_space (t :: u)).
Proof.
  intros S T. induction n as [| n IH]; intros p L.
  - destruct p; [| simpl in L; lia]. left. cbn [app].
    exact (params_in_blank_head [s] (t :: u) (eq_trans (andb_true_r _) S)).
  - destruct p as [| c p].
    { left. cbn [app].
      exact (params_in_blank_head [s] (t :: u) (eq_trans (andb_true_r _) S)). }
    change ((c :: p) ++ s :: t :: u) with (c :: p ++ s :: t :: u).
    rewrite (params_in_cons c (p ++ s :: t :: u)), (params_in_cons c p).
    change (c :: p ++ s :: t :: u) with ((c :: p) ++ s :: t :: u).
    rewrite (read_flag_append (c :: p) s t u S T).
    destruct (read_flag (c :: p)) as [[q rem] |] eqn:R.
    + destruct (forallb colon_or_space (drop_while is_alnum (skipn 2 (c :: p))))
        eqn:A.
      * right. exists [], q.
        rewrite read_flag_eq in R.
        destruct p as [| d2 rest1]; [discriminate |].
        destruct (is_char "-" c && is_char "-" d2 && starts_in is_alnum rest1);
          [| discriminate].
        injection R as <- <-. cbn [skipn] in A.
        destruct (value_part_colons _ A) as [K V].
        rewrite (params_in_separators _ K). cbn [value name app]. auto.
      * apply read_flag_shorter in R. simpl in L, R.
        destruct (IH rem ltac:(lia)) as [E | (ps & q' & E & V & E')].
        -- left. rewrite E. reflexivity.
        -- right. exists (q :: ps), q'. rewrite E, E'. auto.
    + simpl in L. destruct (IH p ltac:(lia)) as [E | (ps & q' & E & V & E')].
      * left. exact E.
      * right. exists ps, q'. auto.
Qed.

Lemma addedPrompt_catalog p key i :
  assoc key PARAMETER_INFO = Some i ->
  addedPrompt p key
  = Some (trim (p ++ ch " " :: js "--" ++ key ++ js " "
                  ++ spec_default (Some i))).
Proof.
  intros A. unfold addedPrompt. rewrite (get_property_own _ _ A).
  rewrite (catalog_default_is_spec_default _ _ (assoc_In _ _ _ A)).
  reflexivity.
Qed.

(** The flag written for a catalog key, read back. *)
Lemma catalog_flag key i :
  assoc key PARAMETER_INFO = Some i ->
  exists u,
    js "--" ++ key ++ js " " ++ spec_default (Some i) = ch "-" :: u
    /\ params_in (ch "-" :: u)
       = [ {| name := key; value := spec_default (Some i); enabled := true |} ]
    /\ take_while non_space (ch "-" :: u) = js "--" ++ key
    /\ params_in (drop_while non_space (ch "-" :: u)) = [].
Proof.
  intros A. apply assoc_In in A. unfold PARAMETER_INFO in A. cbn [In] in A.
  repeat (destruct A as [A | A];
          [injection A as <- <-; eexists; split;
           [vm_compute; reflexivity | vm_compute; repeat split] |]).
  contradiction.
Qed.

(** X8. Adding a catalog key to any prompt has
    one of two effects on the parameters: the key with its resolved value
    comes after the parameters of the prompt; or, the last flag of the
    prompt being followed by nothing but colons and white space, the added
    [--key] becomes the value of that flag, whose value was empty or made of
    colons, and no parameter is added. *)
Theorem add_appends_or_is_swallowed (p key : jsstring) (i : ParameterInfo) :
  assoc key PARAMETER_INFO = Some i ->
  exists p1,
    addedPrompt p key = Some p1
    /\ (parameters (analyze p1)
        = parameters (analyze p)
            ++ [ {| name := key; value := spec_default (Some i);
                    enabled := true |} ]
        \/ exists ps q,
             parameters (analyze p) = ps ++ [q]
             /\ forallb (is_char ":") (value q) = true
             /\ parameters (analyze p1)
                = ps ++ [ {| name := name q; value := js "--" ++ key;
                             enabled := true |} ]).
Proof.
  intros A. eexists. split; [exact (addedPrompt_catalog p key i A) |].
  change (parameters (analyze ?x)) with (params_in x).
  rewrite params_in_trim.
  destruct (catalog_flag key i A) as (u & E & P & T & D). rewrite E.
  destruct (params_in_append (ch " ") (ch "-") u eq_refl eq_refl
              (length p) p (Nat.le_refl _))
    as [H | (ps & q & H & V & H')].
  - left. rewrite H, P. reflexivity.
  - right. exists ps, q. rewrite H', T, D. auto.
Qed.

Lemma add_appends_witness :
  exists p1,
    addedPrompt (js "a cat --ar 16:9") (js "chaos") = Some p1
    /\ (parameters (analyze p1)
        = parameters (analyze (js "a cat --ar 16:9"))
            ++ [ {| name := js "chaos"; value := js "0"; enabled := true |} ]
        \/ exists ps q,
             parameters (analyze (js "a cat --ar 16:9")) = ps ++ [q]
             /\ forallb (is_char ":") (value q) = true
             /\ parameters (analyze p1)
                = ps ++ [ {| name := name q; value := js "--" ++ js "chaos";
                             enabled := true |} ]).
Proof.
  exact (add_appends_or_is_swallowed (js "a cat --ar 16:9") (js "chaos") _
           eq_refl).
Defined.


(** ** Updating the value of a flag *)

Lemma star_try_scan {A} (g : mstate -> A) (h : jsstring * jsstring -> A)
      (K : cont) caps :
  forall x,
    (forall p x0, length x0 <= length x ->
                  option_map g (K (MState p x0 caps))
                  = option_map h (token_of x0)) ->
    forall p,
      option_map g (star_try colon_or_space K p x caps)
      = option_map h (value_scan x).
Proof.
  induction x as [| c x IH]; intros H p; cbn [star_try value_scan].
  - rewrite H by apply Nat.le_refl. reflexivity.
  - destruct (colon_or_space c); [| apply H; apply Nat.le_refl].
    assert (H' : forall p x0, length x0 <= length x ->
                   option_map g (K (MState p x0 caps))
                   = option_map h (token_of x0))
      by (intros p0 x0 L; apply H; simpl; lia).
    specialize (IH H' (c :: p)).
    destruct (star_try colon_or_space K (c :: p) x caps) as [y |],
             (value_scan x) as [r |]; try discriminate.
    + exact IH.
    + cbn [or_else]. apply H. apply Nat.le_refl.
Qed.

Lemma spaces_read p x caps :
  rmatch (Star true (Chr is_space)) (MState p x caps) Some
  = Some (MState (rev (take_while is_space x) ++ p) (drop_while is_space x) caps).
Proof.
  rmatch_step. cbn [m_rest groups].
  apply star_class_greedy; [apply Nat.le_refl | discriminate].
Qed.

(** The token of the pattern of an update, followed by its white space. *)
Lemma update_token n p x caps :
  length x < n ->
  option_map m_rest
    (rmatch (Plus true (Chr non_space)) (MState p x caps)
       (fun z => if Nat.eqb (length (m_rest z)) n then None
                 else rmatch (Star true (Chr is_space)) z Some))
  = option_map (fun r => drop_while is_space (snd r)) (token_of x).
Proof.
  intros L. unfold token_of, Plus. rmatch_step.
  destruct x as [| c x]; [reflexivity |].
  rmatch_step. cbn [starts_in take_while drop_while].
  destruct (non_space c); [| reflexivity].
  rmatch_step. cbn [m_rest groups].
  pose proof (length_drop_while non_space x) as D. simpl in L.
  rewrite star_class_greedy; cbn [m_rest m_prev m_caps]; trivial.
  - replace (Nat.eqb (length (drop_while non_space x)) n) with false
      by (symmetry; apply Nat.eqb_neq; lia).
    rewrite spaces_read. reflexivity.
  - replace (Nat.eqb (length (drop_while non_space x)) n) with false
      by (symmetry; apply Nat.eqb_neq; lia).
    rewrite spaces_read. discriminate.
Qed.

(** The pattern of an update read directly: the flag, its value if it has
    one, and the white space after it. *)
Lemma update_reads n prev x :
  option_map m_rest (match_at (updateRegex n) prev (js "--" ++ n ++ x))
  = Some (drop_while is_space (snd (value_part x))).
Proof.
  unfold match_at, updateRegex, seqs, lit.
  change (js "--") with [ch "-"; ch "-"]. cbn [app].
  do 3 rmatch_step. change (is_char "-" (ch "-")) with true. cbv iota.
  rmatch_step. change (is_char "-" (ch "-")) with true. cbv iota.
  rmatch_step. rewrite rmatch_lit_units. rmatch_step. rmatch_step.
  unfold cap_reset. cbn [m_prev m_rest m_caps groups Plus app].
  change (caps_without [] []) with (@nil (nat * jsstring)).
  set (p := rev n ++ [ch "-"; ch "-"] ++ prev).
  assert (K : option_map m_rest
                (rmatch (Star true (Chr is_space)) (MState p x []) Some)
              = Some (drop_while is_space x))
    by (rewrite spaces_read; reflexivity).
  unfold Plus at 1. do 2 rmatch_step.
  destruct x as [| s x]; [exact K |].
  rmatch_step. cbn [value_part].
  destruct (colon_or_space s); [| exact K].
  rmatch_step. cbn [m_rest groups]. rewrite star_class_try by trivial.
  match goal with
  | |- context [star_try colon_or_space ?K0 ?q x []] =>
    pose proof (star_try_scan m_rest (fun r => drop_while is_space (snd r))
                  K0 [] x
                  (fun p0 x0 L =>
                     update_token (length (s :: x)) p0 x0 []
                       (proj2 (Nat.lt_succ_r _ _) L))
                  q) as T;
    destruct (star_try colon_or_space K0 q x []) as [y |]
  end;
    destruct (value_scan x) as [[tok rem] |]; try discriminate.
  - exact T.
  - exact K.
Qed.

Lemma none_starts_app pat w a b :
  none_starts pat (w ++ a) b
  = none_starts pat w (a ++ b) && none_starts pat a b.
Proof.
  induction w as [| c w IH]; [reflexivity |].
  cbn [app none_starts]. rewrite IH, <- app_assoc, andb_assoc. reflexivity.
Qed.

(** A search passes over the positions at which the pattern cannot start. *)
Lemma search_first r pat :
  (forall prev rest, starts_with pat rest = false -> match_at r prev rest = None) ->
  forall pre prev b y,
    none_starts pat pre b = true ->
    match_at r (rev pre ++ prev) b = Some y ->
    search r prev (pre ++ b) = Some (pre, y).
Proof.
  intros A. induction pre as [| c pre IH]; intros prev b y N M.
  - cbn [app rev] in *. rewrite search_eq, M. reflexivity.
  - cbn [none_starts] in N. apply andb_prop in N. destruct N as [S N].
    apply negb_true_iff in S. cbn [app] in *.
    rewrite search_eq, (A _ _ S).
    cbn [rev] in M. rewrite <- app_assoc in M. cbn [app] in M.
    rewrite (IH (c :: prev) b y N M). reflexivity.
Qed.

Lemma none_starts_least pat pre x :
  (forall pre' x', pre ++ pat ++ x = pre' ++ pat ++ x' ->
                   length pre <= length pre') ->
  none_starts pat pre (pat ++ x) = true.
Proof.
  intros L.
  assert (G : forall y1 y2, pre = y1 ++ y2 ->
                none_starts pat y2 (pat ++ x) = true).
  { intros y1 y2. revert y1. induction y2 as [| c y2 IH]; intros y1 E;
      [reflexivity |].
    cbn [none_starts]. rewrite (IH (y1 ++ [c]))
      by (rewrite <- app_assoc; exact E).
    rewrite andb_true_r. apply negb_true_iff.
    destruct (starts_with pat ((c :: y2) ++ pat ++ x)) eqn:S; [| reflexivity].
    apply starts_with_split in S. destruct S as [x' S].
    specialize (L y1 x'). rewrite E, <- app_assoc, S in L.
    specialize (L eq_refl). rewrite length_app in L. simpl in L. lia. }
  exact (G [] pre eq_refl).
Qed.

Lemma trim_solid v : forallb non_space v = true -> trim v = v.
Proof.
  intros V. unfold trim.
  assert (D : forall u, forallb non_space u = true -> drop_while is_space u = u).
  { intros [| c u] U; [reflexivity |]. cbn [forallb] in U.
    apply andb_prop in U. destruct U as [C _]. cbn [drop_while].
    unfold non_space in C. apply negb_true_iff in C. rewrite C. reflexivity. }
  rewrite (D v V), (D (rev v)) by (rewrite forallb_rev; exact V).
  apply rev_involutive.
Qed.

Lemma alnum_no_dollar n :
  forallb is_alnum n = true ->
  forallb (fun c => negb (N.eqb c (ch "$"))) n = true.
Proof.
  intros A. rewrite forallb_forall in *. intros c I. specialize (A c I).
  apply negb_true_iff. apply N.eqb_neq. intros ->. vm_compute in A.
  discriminate.
Qed.

(** The prompt an update writes, when the flag first occurs after [pre]. *)
Lemma updatedPrompt_at pre n x v :
  forallb is_alnum n = true ->
  forallb (fun c => negb (N.eqb c (ch "$")))
          (in_template (valueToUse n v)) = true ->
  none_starts (js "--" ++ n) pre (js "--" ++ n ++ x) = true ->
  updatedPrompt (pre ++ js "--" ++ n ++ x) n v
  = trim (pre ++ js "--" ++ n ++ js " " ++ in_template (valueToUse n v)
              ++ js " " ++ drop_while is_space (snd (value_part x))).
Proof.
  intros A D F. unfold updatedPrompt.
  pose proof (update_reads n (rev pre ++ []) x) as R.
  destruct (match_at (updateRegex n) (rev pre ++ []) (js "--" ++ n ++ x))
    as [y |] eqn:M; [| discriminate].
  injection R as R.
  unfold replace_first.
  rewrite (search_first (updateRegex n) (js "--" ++ n)
             (update_needs_its_flag n) pre [] (js "--" ++ n ++ x) y)
    by (rewrite <- ?app_assoc; assumption).
  rewrite get_substitution_plain, R.
  - rewrite <- !app_assoc. reflexivity.
  - rewrite !forallb_app.
    apply andb_true_intro; split; [reflexivity |].
    apply andb_true_intro; split; [exact (alnum_no_dollar n A) |].
    apply andb_true_intro; split; [reflexivity |].
    apply andb_true_intro; split; [exact D | reflexivity].
Qed.

Lemma valueToUse_solid n v :
  v <> [] -> forallb non_space v = true -> valueToUse n v = Some v.
Proof.
  intros N V. unfold valueToUse. rewrite (trim_solid v V).
  destruct v; [contradiction | reflexivity].
Qed.

(** X9. An update rewrites the first
    occurrence of the flag and nothing else: the text before it stays, the
    flag with the value it had and the white space after it become the flag,
    one space, the value written and one space, the text after that stays,
    and the whole is trimmed. The value written is the trimmed new value, or
    the resolved default when that is empty. *)
Theorem update_rewrites_first_occurrence (pre n x v : jsstring) :
  forallb is_alnum n = true ->
  forallb (fun c => negb (is_char "$" c)) (in_template (valueToUse n v))
  = true ->
  (forall pre' x',
      pre ++ js "--" ++ n ++ x = pre' ++ js "--" ++ n ++ x' ->
      length pre <= length pre') ->
  updatedPrompt (pre ++ js "--" ++ n ++ x) n v
  = trim (pre ++ js "--" ++ n ++ js " " ++ in_template (valueToUse n v)
              ++ js " " ++ drop_while is_space (snd (value_part x))).
Proof.
  intros A D L. apply updatedPrompt_at; [exact A | exact D |].
  rewrite app_assoc. apply none_starts_least.
  intros pre' x' E. apply (L pre' x'). rewrite <- !app_assoc in E. exact E.
Qed.

Lemma update_rewrites_witness :
  updatedPrompt (js "a cat --ar 1:1  --v 5 --ar 2:3") (js "ar") (js " 16:9 ")
  = js "a cat --ar 16:9 --v 5 --ar 2:3".
Proof.
  pose proof (update_rewrites_first_occurrence
                (js "a cat ") (js "ar") (js " 1:1  --v 5 --ar 2:3")
                (js " 16:9 ") eq_refl eq_refl) as H.
  vm_compute in H |- *. apply H. clear H.
  intros pre' x' E.
  destruct pre' as [| c0 [| c1 [| c2 [| c3 [| c4 [| c5 pre']]]]]];
    try (cbn; lia); vm_compute in E; discriminate.
Defined.

Lemma read_flag_splits t q rem :
  read_flag t = Some (q, rem) -> exists w, w <> [] /\ t = w ++ rem.
Proof.
  intros R. pose proof (read_flag_shorter _ _ _ R) as L.
  unfold read_flag in R.
  destruct (flag_at [] t) as [y |] eqn:F; [| discriminate].
  injection R as _ <-.
  destruct (flag_shape _ _ _ F) as (w & E & _).
  exists w. split; [| exact E].
  intros ->. cbn [app] in E. subst t. lia.
Qed.

Lemma arrives_params b pre ps :
  arrives b pre ps -> params_in (pre ++ b) = ps ++ params_in b.
Proof.
  induction 1 as [| c a ps R _ IH | w a q ps N R _ IH].
  - reflexivity.
  - cbn [app]. rewrite params_in_cons, R. exact IH.
  - destruct ((w ++ a) ++ b) as [| c t] eqn:E.
    { destruct w; [contradiction | discriminate]. }
    rewrite params_in_cons, R, IH. reflexivity.
Qed.

(** A parameter of a text is read where the scan arrives after the
    parameters before it. *)
Lemma params_in_split :
  forall n t ps1 q ps2,
    length t <= n ->
    params_in t = ps1 ++ q :: ps2 ->
    exists pre b rem,
      t = pre ++ b /\ arrives b pre ps1
      /\ read_flag b = Some (q, rem) /\ params_in rem = ps2.
Proof.
  induction n as [| n IH]; intros t ps1 q ps2 L P.
  - destruct t; [| simpl in L; lia]. destruct ps1; discriminate.
  - destruct t as [| c t]; [destruct ps1; discriminate |].
    rewrite params_in_cons in P.
    destruct (read_flag (c :: t)) as [[q0 rem0] |] eqn:R.
    + destruct ps1 as [| q1 ps1]; injection P as -> P.
      * exists [], (c :: t), rem0. repeat split; trivial. constructor.
      * pose proof (read_flag_shorter _ _ _ R) as S. simpl in L, S.
        destruct (IH rem0 ps1 q ps2 ltac:(lia) P)
          as (pre & b & rem & E & A & F & T).
        destruct (read_flag_splits _ _ _ R) as (w & W & E').
        exists (w ++ pre), b, rem. rewrite <- app_assoc, <- E.
        repeat split; trivial.
        apply arrives_flag; trivial.
        rewrite <- app_assoc, <- E, <- E'. exact R.
    + simpl in L.
      destruct (IH t ps1 q ps2 ltac:(lia) P)
        as (pre & b & rem & E & A & F & T).
      exists (c :: pre), b, rem. cbn [app]. rewrite <- E.
      repeat split; trivial.
      apply arrives_skip; trivial. rewrite <- E. exact R.
Qed.

Lemma take_while_inner f (x z : jsstring) :
  drop_while f x <> [] -> take_while f (x ++ z) = take_while f x.
Proof.
  induction x as [| c x IH]; [contradiction |].
  cbn [app take_while drop_while]. destruct (f c); [| reflexivity].
  intros D. rewrite (IH D). reflexivity.
Qed.

Lemma drop_while_inner f (x z : jsstring) :
  drop_while f x <> [] -> drop_while f (x ++ z) = drop_while f x ++ z.
Proof.
  intros D. rewrite drop_while_app.
  destruct (drop_while f x); [contradiction | reflexivity].
Qed.

Lemma length_drop_dash c1 :
  length (drop_while non_space (ch "-" :: c1)) <= length c1.
Proof. cbn [drop_while]. change (non_space (ch "-")) with true. cbv iota.
       apply length_drop_while. Qed.

(** The value of a flag that ends before a dash does not depend on the
    text after the dash. *)
Lemma value_part_dash after c1 c2 val a :
  value_part (after ++ ch "-" :: c1) = (val, a ++ ch "-" :: c1) ->
  value_part (after ++ ch "-" :: c2) = (val, a ++ ch "-" :: c2).
Proof.
  assert (Short : forall r a0, length r <= length c1 ->
                    r <> a0 ++ ch "-" :: c1).
  { intros r a0 L E. apply (f_equal (@length _)) in E.
    rewrite length_app in E. simpl in E. lia. }
  destruct after as [| s x].
  - cbn [app value_part]. change (colon_or_space (ch "-")) with false.
    cbv iota. intros [= <- E].
    apply (app_inv_tail (ch "-" :: c1) [] a) in E. subst a. reflexivity.
  - cbn [app value_part]. destruct (colon_or_space s).
    2:{ intros [= <- E].
        apply (app_inv_tail (ch "-" :: c1) (s :: x) a) in E. subst a.
        reflexivity. }
    destruct (drop_while colon_or_space x) as [| t u] eqn:D.
    + (* only separators up to the dash: the token starts at the dash *)
      rewrite (value_scan_guarded (x ++ ch "-" :: c1) (ch "-") c1)
        by (rewrite drop_while_app, D; reflexivity).
      intros [= _ E]. exfalso.
      exact (Short _ a (length_drop_dash c1) E).
    + rewrite (value_scan_guarded (x ++ ch "-" :: c1) t (u ++ ch "-" :: c1))
        by (rewrite drop_while_app, D; reflexivity).
      rewrite (value_scan_guarded (x ++ ch "-" :: c2) t (u ++ ch "-" :: c2))
        by (rewrite drop_while_app, D; reflexivity).
      change (t :: u ++ ch "-" :: c1) with ((t :: u) ++ ch "-" :: c1).
      change (t :: u ++ ch "-" :: c2) with ((t :: u) ++ ch "-" :: c2).
      destruct (drop_while non_space (t :: u)) as [| c' d'] eqn:T.
      * rewrite (drop_while_app non_space (t :: u)), T.
        intros [= _ E]. exfalso.
        exact (Short _ a (length_drop_dash c1) E).
      * rewrite !take_while_inner, !drop_while_inner by (rewrite T; discriminate).
        rewrite T. intros [= <- E].
        apply (app_inv_tail (ch "-" :: c1) (c' :: d') a) in E. subst a.
        reflexivity.
Qed.

(** A flag read before two dashes does not depend on the text after
    them, and neither does the absence of a flag. *)
Lemma read_flag_dashes y c1 c2 :
  y <> [] ->
  (read_flag (y ++ ch "-" :: ch "-" :: c1) = None ->
   read_flag (y ++ ch "-" :: ch "-" :: c2) = None)
  /\ (forall q a,
         read_flag (y ++ ch "-" :: ch "-" :: c1)
         = Some (q, a ++ ch "-" :: ch "-" :: c1) ->
         read_flag (y ++ ch "-" :: ch "-" :: c2)
         = Some (q, a ++ ch "-" :: ch "-" :: c2)).
Proof.
  intros N. rewrite !read_flag_eq.
  destruct y as [| d1 [| d2 [| a0 y]]]; [contradiction | | |]; cbn [app].
  - change (starts_in is_alnum (ch "-" :: c1)) with false.
    change (starts_in is_alnum (ch "-" :: c2)) with false.
    rewrite !andb_false_r. split; [reflexivity | discriminate].
  - change (starts_in is_alnum (ch "-" :: ch "-" :: c1)) with false.
    change (starts_in is_alnum (ch "-" :: ch "-" :: c2)) with false.
    rewrite !andb_false_r. split; [reflexivity | discriminate].
  - cbn [starts_in].
    destruct (is_char "-" d1 && is_char "-" d2 && is_alnum a0);
      [| split; [reflexivity | discriminate]].
    split; [discriminate |]. intros q a.
    change (a0 :: y ++ ch "-" :: ch "-" :: c1)
      with ((a0 :: y) ++ ch "-" :: ch "-" :: c1).
    change (a0 :: y ++ ch "-" :: ch "-" :: c2)
      with ((a0 :: y) ++ ch "-" :: ch "-" :: c2).
    rewrite !take_while_before, !drop_while_before by reflexivity.
    intros [= <- E].
    rewrite (value_part_dash (drop_while is_alnum (a0 :: y))
               (ch "-" :: c1) (ch "-" :: c2)
               (fst (value_part (drop_while is_alnum (a0 :: y)
                                   ++ ch "-" :: ch "-" :: c1))) a).
    + reflexivity.
    + etransitivity; [apply surjective_pairing | f_equal; exact E].
Qed.

Lemma arrives_stable c1 c2 pre ps :
  arrives (ch "-" :: ch "-" :: c1) pre ps ->
  arrives (ch "-" :: ch "-" :: c2) pre ps.
Proof.
  induction 1 as [| c a ps R _ IH | w a q ps N R _ IH].
  - constructor.
  - apply arrives_skip; [| exact IH].
    exact (proj1 (read_flag_dashes (c :: a) c1 c2 ltac:(discriminate)) R).
  - apply arrives_flag; [exact N | | exact IH].
    apply (proj2 (read_flag_dashes (w ++ a) c1 c2
                    ltac:(destruct w; [contradiction | discriminate]))).
    exact R.
Qed.

Lemma starts_with_before f pat r0 :
  forallb f pat = true -> pat <> [] -> f r0 = false ->
  forall a t,
    starts_with pat a = false -> starts_with pat (a ++ r0 :: t) = false.
Proof.
  induction pat as [| x pat IH]; intros P N R a t H; [contradiction |].
  cbn [forallb] in P. apply andb_prop in P. destruct P as [X P].
  destruct a as [| c a]; cbn [app starts_with] in *.
  - destruct (N.eqb x r0) eqn:E; [| reflexivity].
    apply N.eqb_eq in E. subst. congruence.
  - apply andb_false_iff in H. apply andb_false_iff.
    destruct H as [H | H]; [auto |]. right.
    destruct pat as [| x' pat]; [destruct a; discriminate |].
    apply IH; trivial. discriminate.
Qed.

(** A text starts nowhere in a run of characters its first character does
    not belong to. *)
Lemma none_starts_class f p0 pat u rem :
  f p0 = false -> forallb f u = true ->
  none_starts (p0 :: pat) u rem = true.
Proof.
  intros P. induction u as [| c u IH]; [reflexivity |].
  cbn [forallb none_starts app starts_with]. intros U.
  apply andb_prop in U. destruct U as [C U]. rewrite (IH U), andb_true_r.
  destruct (N.eqb p0 c) eqn:E; [| reflexivity].
  apply N.eqb_eq in E. subst. congruence.
Qed.

(** Nor in a token that does not contain it, when the token ends the text
    or is followed by white space. *)
Lemma none_starts_token pat tok rem :
  forallb non_space pat = true -> pat <> [] ->
  includes tok pat = false -> starts_in non_space rem = false ->
  none_starts pat tok rem = true.
Proof.
  intros P N I R. induction tok as [| c tok IH]; [reflexivity |].
  rewrite includes_eq in I. apply orb_false_elim in I. destruct I as [S I].
  cbn [none_starts]. rewrite (IH I), andb_true_r. apply negb_true_iff.
  destruct rem as [| r0 rem]; [rewrite app_nil_r; exact S |].
  cbn [starts_in] in R.
  exact (starts_with_before non_space pat r0 P N R (c :: tok) rem S).
Qed.

Lemma value_part_shape after :
  (fst (value_part after) = [] /\ snd (value_part after) = after)
  \/ exists seps,
       after = seps ++ fst (value_part after) ++ snd (value_part after)
       /\ forallb colon_or_space seps = true
       /\ starts_in non_space (snd (value_part after)) = false.
Proof.
  destruct after as [| s x]; [left; auto |]. cbn [value_part].
  destruct (colon_or_space s) eqn:S; [| left; auto].
  destruct (value_scan x) as [[tok rem] |] eqn:V; [| left; auto].
  right. apply value_scan_splits in V. destruct V as (seps & -> & K & _ & R).
  exists (s :: seps). cbn [fst snd forallb]. rewrite S, K. auto.
Qed.

Lemma starts_with_run f n (x : jsstring) :
  forallb f n = true -> starts_with n x = true ->
  starts_with n (take_while f x) = true.
Proof.
  revert x. induction n as [| c n IH]; intros x N S; [reflexivity |].
  destruct x as [| d x]; [discriminate |].
  cbn [forallb starts_with] in *. apply andb_prop in N, S.
  destruct N as [C N], S as [E S]. apply N.eqb_eq in E. subst d.
  cbn [take_while]. rewrite C. cbn [starts_with].
  rewrite N.eqb_refl. exact (IH x N S).
Qed.

(** The text of a flag holds no start of [--n] when its name does not begin
    with [n] and its value does not contain [--n]. *)
Lemma flag_text_none_starts n w rem q :
  n <> [] -> forallb is_alnum n = true ->
  read_flag (w ++ rem) = Some (q, rem) ->
  starts_with n (name q) = false ->
  includes (value q) (js "--" ++ n) = false ->
  none_starts (js "--" ++ n) w rem = true.
Proof.
  intros N A R S I. rewrite read_flag_eq in R.
  destruct (w ++ rem) as [| d1 [| d2 rest1]] eqn:E; try discriminate.
  destruct (is_char "-" d1 && is_char "-" d2 && starts_in is_alnum rest1)
    eqn:C; [| discriminate].
  injection R as <- R. cbn [name value] in S, I.
  apply andb_prop in C. destruct C as [C A0]. apply andb_prop in C.
  destruct C as [D1 D2]. apply is_char_eq in D1, D2. subst d1 d2.
  set (nm := take_while is_alnum rest1) in *.
  set (after := drop_while is_alnum rest1) in *.
  destruct (value_part_splits after) as [w' E']. rewrite R in E'.
  assert (W : w = [ch "-"; ch "-"] ++ nm ++ w').
  { apply (app_inv_tail rem). rewrite E, <- !app_assoc. cbn [app].
    rewrite <- E'. unfold nm, after. rewrite take_drop_while. reflexivity. }
  rewrite W.
  change (js "--" ++ n) with (ch "-" :: ch "-" :: n) in *.
  rewrite !none_starts_app.
  assert (N0 : exists a0 nm', nm = a0 :: nm' /\ is_alnum a0 = true).
  { unfold nm. destruct rest1 as [| a0 r]; [discriminate |].
    cbn [starts_in] in A0. cbn [take_while]. rewrite A0. eauto. }
  destruct N0 as (a0 & nm' & En & Ha).
  apply andb_true_intro. split; [| apply andb_true_intro; split].
  - (* the two dashes *)
    cbn [none_starts app starts_with]. rewrite !N.eqb_refl. cbn [andb].
    rewrite andb_true_r. apply andb_true_intro. split.
    + apply negb_true_iff. rewrite <- ?app_assoc.
      destruct (starts_with n (nm ++ w' ++ rem)) eqn:T; [| reflexivity].
      rewrite <- E' in T. unfold nm, after in T.
      rewrite take_drop_while in T.
      pose proof (starts_with_run is_alnum n rest1 A T) as K.
      fold nm in K. congruence.
    + rewrite En. cbn [app starts_with].
      replace (N.eqb (ch "-") a0) with false; [reflexivity |].
      symmetry. apply N.eqb_neq. intros <-. vm_compute in Ha. discriminate.
  - apply (none_starts_class is_alnum); [reflexivity |].
    apply take_while_all.
  - destruct (value_part_shape after) as [[V T] | (seps & Ea & K & T)];
      rewrite R in *.
    + assert (w' = []) as ->; [| reflexivity].
      rewrite T in E'. apply (f_equal (@length _)) in E'.
      rewrite length_app in E'. destruct w'; [reflexivity | simpl in E'; lia].
    + assert (w' = seps ++ fst (value_part after)) as ->.
      { apply (app_inv_tail rem). rewrite <- E', <- app_assoc. exact Ea. }
      rewrite none_starts_app. apply andb_true_intro. split.
      * apply (none_starts_class colon_or_space); [reflexivity | exact K].
      * apply none_starts_token; trivial; try discriminate.
        cbn [forallb]. change (non_space (ch "-")) with true. cbn [andb].
        rewrite forallb_forall in *. intros c Ic. specialize (A c Ic).
        unfold non_space. apply negb_true_iff.
        destruct (is_space c) eqn:Sc; [| reflexivity].
        rewrite (is_alnum_of_space c Sc) in A. discriminate.
Qed.

Lemma read_flag_needs n t :
  n <> [] -> forallb is_alnum n = true ->
  starts_with (js "--" ++ n) t = true -> read_flag t <> None.
Proof.
  intros N A S. apply starts_with_split in S. destruct S as [t' ->].
  rewrite read_flag_eq. change (js "--") with [ch "-"; ch "-"]. cbn [app].
  destruct n as [| a n]; [contradiction |]. cbn [forallb] in A.
  apply andb_prop in A. destruct A as [A _].
  cbn [app starts_in]. rewrite A. discriminate.
Qed.

(** Where the scan arrives after parameters whose names do not begin with
    [n] and whose values do not contain [--n], no [--n] has started. *)
Lemma arrives_none_starts n b pre ps :
  n <> [] -> forallb is_alnum n = true ->
  arrives b pre ps ->
  Forall (fun q' => starts_with n (name q') = false
                    /\ includes (value q') (js "--" ++ n) = false) ps ->
  none_starts (js "--" ++ n) pre b = true.
Proof.
  intros N A. induction 1 as [| c a ps R _ IH | w a q ps W R _ IH]; intros F.
  - reflexivity.
  - cbn [none_starts]. rewrite (IH F), andb_true_r. apply negb_true_iff.
    destruct (starts_with (js "--" ++ n) ((c :: a) ++ b)) eqn:S;
      [| reflexivity].
    exfalso. exact (read_flag_needs n _ N A S R).
  - inversion F as [| q0 ps0 [Sn Iv] F0]; subst.
    rewrite none_starts_app, (IH F0), andb_true_r.
    rewrite <- app_assoc in R.
    exact (flag_text_none_starts n w (a ++ b) q N A R Sn Iv).
Qed.

Lemma read_flag_text b q rem :
  read_flag b = Some (q, rem) ->
  exists after,
    b = js "--" ++ name q ++ after
    /\ name q <> [] /\ forallb is_alnum (name q) = true
    /\ starts_in is_alnum after = false
    /\ value q = fst (value_part after)
    /\ rem = snd (value_part after).
Proof.
  rewrite read_flag_eq.
  destruct b as [| d1 [| d2 rest1]]; try discriminate.
  destruct (is_char "-" d1 && is_char "-" d2 && starts_in is_alnum rest1)
    eqn:C; [| discriminate].
  intros [= <- <-]. cbn [name value].
  apply andb_prop in C. destruct C as [C A0]. apply andb_prop in C.
  destruct C as [D1 D2]. apply is_char_eq in D1, D2. subst d1 d2.
  exists (drop_while is_alnum rest1).
  change (js "--") with [ch "-"; ch "-"]. cbn [app].
  rewrite take_drop_while. repeat split.
  - destruct rest1 as [| a r]; [discriminate |]. cbn [starts_in] in A0.
    cbn [take_while]. rewrite A0. discriminate.
  - apply take_while_all.
  - apply drop_run_starts.
Qed.

(** The flag an update writes, read back. *)
Lemma written_flag_read n v post :
  n <> [] -> forallb is_alnum n = true ->
  v <> [] -> forallb non_space v = true ->
  starts_in (is_char ":") v = false ->
  read_flag (js "--" ++ n ++ js " " ++ v ++ js " " ++ post)
  = Some ({| name := n; value := v; enabled := true |}, js " " ++ post).
Proof.
  intros N A V S C. rewrite read_flag_eq.
  change (js "--") with [ch "-"; ch "-"]. cbn [app].
  change (is_char "-" (ch "-")) with true. cbn [andb].
  assert (A0 : starts_in is_alnum (n ++ js " " ++ v ++ js " " ++ post) = true).
  { destruct n as [| a n]; [contradiction |]. cbn [forallb] in A.
    apply andb_prop in A. destruct A as [A _]. exact A. }
  rewrite A0.
  rewrite (take_while_stops is_alnum n (js " " ++ v ++ js " " ++ post) A
             eq_refl).
  rewrite (drop_while_stops is_alnum n (js " " ++ v ++ js " " ++ post) A
             eq_refl).
  destruct v as [| v0 v]; [contradiction |].
  change (js " " ++ (v0 :: v) ++ js " " ++ post)
    with ([ch " "] ++ v0 :: (v ++ js " " ++ post)).
  rewrite value_part_open; [| reflexivity |].
  - change (v0 :: v ++ js " " ++ post) with ((v0 :: v) ++ js " " ++ post).
    rewrite (take_while_stops non_space (v0 :: v) (js " " ++ post) S eq_refl).
    rewrite (drop_while_stops non_space (v0 :: v) (js " " ++ post) S eq_refl).
    reflexivity.
  - cbn [forallb starts_in] in S, C. apply andb_prop in S.
    destruct S as [S _]. unfold colon_or_space. rewrite C.
    unfold non_space in S. apply negb_true_iff in S. rewrite S. reflexivity.
Qed.

Lemma params_in_after_spaces rem :
  params_in (drop_while is_space rem) = params_in rem.
Proof.
  rewrite <- (take_drop_while is_space rem) at 2.
  symmetry. apply params_in_blank_head. apply take_while_all.
Qed.

(** The parameters after an update. *)
Lemma updated_parameters
      (p v : jsstring) (ps1 ps2 : list ExtractedParameter)
      (q : ExtractedParameter) :
  parameters (analyze p) = ps1 ++ q :: ps2 ->
  Forall (fun q' => starts_with (name q) (name q') = false
                    /\ includes (value q') (js "--" ++ name q) = false) ps1 ->
  v <> [] ->
  forallb non_space v = true ->
  forallb (fun c => negb (is_char "$" c)) v = true ->
  starts_in (is_char ":") v = false ->
  parameters (analyze (updatedPrompt p (name q) v))
  = ps1 ++ {| name := name q; value := v; enabled := true |} :: ps2.
Proof.
  intros P F V S D C.
  destruct (params_in_split (length p) p ps1 q ps2 (Nat.le_refl _) P)
    as (pre & b & rem & -> & Ar & R & T).
  destruct (read_flag_text _ _ _ R) as (after & -> & N & A & _ & _ & Er).
  pose proof (arrives_none_starts (name q) _ pre ps1 N A Ar F) as Ns.
  rewrite (updatedPrompt_at pre (name q) after v A)
    by (rewrite ?(valueToUse_solid (name q) v V S); assumption).
  rewrite (valueToUse_solid (name q) v V S). cbn [in_template].
  change (parameters (analyze ?x)) with (params_in x).
  rewrite params_in_trim.
  change (js "--" ++ name q ++ after)
    with (ch "-" :: ch "-" :: name q ++ after) in Ar.
  apply (arrives_stable _ (name q ++ js " " ++ v ++ js " "
                             ++ drop_while is_space (snd (value_part after))))
    in Ar.
  apply arrives_params in Ar.
  change (js "--" ++ name q ++ js " " ++ v ++ js " "
             ++ drop_while is_space (snd (value_part after)))
    with (ch "-" :: ch "-" :: name q ++ js " " ++ v ++ js " "
             ++ drop_while is_space (snd (value_part after))).
  rewrite Ar. f_equal.
  rewrite params_in_cons.
  change (ch "-" :: ch "-" :: name q ++ js " " ++ v ++ js " "
             ++ drop_while is_space (snd (value_part after)))
    with (js "--" ++ name q ++ js " " ++ v ++ js " "
             ++ drop_while is_space (snd (value_part after))).
  rewrite (written_flag_read (name q) v _ N A V S C). f_equal.
  rewrite (params_in_blank_head (js " ") _ eq_refl).
  rewrite params_in_after_spaces, <- Er. exact T.
Qed.

(** X10. Updating a parameter of the analysis with a
    value that has no white space and no dollar sign and does not start
    with a colon changes the value of that parameter and nothing else in
    the parameters, provided no parameter before it has a name that begins
    with its name or a value that contains its flag. *)
Theorem update_sets_the_value
        (p v : jsstring) (ps1 ps2 : list ExtractedParameter)
        (q : ExtractedParameter) :
  parameters (analyze p) = ps1 ++ q :: ps2 ->
  Forall (fun q' => starts_with (name q) (name q') = false
                    /\ includes (value q') (js "--" ++ name q) = false) ps1 ->
  v <> [] ->
  forallb non_space v = true ->
  forallb (fun c => negb (is_char "$" c)) v = true ->
  starts_in (is_char ":") v = false ->
  parameters (analyze (updatedPrompt p (name q) v))
  = ps1 ++ {| name := name q; value := v; enabled := true |} :: ps2.
Proof. exact (updated_parameters p v ps1 ps2 q). Qed.

Lemma update_sets_the_value_witness :
  parameters (analyze (updatedPrompt (js "a cat --ar 1:1 --v 5 --tile")
                                     (js "v") (js "6.0")))
  = [ {| name := js "ar"; value := js "1:1"; enabled := true |};
      {| name := js "v"; value := js "6.0"; enabled := true |};
      {| name := js "tile"; value := []; enabled := true |} ].
Proof.
  refine (update_sets_the_value
            (js "a cat --ar 1:1 --v 5 --tile") (js "6.0")
            [ {| name := js "ar"; value := js "1:1"; enabled := true |} ]
            [ {| name := js "tile"; value := []; enabled := true |} ]
            {| name := js "v"; value := js "5"; enabled := true |}
            _ _ _ _ _ _).
  - vm_compute. reflexivity.
  - constructor; [split; reflexivity | constructor].
  - discriminate.
  - reflexivity.
  - reflexivity.
  - reflexivity.
Defined.

(** *** Updating twice *)

Lemma trim_end_app_solid a c y :
  is_space c = false -> trim_end (a ++ c :: y) = a ++ c :: trim_end y.
Proof.
  intros C. unfold trim_end. rewrite rev_app_distr. cbn [rev].
  rewrite <- app_assoc. cbn [app]. rewrite drop_while_app.
  destruct (drop_while is_space (rev y)) as [| d t] eqn:D.
  - cbn [drop_while]. rewrite C. cbn [rev]. rewrite rev_involutive. reflexivity.
  - cbn [rev]. rewrite rev_app_distr. cbn [rev app].
    rewrite rev_involutive, <- !app_assoc. reflexivity.
Qed.

Lemma trim_end_idem y : trim_end (trim_end y) = trim_end y.
Proof. unfold trim_end. rewrite rev_involutive, drop_while_idem. reflexivity. Qed.

Lemma trim_end_nil : trim_end [] = [].
Proof. reflexivity. Qed.

Lemma trim_end_solid v : forallb non_space v = true -> trim_end v = v.
Proof.
  intros V. unfold trim_end.
  assert (D : drop_while is_space (rev v) = rev v).
  { assert (R : forallb non_space (rev v) = true)
      by (rewrite forallb_rev; exact V).
    destruct (rev v) as [| c u]; [reflexivity |]. cbn [forallb] in R.
    apply andb_prop in R. destruct R as [C _]. cbn [drop_while].
    unfold non_space in C. apply negb_true_iff in C. rewrite C. reflexivity. }
  rewrite D. apply rev_involutive.
Qed.

Lemma trim_end_core a core y :
  core <> [] -> forallb non_space core = true ->
  trim_end (a ++ core ++ y) = a ++ core ++ trim_end y.
Proof.
  intros N S. destruct (exists_last N) as (i & c & ->).
  rewrite forallb_app in S. apply andb_prop in S. destruct S as [_ S].
  cbn [forallb] in S. rewrite andb_true_r in S.
  unfold non_space in S. apply negb_true_iff in S.
  rewrite <- !app_assoc. cbn [app]. rewrite !app_assoc.
  apply trim_end_app_solid. exact S.
Qed.

(** Trimming a text with a solid core: the white space before it goes, and
    so does the white space at the end of what follows it. *)
Lemma trim_core pre core y :
  core <> [] -> forallb non_space core = true ->
  trim (pre ++ core ++ y) = drop_while is_space pre ++ core ++ trim_end y.
Proof.
  intros N S. unfold trim.
  fold (trim_end (drop_while is_space (pre ++ core ++ y))).
  assert (D : drop_while is_space (pre ++ core ++ y)
              = drop_while is_space pre ++ core ++ y).
  { rewrite drop_while_app.
    destruct (drop_while is_space pre); [| reflexivity].
    destruct core as [| c core]; [contradiction |]. cbn [forallb] in S.
    apply andb_prop in S. destruct S as [C _]. cbn [app drop_while].
    unfold non_space in C. apply negb_true_iff in C. rewrite C. reflexivity. }
  rewrite D. apply trim_end_core; assumption.
Qed.

Lemma trim_end_app_idem a b : trim_end (a ++ trim_end b) = trim_end (a ++ b).
Proof.
  unfold trim_end. rewrite !rev_app_distr, rev_involutive, !drop_while_app.
  rewrite drop_while_idem. destruct (drop_while is_space (rev b)); reflexivity.
Qed.

Lemma trim_end_after_space post :
  starts_in is_space post = false ->
  drop_while is_space (trim_end (js " " ++ post)) = trim_end post.
Proof.
  intros S. destruct post as [| c post]; [reflexivity |]. cbn [starts_in] in S.
  change (js " " ++ c :: post) with ([ch " "] ++ c :: post).
  rewrite (trim_end_app_solid [ch " "] c post S).
  change (trim_end (c :: post)) with (trim_end ([] ++ c :: post)).
  rewrite (trim_end_app_solid [] c post S).
  cbn [app drop_while]. change (is_space (ch " ")) with true. cbv iota.
  rewrite S. reflexivity.
Qed.

Lemma trim_end_starts y :
  starts_in non_space (trim_end (js " " ++ y)) = false.
Proof.
  unfold trim_end. change (js " " ++ y) with ([ch " "] ++ y).
  rewrite rev_app_distr. cbn [rev app]. rewrite drop_while_app.
  destruct (drop_while is_space (rev y)) as [| d t]; [reflexivity |].
  cbn [app rev]. rewrite rev_app_distr. reflexivity.
Qed.

(** A value without white space that is not made of colons is read back
    whole after a separator. *)
Lemma solid_value_scan t :
  starts_in non_space t = false ->
  forall v,
    forallb non_space v = true -> forallb (is_char ":") v = false ->
    exists tok, value_scan (v ++ t) = Some (tok, t).
Proof.
  intros T. induction v as [| c v IH]; intros S C; [discriminate |].
  cbn [forallb] in S, C. apply andb_prop in S. destruct S as [Sc S].
  cbn [app value_scan].
  assert (K : token_of (c :: v ++ t) = Some (c :: v, t)).
  { unfold token_of. cbn [starts_in]. rewrite Sc.
    change (c :: v ++ t) with ((c :: v) ++ t).
    rewrite (take_while_stops non_space (c :: v) t),
            (drop_while_stops non_space (c :: v) t);
      trivial; cbn [forallb]; rewrite Sc, S; reflexivity. }
  destruct (colon_or_space c) eqn:E.
  - assert (Cc : is_char ":" c = true).
    { unfold colon_or_space in E. unfold non_space in Sc.
      apply negb_true_iff in Sc. rewrite Sc, orb_false_r in E. exact E. }
    rewrite Cc in C. cbn [andb] in C.
    destruct (IH S C) as [tok ->]. eauto.
  - eauto.
Qed.

Lemma starts_with_within pat :
  forall a b, length pat <= length a ->
              starts_with pat (a ++ b) = starts_with pat a.
Proof.
  induction pat as [| x pat IH]; intros a b L; [reflexivity |].
  destruct a as [| c a]; [simpl in L; lia |]. cbn [app starts_with].
  rewrite IH by (simpl in L; lia). reflexivity.
Qed.

Lemma none_starts_tail pat x x' :
  forall pre,
    none_starts pat pre (pat ++ x) = none_starts pat pre (pat ++ x').
Proof.
  induction pre as [| c pre IH]; [reflexivity |]. cbn [none_starts].
  rewrite IH. f_equal. f_equal.
  rewrite !app_assoc.
  rewrite !(starts_with_within pat ((c :: pre) ++ pat))
    by (rewrite length_app; lia).
  reflexivity.
Qed.

Lemma none_starts_suffix f pat b :
  forall pre,
    none_starts pat pre b = true ->
    none_starts pat (drop_while f pre) b = true.
Proof.
  induction pre as [| c pre IH]; [trivial |]. intros N.
  cbn [drop_while]. destruct (f c); [| exact N].
  cbn [none_starts] in N. apply andb_prop in N. tauto.
Qed.

Lemma includes_first pat :
  forall p,
    includes p pat = true ->
    exists pre x, p = pre ++ pat ++ x
                  /\ none_starts pat pre (pat ++ x) = true.
Proof.
  induction p as [| c p IH]; rewrite includes_eq; intros I.
  - rewrite orb_false_r in I. apply starts_with_split in I.
    destruct I as [x E]. exists [], x. auto.
  - destruct (starts_with pat (c :: p)) eqn:S.
    + apply starts_with_split in S. destruct S as [x E].
      exists [], x. auto.
    + cbn [orb] in I. destruct (IH I) as (pre & x & -> & N).
      exists (c :: pre), x. split; [reflexivity |].
      cbn [none_starts]. rewrite N. cbn [app] in *. rewrite S. reflexivity.
Qed.

Lemma dashed_name_solid n :
  forallb is_alnum n = true ->
  js "--" ++ n <> [] /\ forallb non_space (js "--" ++ n) = true.
Proof.
  intros A. split; [discriminate |].
  change (js "--") with [ch "-"; ch "-"]. cbn [app forallb].
  change (non_space (ch "-")) with true. cbn [andb].
  rewrite forallb_forall in *. intros c I. specialize (A c I).
  unfold non_space. apply negb_true_iff.
  destruct (is_space c) eqn:S; [| reflexivity].
  rewrite (is_alnum_of_space c S) in A. discriminate.
Qed.

(** The prompt written by an update of a value is left as it is by the
    same update. *)
Lemma written_prompt_fixed pre n v post :
  forallb is_alnum n = true ->
  v <> [] -> forallb non_space v = true ->
  forallb (fun c => negb (N.eqb c (ch "$"))) v = true ->
  forallb (is_char ":") v = false ->
  starts_in is_space post = false ->
  none_starts (js "--" ++ n) pre (js "--" ++ n ++ post) = true ->
  let written :=
    trim (pre ++ js "--" ++ n ++ js " " ++ v ++ js " " ++ post) in
  updatedPrompt written n v = written.
Proof.
  intros A V S D C P N written.
  destruct (dashed_name_solid n A) as [Ne So].
  set (t := trim_end (js " " ++ post)).
  assert (W : written
              = drop_while is_space pre ++ js "--" ++ n ++ js " " ++ v ++ t).
  { unfold written.
    rewrite (app_assoc (js "--") n), (trim_core pre (js "--" ++ n) _ Ne So).
    rewrite (trim_end_core (js " ") v (js " " ++ post) V S).
    rewrite <- !app_assoc. reflexivity. }
  assert (T : starts_in non_space t = false) by apply trim_end_starts.
  destruct (solid_value_scan t T v S C) as [tok Vs].
  assert (Vp : snd (value_part (js " " ++ v ++ t)) = t).
  { change (js " " ++ v ++ t) with (ch " " :: v ++ t).
    cbn [value_part]. change (colon_or_space (ch " ")) with true. cbv iota.
    rewrite Vs. reflexivity. }
  rewrite W at 1.
  rewrite (updatedPrompt_at (drop_while is_space pre) n (js " " ++ v ++ t) v A).
  - rewrite (valueToUse_solid n v V S). cbn [in_template]. rewrite Vp.
    unfold t. rewrite (trim_end_after_space post P).
    rewrite (app_assoc (js "--") n),
            (trim_core (drop_while is_space pre) (js "--" ++ n) _ Ne So).
    rewrite drop_while_idem.
    rewrite (trim_end_core (js " ") v (js " " ++ trim_end post) V S).
    rewrite (trim_end_app_idem (js " ") post).
    rewrite W. unfold t. rewrite <- !app_assoc. reflexivity.
  - rewrite (valueToUse_solid n v V S). exact D.
  - apply none_starts_suffix. rewrite app_assoc.
    rewrite (none_starts_tail (js "--" ++ n) _ post).
    rewrite <- app_assoc. exact N.
Qed.

(** X11. Updating a flag twice with the same
    value gives what updating it once gives, for a value without white
    space or dollar sign that is not made of colons only. *)
Theorem update_twice_is_update_once (p n v : jsstring) :
  forallb is_alnum n = true ->
  v <> [] ->
  forallb non_space v = true ->
  forallb (fun c => negb (is_char "$" c)) v = true ->
  forallb (is_char ":") v = false ->
  updatedPrompt (updatedPrompt p n v) n v = updatedPrompt p n v.
Proof.
  intros A V S D C.
  destruct (includes p (js "--" ++ n)) eqn:I.
  - destruct (includes_first _ _ I) as (pre & x & -> & N).
    rewrite <- app_assoc in *.
    rewrite (updatedPrompt_at pre n x v A)
      by (rewrite ?(valueToUse_solid n v V S); assumption).
    rewrite (valueToUse_solid n v V S). cbn [in_template].
    apply written_prompt_fixed; trivial.
    + apply drop_run_starts.
    + rewrite app_assoc.
      rewrite (none_starts_tail (js "--" ++ n) _ x).
      rewrite <- app_assoc. exact N.
  - assert (U : forall s, includes s (js "--" ++ n) = false ->
                  updatedPrompt s n v = trim s).
    { intros s Is. unfold updatedPrompt, replace_first.
      rewrite (proj2 (search_update_iff n s [])) by exact Is. reflexivity. }
    rewrite (U p I), (U (trim p) (includes_trim _ _ I)). apply trim_idem.
Qed.

Lemma update_twice_witness :
  updatedPrompt (updatedPrompt (js "a cat --ar:1:1   , wide") (js "ar")
                               (js "16:9"))
                (js "ar") (js "16:9")
  = updatedPrompt (js "a cat --ar:1:1   , wide") (js "ar") (js "16:9").
Proof.
  exact (update_twice_is_update_once
           (js "a cat --ar:1:1   , wide") (js "ar") (js "16:9")
           eq_refl ltac:(discriminate) eq_refl eq_refl eq_refl).
Defined.


(** ** Adding a flag, then updating it, for every prompt *)

Lemma value_part_solid after :
  forallb non_space (fst (value_part after)) = true.
Proof.
  destruct after as [| s x]; [reflexivity |]. cbn [value_part].
  destruct (colon_or_space s); [| reflexivity].
  destruct (value_scan x) as [[tok rem] |] eqn:V; [| reflexivity].
  apply value_scan_splits in V. destruct V as (seps & _ & _ & T & _).
  exact T.
Qed.

Lemma parameter_in_text t q :
  In q (params_in t) ->
  name q <> [] /\ forallb is_alnum (name q) = true
  /\ includes t (js "--" ++ name q) = true.
Proof.
  intros H. apply in_split in H. destruct H as (ps1 & ps2 & P).
  destruct (params_in_split (length t) t ps1 q ps2 (Nat.le_refl _) P)
    as (pre & b & rem & -> & _ & R & _).
  destruct (read_flag_text _ _ _ R) as (after & -> & N & A & _).
  split; [exact N |]. split; [exact A |].
  rewrite (app_assoc (js "--") (name q) after).
  apply includes_found.
Qed.








(** A value of the analysis lies in the text. *)
Lemma value_in_text t q pat :
  In q (params_in t) -> includes t pat = false -> includes (value q) pat = false.
Proof.
  intros H I. apply in_split in H. destruct H as (ps1 & ps2 & P).
  destruct (params_in_split (length t) t ps1 q ps2 (Nat.le_refl _) P)
    as (pre & b & rem & -> & _ & R & _).
  destruct (read_flag_text _ _ _ R) as (after & -> & _ & _ & _ & Ev & _).
  rewrite Ev.
  apply includes_suffix in I. apply includes_suffix in I.
  apply includes_suffix in I.
  destruct (value_part_shape after) as [[E _] | (seps & E & _)].
  - rewrite E. destruct pat; [| reflexivity].
    rewrite includes_eq in I. discriminate I.
  - rewrite E in I. apply includes_suffix in I. apply includes_prefix in I.
    exact I.
Qed.





Example chaos_added_after_a_longer_name :
  addedPrompt (js "cat --chaosx 5") (js "chaos")
  = Some (js "cat --chaosx 5 --chaos 0")
  /\ parameters (analyze (js "cat --chaosx 5 --chaos 0"))
     = [ {| name := js "chaosx"; value := js "5"; enabled := true |};
         {| name := js "chaos"; value := js "0"; enabled := true |} ]
  /\ updatedPrompt (js "cat --chaosx 5 --chaos 0") (js "chaos") (js "50")
     = js "cat --chaos 50 x 5 --chaos 0"
  /\ parameters (analyze (js "cat --chaos 50 x 5 --chaos 0"))
     = [ {| name := js "chaos"; value := js "50"; enabled := true |};
         {| name := js "chaos"; value := js "0"; enabled := true |} ].
Proof. vm_compute. repeat split. Qed.



(** ** Sentence splitting drops white space only *)

Lemma filter_solid_blank (ws : jsstring) :
  forallb is_space ws = true -> filter non_space ws = [].
Proof.
  induction ws as [| c ws IH]; [reflexivity |]. cbn [forallb filter].
  intros H. apply andb_prop in H. destruct H as [C H].
  unfold non_space at 1. rewrite C. exact (IH H).
Qed.

Lemma filter_solid_trim s : filter non_space (trim s) = filter non_space s.
Proof.
  destruct (trim_parts s) as (l & r & E & L & R). rewrite E at 2.
  rewrite !filter_app, (filter_solid_blank l L), (filter_solid_blank r R).
  rewrite app_nil_r. reflexivity.
Qed.

Lemma trim_empty_blank s : trim s = [] -> forallb is_space s = true.
Proof.
  intros T. destruct (trim_parts s) as (l & r & E & L & R).
  rewrite T in E. cbn [app] in E. rewrite E, forallb_app, L, R. reflexivity.
Qed.

Lemma filter_solid_parts (pieces : list jsstring) :
  filter non_space
         (concat (map trim (filter (fun part => truthy (trim part)) pieces)))
  = filter non_space (concat pieces).
Proof.
  induction pieces as [| p pieces IH]; [reflexivity |].
  cbn [filter concat]. rewrite filter_app, <- IH.
  destruct (trim p) as [| c t] eqn:T; cbn [truthy].
  - rewrite (filter_solid_blank p (trim_empty_blank p T)). reflexivity.
  - cbn [map concat]. rewrite filter_app, T, <- T, filter_solid_trim.
    reflexivity.
Qed.

(** Splitting on a pattern that matches white space only keeps every other
    character. *)
Lemma split_loop_keeps r :
  (forall prev rest y,
      match_at r prev rest = Some y ->
      exists w, rest = w ++ m_rest y /\ forallb is_space w = true) ->
  forall fuel prev cur rest at_p,
    filter non_space (concat (split_loop r fuel prev cur rest at_p))
    = filter non_space (rev cur ++ rest).
Proof.
  intros W. induction fuel as [| fuel IH]; intros prev cur rest at_p.
  - cbn [split_loop concat]. rewrite app_nil_r. reflexivity.
  - cbn [split_loop]. destruct rest as [| c rest].
    + cbn [concat]. rewrite !app_nil_r. reflexivity.
    + assert (Step : filter non_space
                       (concat (split_loop r fuel (c :: prev) (c :: cur) rest
                                           false))
                     = filter non_space (rev cur ++ c :: rest)).
      { rewrite IH. cbn [rev]. rewrite <- app_assoc. reflexivity. }
      destruct (match_at r prev (c :: rest)) as [y |] eqn:M; [| exact Step].
      destruct (at_p && Nat.eqb (length (m_rest y)) (length (c :: rest)));
        [exact Step |].
      destruct (W _ _ _ M) as (w & E & B).
      cbn [concat]. rewrite filter_app, IH. cbn [rev app].
      rewrite E, !filter_app, (filter_solid_blank w B). reflexivity.
Qed.

Lemma split_regex_keeps r s :
  (forall prev rest y,
      match_at r prev rest = Some y ->
      exists w, rest = w ++ m_rest y /\ forallb is_space w = true) ->
  filter non_space (concat (split_regex r s)) = filter non_space s.
Proof.
  intros W. unfold split_regex. destruct s as [| c s].
  - destruct (match_at r [] []); reflexivity.
  - apply (split_loop_keeps r W).
Qed.

Lemma after_run_blank prev rest :
  exists w, rest = w ++ m_rest (after_run is_space prev rest)
            /\ forallb is_space w = true.
Proof.
  exists (take_while is_space rest). unfold after_run. cbn [m_rest].
  split; [symmetry; apply take_drop_while | apply take_while_all].
Qed.

Lemma sentence_match_blank prev rest y :
  match_at sentenceRegex prev rest = Some y ->
  exists w, rest = w ++ m_rest y /\ forallb is_space w = true.
Proof.
  rewrite sentence_separator.
  destruct (starts_in is_terminal prev && starts_in is_space rest);
    [| discriminate].
  intros [= <-]. apply after_run_blank.
Qed.

Lemma cjk_sentence_match_blank prev rest y :
  match_at cjkSentenceRegex prev rest = Some y ->
  exists w, rest = w ++ m_rest y /\ forallb is_space w = true.
Proof.
  rewrite cjk_sentence_separator.
  destruct (starts_in is_cjk_terminal prev); [| discriminate].
  intros [= <-]. apply after_run_blank.
Qed.

Lemma originals_of_mappings parts translations :
  forall i, map original (mappings_from i parts translations) = parts.
Proof.
  induction parts as [| p parts IH]; intros i; [reflexivity |].
  cbn [mappings_from map original]. rewrite IH. reflexivity.
Qed.

Lemma skipn_nth {A} (l : list A) :
  forall i t, nth_error l i = Some t -> skipn i l = t :: skipn (S i) l.
Proof.
  induction l as [| x l IH]; intros [| i] t E; try discriminate.
  - injection E as ->. reflexivity.
  - cbn [nth_error] in E. rewrite (skipn_cons i x l), (IH i t E). reflexivity.
Qed.

Lemma translations_of_mappings parts :
  forall translations i,
    length translations <= i + length parts ->
    concat (map translated (mappings_from i parts translations))
    = concat (skipn i translations).
Proof.
  induction parts as [| p parts IH]; intros translations i L.
  - cbn [mappings_from map concat]. rewrite skipn_all2; [reflexivity |].
    simpl in L. lia.
  - cbn [mappings_from map concat translated].
    rewrite IH by (simpl in L; lia).
    destruct (nth_error translations i) as [t |] eqn:E.
    + rewrite str_or_empty, (skipn_nth translations i t E). reflexivity.
    + apply nth_error_None in E.
      rewrite !skipn_all2 by lia. reflexivity.
Qed.

(** X12. Cutting the two texts into
    sentences loses white space and nothing else: the parts of the
    original, and the originals of the pairs, put together have the
    characters of the text that are not white space, in order; so do the
    parts of the translation, and the translations of the pairs when there
    are no more translated parts than original ones. *)
Theorem splitting_drops_only_white_space (text result : jsstring) :
  filter non_space (concat (originalParts text)) = filter non_space text
  /\ filter non_space (concat (translatedParts result))
     = filter non_space result
  /\ filter non_space (concat (map original (align text result)))
     = filter non_space text
  /\ (length (translatedParts result) <= length (originalParts text) ->
      filter non_space (concat (map translated (align text result)))
      = filter non_space result).
Proof.
  assert (O : filter non_space (concat (originalParts text))
              = filter non_space text).
  { unfold originalParts, sentence_parts. rewrite filter_solid_parts.
    apply split_regex_keeps. exact sentence_match_blank. }
  assert (T : filter non_space (concat (translatedParts result))
              = filter non_space result).
  { unfold translatedParts, sentence_parts. rewrite filter_solid_parts.
    apply split_regex_keeps. exact cjk_sentence_match_blank. }
  split; [exact O | split; [exact T | split]].
  - unfold align. rewrite originals_of_mappings. exact O.
  - intros L. unfold align.
    rewrite translations_of_mappings by (simpl; exact L).
    cbn [skipn]. exact T.
Qed.

Lemma splitting_witness :
  filter non_space
         (concat (map translated (align (js "A cat.  A dog!") (js "一只猫。 一只狗！"))))
  = filter non_space (js "一只猫。 一只狗！").
Proof.
  apply (splitting_drops_only_white_space (js "A cat.  A dog!")
                                          (js "一只猫。 一只狗！")).
  vm_compute. lia.
Defined.


(** ** Image addresses *)

(** A text that matches a pattern is made of characters of its classes. *)
Lemma lang_within f r p w s ci co :
  classes_within f r -> lang r p w s ci co -> forallb f w = true.
Proof.
  intros C L. induction L; cbn [classes_within] in C;
    try reflexivity; try tauto.
  - cbn [forallb]. rewrite (C c) by assumption. reflexivity.
  - rewrite forallb_app. destruct C. rewrite IHL1, IHL2 by assumption.
    reflexivity.
  - rewrite forallb_app. rewrite IHL1, IHL2 by assumption. reflexivity.
Qed.

Lemma alnum_url_char c : is_alnum c = true -> url_char c = true.
Proof.
  intros A. unfold url_char. apply negb_true_iff.
  destruct (is_space c) eqn:S; [rewrite (is_alnum_of_space c S) in A; discriminate |].
  unfold is_char. cbn [orb].
  unfold is_alnum, is_lower, is_upper, is_digit, in_range in A.
  repeat (apply orb_false_intro); apply N.eqb_neq; intros ->;
    vm_compute in A; discriminate.
Qed.

Lemma letter_ci_url_char a c :
  is_lower (ch a) = true -> is_char_ci a c = true -> url_char c = true.
Proof.
  intros L. unfold is_char_ci. rewrite L. intros H.
  apply alnum_url_char.
  unfold is_lower, in_range in L. apply andb_prop in L. destruct L as [L1 L2].
  apply N.leb_le in L1, L2.
  apply orb_prop in H. destruct H as [H | H]; apply N.eqb_eq in H; subst c.
  - unfold is_alnum, is_lower, in_range.
    rewrite (proj2 (N.leb_le _ _) L1), (proj2 (N.leb_le _ _) L2). reflexivity.
  - unfold is_alnum, is_upper, in_range.
    assert (U1 : (65 <= ch a - 32)%N) by lia.
    assert (U2 : (ch a - 32 <= 90)%N) by lia.
    rewrite (proj2 (N.leb_le _ _) U1), (proj2 (N.leb_le _ _) U2).
    cbn [andb]. rewrite orb_true_r. reflexivity.
Qed.

Lemma mark_url_char a c :
  url_char (ch a) = true -> is_char a c = true -> url_char c = true.
Proof. intros U E. apply is_char_eq in E. subst c. exact U. Qed.

Lemma imageUrlRegex_classes : classes_within url_char imageUrlRegex.
Proof.
  unfold imageUrlRegex.
  cbn [seqs alts lit lit_ci classes_within Plus].
  repeat split;
    first [ intros c; apply letter_ci_url_char; reflexivity
          | intros c; apply mark_url_char; reflexivity
          | intros c H; exact H ].
Qed.

(** X13. An image address of the analysis holds
    no white space, no angle bracket and no quote of either kind, and it
    contains [://]. *)
Theorem image_addresses_are_solid (text : jsstring) :
  Forall (fun u => forallb url_char u = true
                   /\ includes u (js "://") = true)
         (imageUrls (analyze text)).
Proof.
  apply Forall_forall. intros u I. cbn [analyze imageUrls] in I.
  rewrite set_of_first_occurrences in I. apply In_first_occurrences in I.
  unfold match_g in I. apply in_map_iff in I. destruct I as (m & <- & I).
  pose proof (match_all_produced imageUrlRegex text) as F.
  rewrite Forall_forall in F. destruct (F m I) as (p & y & M & _).
  apply match_at_sound in M. destruct M as (w & R & _ & L).
  apply app_inv_tail in R. subst w.
  split; [exact (lang_within _ _ _ _ _ _ _ imageUrlRegex_classes L) |].
  unfold imageUrlRegex in L. cbn [seqs] in L.
  inversion L as [| | r1 r2 p0 w1 w2 s0 ci cm co L1 L2 | | | | | | | | | |];
    subst; clear L.
  inversion L2 as [| | r1 r2 p0 w3 w4 s0 ci cm' co L3 L4 | | | | | | | | | |];
    subst; clear L2.
  inversion L4 as [| | r1 r2 p0 w5 w6 s0 ci cm'' co L5 L6 | | | | | | | | | |];
    subst; clear L4.
  assert (E : w5 = js "://").
  { clear - L5. unfold lit in L5. inv_lang.
    repeat match goal with
           | H : is_char _ _ = true |- _ => apply is_char_eq in H; subst
           end.
    reflexivity. }
  subst w5. rewrite !app_assoc. rewrite <- (app_assoc _ (js "://") w6).
  apply includes_found.
Qed.


(** ** The Baidu service seen from the page *)

Lemma handleTranslate_rejected translate text message st :
  text <> [] ->
  translate text = RejectedError message ->
  translationError (handleTranslate translate text st)
  = Some (if includes message (js "54004") then errorBalance else message)
  /\ translatedText (handleTranslate translate text st) = textFailed.
Proof.
  intros N E. unfold handleTranslate.
  destruct text as [| c text]; [contradiction |].
  cbn [truthy negb]. rewrite E. split; reflexivity.
Qed.

(** A text is found after a prefix that lacks its first character exactly
    when it is found without the prefix. *)
Lemma includes_after_foreign p0 pat a b :
  forallb (fun c => negb (N.eqb p0 c)) a = true ->
  includes (a ++ b) (p0 :: pat) = includes b (p0 :: pat).
Proof.
  induction a as [| c a IH]; [reflexivity |]. cbn [forallb app].
  intros H. apply andb_prop in H. destruct H as [C H].
  rewrite includes_eq, (IH H). cbn [starts_with].
  apply negb_true_iff in C. rewrite C. reflexivity.
Qed.

Lemma shown_with_prefix detail :
  includes (js "翻译失败: " ++ detail) (js "54004")
  = includes detail (js "54004").
Proof. apply (includes_after_foreign (ch "5") (js "4004")). reflexivity. Qed.

Lemma jsonp_calls response :
  jsonp (ScriptCalls response)
  = match response with
    | JUndefined | JNull => None
    | _ =>
      if truthy_json (field response (js "error_code"))
      then
        match to_text (field response (js "error_code")) with
        | None => None
        | Some code =>
          match to_text (field response (js "error_msg")) with
          | None => None
          | Some msg => Some (Rejected (code ++ js ": " ++ msg))
          end
        end
      else Some (Fulfilled response)
    end.
Proof. reflexivity. Qed.

Lemma field_object v key :
  field v key <> JUndefined -> exists fields, v = JObject fields.
Proof.
  destruct v; cbn [field]; try congruence. intros _. eexists. reflexivity.
Qed.

(** X14. What the page shows when the Baidu service
    fails. A response with a truthy [error_code] gives the insufficient
    balance message exactly when the code, a colon, a space and the error
    message, as text, contain 54004, and else these after the service's
    prefix; a script that fails to load gives the network message after the
    prefix; a response without a first translation result gives the format
    message after the prefix. The prefix plays no part in the test for
    54004. *)
Theorem baidu_failures_as_shown
        (translate : jsstring -> outcome) (text message : jsstring)
        (st : AppState) (ev : jsonp_event) :
  text <> [] ->
  baiduTranslate ev = Some (Rejected message) ->
  translate text = RejectedError message ->
  let shown := translationError (handleTranslate translate text st) in
  match ev with
  | ScriptFails => shown = Some (js "翻译失败: 网络请求失败")
  | ScriptCalls response =>
    if truthy_json (field response (js "error_code"))
    then
      exists code msg,
        to_text (field response (js "error_code")) = Some code
        /\ to_text (field response (js "error_msg")) = Some msg
        /\ shown = Some (if includes (code ++ js ": " ++ msg) (js "54004")
                         then errorBalance
                         else js "翻译失败: " ++ code ++ js ": " ++ msg)
    else shown = Some (js "翻译失败: 翻译结果格式错误")
  end.
Proof.
  intros N B T shown.
  destruct (handleTranslate_rejected translate text message st N T) as [E _].
  unfold shown. rewrite E. clear E shown T.
  unfold baiduTranslate in B.
  destruct ev as [response |].
  - rewrite jsonp_calls in B.
    destruct (truthy_json (field response (js "error_code"))) eqn:C.
    + destruct (to_text (field response (js "error_code"))) as [code |];
        [| destruct response; discriminate].
      destruct (to_text (field response (js "error_msg"))) as [msg |];
        [| destruct response; discriminate].
      exists code, msg. split; [reflexivity |]. split; [reflexivity |].
      assert (M : message = js "翻译失败: " ++ (code ++ js ": " ++ msg))
        by (destruct response; try discriminate; injection B as <-;
            reflexivity).
      rewrite M, shown_with_prefix. reflexivity.
    + assert (M : message = js "翻译失败: " ++ js "翻译结果格式错误").
      { destruct response; try discriminate;
          match type of B with
          | context [if ?b then _ else _] => destruct b
          end; try discriminate; injection B as <-; reflexivity. }
      rewrite M. vm_compute. reflexivity.
  - injection B as <-. vm_compute. reflexivity.
Qed.

Lemma baidu_failures_witness :
  let response :=
      JObject [ (js "error_code", JString (js "54004"));
                (js "error_msg", JString (js "Please recharge")) ] in
  let shown :=
      translationError
        (handleTranslate
           (fun _ => RejectedError (js "翻译失败: 54004: Please recharge"))
           (js "a cat") initialState) in
  exists code msg,
    to_text (field response (js "error_code")) = Some code
    /\ to_text (field response (js "error_msg")) = Some msg
    /\ shown = Some (if includes (code ++ js ": " ++ msg) (js "54004")
                     then errorBalance
                     else js "翻译失败: " ++ code ++ js ": " ++ msg).
Proof.
  exact (baidu_failures_as_shown
           (fun _ => RejectedError (js "翻译失败: 54004: Please recharge"))
           (js "a cat") (js "翻译失败: 54004: Please recharge") initialState
           (ScriptCalls
              (JObject [ (js "error_code", JString (js "54004"));
                         (js "error_msg", JString (js "Please recharge")) ]))
           ltac:(discriminate)
           ltac:(vm_compute; reflexivity)
           ltac:(vm_compute; reflexivity)).
Defined.

(** X15. Of the results the Baidu service
    sends, the first is the translation and the others are not looked at:
    for a response without a truthy [error_code] whose first result has a
    string as [dst], the promise of the service is fulfilled with this
    string, whatever the other results and the other fields are; and when
    the call made by the page ends as this promise does, the page shows the
    string, pairs the sentences of the text with it and shows no error. *)
Theorem baidu_uses_the_first_result
        (translate : jsstring -> outcome) (text d : jsstring) (st : AppState)
        (response first : json) (others : list json) :
  text <> [] ->
  truthy_json (field response (js "error_code")) = false ->
  field response (js "trans_result") = JArray (first :: others) ->
  field first (js "dst") = JString d ->
  (forall r, baiduTranslate (ScriptCalls response) = Some r ->
             outcome_of r = Some (translate text)) ->
  baiduTranslate (ScriptCalls response) = Some (Fulfilled (JString d))
  /\ translate text = Resolved d
  /\ translatedText (handleTranslate translate text st) = d
  /\ textMappings (handleTranslate translate text st) = align text d
  /\ translationError (handleTranslate translate text st) = None.
Proof.
  intros N C R D O.
  assert (E : baiduTranslate (ScriptCalls response)
              = Some (Fulfilled (JString d))).
  { destruct (field_object response (js "trans_result")) as [fields ->];
      [congruence |].
    destruct (field_object first (js "dst")) as [fields' F];
      [congruence |].
    unfold baiduTranslate. rewrite jsonp_calls, C, R. cbn [first_item].
    rewrite D, F. reflexivity. }
  split; [exact E |].
  specialize (O _ E). cbn [outcome_of] in O. injection O as O.
  split; [symmetry; exact O |].
  unfold handleTranslate.
  destruct text as [| c text]; [contradiction |].
  cbn [truthy negb]. rewrite <- O. auto.
Qed.

Lemma baidu_first_result_witness :
  let response :=
      JObject [ (js "from", JString (js "en"));
                (js "trans_result",
                 JArray [ JObject [ (js "src", JString (js "a cat"));
                                    (js "dst", JString (js "一只猫")) ];
                          JObject [ (js "dst", JString (js "第二行")) ] ]) ] in
  let translate := fun _ : jsstring => Resolved (js "一只猫") in
  baiduTranslate (ScriptCalls response)
  = Some (Fulfilled (JString (js "一只猫")))
  /\ translate (js "a cat") = Resolved (js "一只猫")
  /\ translatedText (handleTranslate translate (js "a cat") initialState)
     = js "一只猫"
  /\ textMappings (handleTranslate translate (js "a cat") initialState)
     = align (js "a cat") (js "一只猫")
  /\ translationError (handleTranslate translate (js "a cat") initialState)
     = None.
Proof.
  refine (baidu_uses_the_first_result
            (fun _ => Resolved (js "一只猫")) (js "a cat") (js "一只猫")
            initialState
            (JObject [ (js "from", JString (js "en"));
                       (js "trans_result",
                        JArray [ JObject [ (js "src", JString (js "a cat"));
                                           (js "dst", JString (js "一只猫")) ];
                                 JObject [ (js "dst",
                                            JString (js "第二行")) ] ]) ])
            (JObject [ (js "src", JString (js "a cat"));
                       (js "dst", JString (js "一只猫")) ])
            [ JObject [ (js "dst", JString (js "第二行")) ] ]
            _ _ _ _ _).
  - discriminate.
  - vm_compute. reflexivity.
  - vm_compute. reflexivity.
  - vm_compute. reflexivity.
  - intros r B. vm_compute in B. injection B as <-. vm_compute. reflexivity.
Defined.


(** ** The page and its events *)

Lemma handleTranslate_keeps translate text st :
  prompt (handleTranslate translate text st) = prompt st
  /\ analysis (handleTranslate translate text st) = analysis st
  /\ editingParam (handleTranslate translate text st) = editingParam st
  /\ paramValue (handleTranslate translate text st) = paramValue st.
Proof.
  unfold handleTranslate. destruct (negb (truthy text)); [auto |].
  destruct (translate text); auto.
Qed.

Lemma analyzePrompt_keeps translate text st :
  prompt (analyzePrompt translate text st) = prompt st
  /\ analysis (analyzePrompt translate text st) = Some (analyze text)
  /\ editingParam (analyzePrompt translate text st) = editingParam st
  /\ paramValue (analyzePrompt translate text st) = paramValue st.
Proof.
  unfold analyzePrompt.
  match goal with
  | |- context [handleTranslate translate ?t ?s] =>
    destruct (handleTranslate_keeps translate t s) as (P & A & E & V)
  end.
  rewrite P, A, E, V. auto.
Qed.

Lemma stopEditing_keeps st :
  prompt (stopEditing st) = prompt st
  /\ analysis (stopEditing st) = analysis st
  /\ editingParam (stopEditing st) = None
  /\ paramValue (stopEditing st) = [].
Proof. auto. Qed.

Lemma updateParameter_keeps translate n v st a :
  analysis st = Some a ->
  prompt (updateParameter translate n v st) = updatedPrompt (prompt st) n v
  /\ analysis (updateParameter translate n v st)
     = Some (analyze (updatedPrompt (prompt st) n v))
  /\ editingParam (updateParameter translate n v st) = None
  /\ paramValue (updateParameter translate n v st) = [].
Proof.
  intros A. unfold updateParameter. rewrite A. cbv zeta.
  generalize (updatedPrompt (prompt st) n v). intros p.
  destruct (stopEditing_keeps (analyzePrompt translate p (setPrompt p st)))
    as (P1 & A1 & E1 & V1).
  destruct (analyzePrompt_keeps translate p (setPrompt p st))
    as (P2 & A2 & _ & _).
  rewrite P1, A1, E1, V1, P2, A2, prompt_setPrompt. auto.
Qed.

Lemma handleAddParameter_keeps translate key st st' :
  handleAddParameter translate key st = Some st' ->
  addedPrompt (prompt st) key = Some (prompt st')
  /\ analysis st' = Some (analyze (prompt st'))
  /\ editingParam st' = editingParam st
  /\ paramValue st' = paramValue st.
Proof.
  unfold handleAddParameter.
  destruct (addedPrompt (prompt st) key) as [p |]; [| discriminate].
  intros [= <-].
  destruct (analyzePrompt_keeps translate p (setPrompt p st))
    as (P & A & E & V).
  rewrite P, A, E, V. auto.
Qed.

(** What holds of a state of the page: the analysis is that of the prompt,
    and the value being edited is empty when no parameter is edited. *)
Lemma step_consistent answers e ui ui' :
  step answers e ui = Some ui' ->
  (match analysis (state ui) with
   | None => prompt (state ui) = []
   | Some a => a = analyze (prompt (state ui))
   end
   /\ (editingParam (state ui) = None -> paramValue (state ui) = [])) ->
  match analysis (state ui') with
  | None => prompt (state ui') = []
  | Some a => a = analyze (prompt (state ui'))
  end
  /\ (editingParam (state ui') = None -> paramValue (state ui') = []).
Proof.
  intros S [I V]. destruct ui as [st sel]. cbn [state] in *.
  destruct e as [newValue | service | | i | i v | i | i | key];
    cbn [step state selectedService] in S.
  - injection S as <-. cbn [state].
    destruct (analyzePrompt_keeps (answers sel) newValue
                                  (setPrompt newValue st))
      as (P & A & E & W).
    rewrite P, A, E, W. auto.
  - destruct (find _ translationServices); injection S as <-; cbn [state];
      [| auto].
    destruct (analysis st) as [a |] eqn:A; [| rewrite A; auto].
    destruct (descriptions a) as [| d ds]; [rewrite A; auto |].
    destruct (handleTranslate_keeps (answers sel) d st) as (P & An & E & W).
    rewrite P, An, E, W, A. auto.
  - destruct (analysis st) as [a |] eqn:A; [| discriminate].
    destruct (descriptions a) as [| d ds]; [discriminate |].
    destruct (isTranslating st); [discriminate |].
    destruct (translationError st) as [[| c m] |]; try discriminate.
    injection S as <-. cbn [state].
    destruct (handleTranslate_keeps (answers sel) d st) as (P & An & E & W).
    rewrite P, An, E, W, A. auto.
  - destruct (analysis st) as [a |] eqn:A; [| discriminate].
    destruct (nth_error (parameters a) i) as [p |]; [| discriminate].
    destruct (is_editing st p); [discriminate |].
    injection S as <-. cbn [state startEditing analysis prompt editingParam].
    rewrite A. split; [exact I | discriminate].
  - destruct (analysis st) as [a |] eqn:A; [| discriminate].
    destruct (nth_error (parameters a) i) as [p |]; [| discriminate].
    destruct (is_editing st p) eqn:Ed; [| discriminate].
    injection S as <-. cbn [state setParamValue analysis prompt editingParam].
    rewrite A. split; [exact I |].
    unfold is_editing in Ed. intros N. rewrite N in Ed. discriminate.
  - destruct (analysis st) as [a |] eqn:A; [| discriminate].
    destruct (nth_error (parameters a) i) as [p |]; [| discriminate].
    destruct (is_editing st p); [| discriminate].
    injection S as <-. cbn [state].
    destruct (updateParameter_keeps (answers sel) (name p) (paramValue st)
                                    st a A) as (P & An & E & W).
    rewrite An, P. auto.
  - destruct (analysis st) as [a |] eqn:A; [| discriminate].
    destruct (nth_error (parameters a) i) as [p |]; [| discriminate].
    destruct (is_editing st p); [| discriminate].
    injection S as <-. cbn [state stopEditing analysis prompt editingParam
                                  paramValue].
    rewrite A. auto.
  - destruct (analysis st) as [a |] eqn:A; [| discriminate].
    destruct (existsb _ (availableParameters a)); [| discriminate].
    destruct (handleAddParameter (answers sel) key st) as [st' |] eqn:H;
      [| discriminate].
    injection S as <-. cbn [state].
    destruct (handleAddParameter_keeps _ _ _ _ H) as (_ & An & E & W).
    rewrite An, E, W. auto.
Qed.

Lemma reachable_consistent ui :
  reachable ui ->
  match analysis (state ui) with
  | None => prompt (state ui) = []
  | Some a => a = analyze (prompt (state ui))
  end
  /\ (editingParam (state ui) = None -> paramValue (state ui) = []).
Proof.
  induction 1 as [| answers e ui ui' _ IH S].
  - cbn. auto.
  - exact (step_consistent answers e ui ui' S IH).
Qed.

(** X16. Whatever the user does on
    the page, in whatever order, and however the services answer, the
    analysis shown is the analysis of the prompt in the text area (there is
    none only while the prompt is still empty), and the value in the edit box
    is empty whenever no parameter is being edited. *)
Theorem page_shows_the_analysis_of_its_prompt (ui : Page) :
  reachable ui ->
  match analysis (state ui) with
  | None => prompt (state ui) = []
  | Some a => a = analyze (prompt (state ui))
  end
  /\ (editingParam (state ui) = None -> paramValue (state ui) = []).
Proof.
  induction 1 as [| answers e ui ui' _ IH S].
  - split; reflexivity.
  - exact (step_consistent answers e ui ui' S IH).
Qed.

Lemma page_analysis_witness :
  exists ui,
    reachable ui
    /\ prompt (state ui) = js "a cat --ar 16:9"
    /\ option_map parameters (analysis (state ui))
       = Some [ {| name := js "ar"; value := js "16:9"; enabled := true |} ]
    /\ paramValue (state ui) = [].
Proof.
  pose (answers := fun (_ : TranslationService) (_ : jsstring) =>
                     RejectedOther).
  pose (ui0 := initialPage).
  destruct (step answers (PromptChange (js "a cat --ar 1:1")) ui0)
    as [ui1 |] eqn:S1; [| vm_compute in S1; discriminate].
  destruct (step answers (ParamClick 0) ui1)
    as [ui2 |] eqn:S2;
    [| vm_compute in S1; injection S1 as <-; vm_compute in S2; discriminate].
  destruct (step answers (ParamValueChange 0 (js "16:9")) ui2)
    as [ui3 |] eqn:S3;
    [| vm_compute in S1; injection S1 as <-;
       vm_compute in S2; injection S2 as <-;
       vm_compute in S3; discriminate].
  destruct (step answers (Confirm 0) ui3)
    as [ui4 |] eqn:S4;
    [| vm_compute in S1; injection S1 as <-;
       vm_compute in S2; injection S2 as <-;
       vm_compute in S3; injection S3 as <-;
       vm_compute in S4; discriminate].
  assert (R : reachable ui4).
  { refine (reachable_step answers _ ui3 ui4 _ S4).
    refine (reachable_step answers _ ui2 ui3 _ S3).
    refine (reachable_step answers _ ui1 ui2 _ S2).
    refine (reachable_step answers _ ui0 ui1 _ S1).
    exact reachable_first. }
  exists ui4. split; [exact R |].
  destruct (page_shows_the_analysis_of_its_prompt ui4 R) as [I V].
  vm_compute in S1; injection S1 as <-.
  vm_compute in S2; injection S2 as <-.
  vm_compute in S3; injection S3 as <-.
  vm_compute in S4; injection S4 as <-.
  split; [vm_compute; reflexivity |].
  split; [vm_compute; reflexivity |].
  apply V. reflexivity.
Defined.

(** X17. On the page an update is only ever
    confirmed for a parameter that the analysis found in the prompt of the
    text area: its name is made of letters and digits and its flag occurs in
    the prompt, so that the pattern built from the name is the name itself
    and finds a match. After the update the prompt is the rewritten one, the
    analysis is that of the rewritten prompt, and editing has stopped. *)
Theorem page_confirms_found_parameters
        (answers : TranslationService -> jsstring -> outcome)
        (i : nat) (ui ui' : Page) :
  reachable ui ->
  step answers (Confirm i) ui = Some ui' ->
  exists p,
    nth_error (parameters (analyze (prompt (state ui)))) i = Some p
    /\ editingParam (state ui) = Some (name p)
    /\ name p <> [] /\ forallb is_alnum (name p) = true
    /\ includes (prompt (state ui)) (js "--" ++ name p) = true
    /\ prompt (state ui')
       = updatedPrompt (prompt (state ui)) (name p) (paramValue (state ui))
    /\ analysis (state ui') = Some (analyze (prompt (state ui')))
    /\ editingParam (state ui') = None
    /\ paramValue (state ui') = []
    /\ selectedService ui' = selectedService ui.
Proof.
  intros R S. destruct (reachable_consistent ui R) as [I _].
  destruct ui as [st sel]. cbn [step state selectedService] in *.
  destruct (analysis st) as [a |] eqn:A; [| discriminate]. subst a.
  destruct (nth_error (parameters (analyze (prompt st))) i) as [p |] eqn:Nth;
    [| discriminate].
  destruct (is_editing st p) eqn:Ed; [| discriminate].
  injection S as <-. cbn [state selectedService].
  exists p. split; [reflexivity |].
  assert (En : editingParam st = Some (name p)).
  { unfold is_editing in Ed. destruct (editingParam st) as [n |];
      [| discriminate].
    unfold jseqb in Ed. destruct (list_eq_dec N.eq_dec n (name p));
      [subst; reflexivity | discriminate]. }
  split; [exact En |].
  destruct (parameter_in_text (prompt st) p (nth_error_In _ _ Nth))
    as (N & Al & Inc).
  destruct (updateParameter_keeps (answers sel) (name p) (paramValue st) st
                                  _ A) as (P & An & E & W).
  rewrite An, P. auto 10.
Qed.

Lemma page_confirms_witness :
  exists ui',
    step (fun _ _ => RejectedOther) (Confirm 0)
         {| state := startEditing
                       {| name := js "ar"; value := js "1:1"; enabled := true |}
                       (analyzePrompt (fun _ => RejectedOther)
                                      (js "a cat --ar 1:1")
                                      (setPrompt (js "a cat --ar 1:1")
                                                 initialState));
            selectedService := GoogleTranslationService |}
    = Some ui'
    /\ prompt (state ui') = js "a cat --ar 1:1".
Proof.
  pose (answers := fun (_ : TranslationService) (_ : jsstring) =>
                     RejectedOther).
  pose (ui0 := initialPage).
  destruct (step answers (PromptChange (js "a cat --ar 1:1")) ui0)
    as [ui1 |] eqn:S1; [| vm_compute in S1; discriminate].
  destruct (step answers (ParamClick 0) ui1)
    as [ui2 |] eqn:S2;
    [| vm_compute in S1; injection S1 as <-; vm_compute in S2; discriminate].
  destruct (step answers (Confirm 0) ui2)
    as [ui3 |] eqn:S3;
    [| vm_compute in S1; injection S1 as <-;
       vm_compute in S2; injection S2 as <-;
       vm_compute in S3; discriminate].
  assert (R : reachable ui2).
  { refine (reachable_step answers _ ui1 ui2 _ S2).
    refine (reachable_step answers _ ui0 ui1 _ S1).
    exact reachable_first. }
  destruct (page_confirms_found_parameters answers 0 ui2 ui3 R S3)
    as (p & Nth & _ & _ & _ & _ & P & _).
  vm_compute in S1; injection S1 as <-.
  vm_compute in S2; injection S2 as <-.
  exists ui3. split; [vm_compute in S3 |- *; exact S3 |].
  rewrite P. vm_compute in Nth. injection Nth as <-.
  vm_compute. reflexivity.
Defined.

Lemma descriptions_solid t d :
  In d (descriptions (analyze t)) -> d <> [].
Proof.
  unfold analyze. cbn [descriptions]. intros H.
  apply filter_In in H. destruct H as [_ H]. intros ->. discriminate.
Qed.

(** X18. Choosing a service in the
    list while a description is shown sends the first line of the
    description, and that line only, to the service that was selected before
    the choice, not to the one chosen: what the page then shows is the
    answer of the service selected before, while the list shows the one
    chosen. *)
Theorem service_change_asks_the_previous_service
        (answers : TranslationService -> jsstring -> outcome)
        (s : TranslationService) (ui ui' : Page)
        (a : PromptAnalysis) (d : jsstring) (ds : list jsstring) :
  reachable ui ->
  analysis (state ui) = Some a ->
  descriptions a = d :: ds ->
  step answers (ServiceChange (service_name s)) ui = Some ui' ->
  selectedService ui' = s
  /\ state ui' = handleTranslate (answers (selectedService ui)) d (state ui)
  /\ d <> []
  /\ match answers (selectedService ui) d with
     | Resolved result =>
       translatedText (state ui') = result
       /\ textMappings (state ui') = align d result
       /\ translationError (state ui') = None
     | RejectedError message =>
       translationError (state ui')
       = Some (if includes message (js "54004") then errorBalance
               else message)
     | RejectedOther => translationError (state ui') = Some errorUnknown
     end.
Proof.
  intros R A D S. destruct (reachable_consistent ui R) as [I _].
  rewrite A in I.
  assert (N : d <> []).
  { apply (descriptions_solid (prompt (state ui))). rewrite <- I, D.
    left. reflexivity. }
  destruct ui as [st sel]. cbn [step state selectedService] in *.
  assert (F : find (fun s' => jseqb (service_name s') (service_name s))
                   translationServices = Some s)
    by (destruct s; vm_compute; reflexivity).
  rewrite F, A, D in S. injection S as <-. cbn [state selectedService].
  split; [reflexivity |]. split; [reflexivity |]. split; [exact N |].
  unfold handleTranslate. destruct d as [| c d]; [contradiction |].
  cbn [truthy negb].
  destruct (answers sel (c :: d)); cbn; auto.
Qed.

Lemma service_change_witness :
  exists ui',
    step (fun s _ => match s with
                     | GoogleTranslationService => Resolved (js "一只猫")
                     | BaiduTranslationService => Resolved (js "猫")
                     end)
         (ServiceChange (js "百度翻译"))
         {| state := analyzePrompt (fun _ => Resolved (js "一只猫"))
                                   (js "a cat")
                                   (setPrompt (js "a cat") initialState);
            selectedService := GoogleTranslationService |}
    = Some ui'
    /\ selectedService ui' = BaiduTranslationService
    /\ translatedText (state ui') = js "一只猫".
Proof.
  pose (answers := fun (s : TranslationService) (_ : jsstring) =>
                     match s with
                     | GoogleTranslationService => Resolved (js "一只猫")
                     | BaiduTranslationService => Resolved (js "猫")
                     end).
  pose (ui0 := initialPage).
  destruct (step answers (PromptChange (js "a cat")) ui0)
    as [ui1 |] eqn:S1; [| vm_compute in S1; discriminate].
  destruct (step answers (ServiceChange (service_name BaiduTranslationService))
                 ui1)
    as [ui2 |] eqn:S2;
    [| vm_compute in S1; injection S1 as <-; vm_compute in S2; discriminate].
  assert (R : reachable ui1).
  { refine (reachable_step answers _ ui0 ui1 _ S1).
    exact reachable_first. }
  vm_compute in S1; injection S1 as E1.
  destruct (service_change_asks_the_previous_service
              answers BaiduTranslationService ui1 ui2
              (analyze (js "a cat")) (js "a cat") [] R)
    as (Sel & St & _ & T).
  - rewrite <- E1. vm_compute. reflexivity.
  - vm_compute. reflexivity.
  - exact S2.
  - exists ui2. rewrite <- E1 in S2, T. vm_compute in S2, T |- *.
    destruct T as (T & _). auto.
Defined.

(** *** Opening the editor of a parameter *)

Lemma parameter_solid t q :
  In q (params_in t) ->
  forallb non_space (value q) = true /\ enabled q = true.
Proof.
  intros H. apply in_split in H. destruct H as (ps1 & ps2 & P).
  destruct (params_in_split (length t) t ps1 q ps2 (Nat.le_refl _) P)
    as (pre & b & rem & _ & _ & R & _).
  rewrite read_flag_eq in R.
  destruct b as [| d1 [| d2 rest1]]; try discriminate.
  destruct (is_char "-" d1 && is_char "-" d2 && starts_in is_alnum rest1);
    [| discriminate].
  injection R as <- _. cbn [value enabled].
  split; [apply value_part_solid | reflexivity].
Qed.

Lemma is_editing_started p st : is_editing (startEditing p st) p = true.
Proof. unfold is_editing. cbn [startEditing editingParam]. apply jseqb_refl. Qed.



(** X20. Opening the editor of a
    parameter that has a value and confirming the value as it stands leaves
    the parameters of the analysis as they were, when the value has no
    dollar sign and does not start with a colon and no parameter before it
    has a name that begins with its name or a value that contains its
    flag. *)
Theorem confirm_unchanged_keeps_parameters
        (answers answers' : TranslationService -> jsstring -> outcome)
        (i : nat) (ui ui1 ui2 : Page)
        (ps1 ps2 : list ExtractedParameter) (q : ExtractedParameter) :
  reachable ui ->
  option_map parameters (analysis (state ui)) = Some (ps1 ++ q :: ps2) ->
  length ps1 = i ->
  Forall (fun q' => starts_with (name q) (name q') = false
                    /\ includes (value q') (js "--" ++ name q) = false) ps1 ->
  value q <> [] ->
  forallb (fun c => negb (is_char "$" c)) (value q) = true ->
  starts_in (is_char ":") (value q) = false ->
  step answers (ParamClick i) ui = Some ui1 ->
  step answers' (Confirm i) ui1 = Some ui2 ->
  option_map parameters (analysis (state ui2)) = Some (ps1 ++ q :: ps2)
  /\ editingParam (state ui2) = None
  /\ paramValue (state ui2) = [].
Proof.
  intros R P L F V D C S1 S2. destruct (reachable_consistent ui R) as [I _].
  destruct ui as [st sel]. cbn [step state selectedService] in *.
  destruct (analysis st) as [a |] eqn:A; [| discriminate]. subst a.
  change (Some (parameters (analyze (prompt st))) = Some (ps1 ++ q :: ps2))
    in P.
  assert (P' : parameters (analyze (prompt st)) = ps1 ++ q :: ps2)
    by congruence.
  clear P. rename P' into P.
  assert (Nth : nth_error (parameters (analyze (prompt st))) i = Some q).
  { rewrite P, <- L, nth_error_app2, Nat.sub_diag by lia. reflexivity. }
  rewrite Nth in S1. destruct (is_editing st q); [discriminate |].
  injection S1 as <-. cbn [step state selectedService startEditing analysis]
    in S2.
  rewrite A, Nth in S2.
  change (is_editing _ q) with (is_editing (startEditing q st) q) in S2.
  rewrite is_editing_started in S2. injection S2 as <-.
  cbn [state paramValue].
  assert (As : analysis (startEditing q st) = Some (analyze (prompt st)))
    by exact A.
  destruct (updateParameter_keeps (answers' sel) (name q)
              (str_or (value q) []) (startEditing q st) _ As)
    as (_ & An & E & W).
  change (updateParameter (answers' sel) (name q) (str_or (value q) [])
            {| prompt := prompt st; analysis := analysis st;
               editingParam := Some (name q);
               paramValue := str_or (value q) [];
               translationError := translationError st;
               translatedText := translatedText st;
               isTranslating := isTranslating st;
               textMappings := textMappings st |})
    with (updateParameter (answers' sel) (name q) (str_or (value q) [])
            (startEditing q st)).
  rewrite An, E, W. split; [| auto]. cbn [option_map]. f_equal.
  change (prompt (startEditing q st)) with (prompt st).
  assert (Q : In q (params_in (prompt st)))
    by (unfold params_in; rewrite P; apply in_elt).
  destruct (parameter_solid _ _ Q) as [Sd En].
  assert (Sv : str_or (value q) [] = value q).
  { unfold str_or. destruct (value q); [contradiction | reflexivity]. }
  rewrite Sv.
  rewrite (updated_parameters (prompt st) (value q) ps1 ps2 q P F V Sd D C).
  destruct q as [n v e]. cbn [name value enabled] in *. subst e. reflexivity.
Qed.

Lemma confirm_unchanged_witness :
  exists ui2,
    step (fun _ _ => RejectedOther) (Confirm 1)
         {| state := startEditing
                       {| name := js "v"; value := js "5"; enabled := true |}
                       (analyzePrompt (fun _ => RejectedOther)
                                      (js "a cat --ar  1:1 --v 5")
                                      (setPrompt (js "a cat --ar  1:1 --v 5")
                                                 initialState));
            selectedService := GoogleTranslationService |}
    = Some ui2
    /\ option_map parameters (analysis (state ui2))
       = Some [ {| name := js "ar"; value := js "1:1"; enabled := true |};
                {| name := js "v"; value := js "5"; enabled := true |} ].
Proof.
  pose (answers := fun (_ : TranslationService) (_ : jsstring) =>
                     RejectedOther).
  destruct (step answers (PromptChange (js "a cat --ar  1:1 --v 5"))
                 initialPage)
    as [ui |] eqn:S0; [| vm_compute in S0; discriminate].
  destruct (step answers (ParamClick 1) ui)
    as [ui1 |] eqn:S1;
    [| vm_compute in S0; injection S0 as <-; vm_compute in S1; discriminate].
  destruct (step answers (Confirm 1) ui1)
    as [ui2 |] eqn:S2;
    [| vm_compute in S0; injection S0 as <-;
       vm_compute in S1; injection S1 as <-;
       vm_compute in S2; discriminate].
  assert (R : reachable ui)
    by exact (reachable_step answers _ initialPage ui reachable_first S0).
  destruct (confirm_unchanged_keeps_parameters
              answers answers 1 ui ui1 ui2
              [ {| name := js "ar"; value := js "1:1"; enabled := true |} ] []
              {| name := js "v"; value := js "5"; enabled := true |} R)
    as (P & _); trivial.
  - vm_compute in S0; injection S0 as <-. vm_compute. reflexivity.
  - constructor; [split; reflexivity | constructor].
  - discriminate.
  - exists ui2. split; [| exact P].
    vm_compute in S0; injection S0 as <-.
    vm_compute in S1; injection S1 as <-.
    vm_compute in S2 |- *. exact S2.
Defined.


(** ** The image view *)

(** *** Numbers *)

Lemma nan_spec f : is_nan f = true <-> Prim2SF f = S754_nan.
Proof.
  unfold Prim2SF. destruct (is_nan f); split; try reflexivity; try discriminate.
  destruct (is_zero f); [discriminate |].
  destruct (is_infinity f); [discriminate |].
  destruct (Z.frexp f) as [r ex].
  destruct (shr_fexp prec emax _ _ _) as [sh e'].
  destruct (shr_m sh); discriminate.
Qed.

Lemma not_nan_spec f : is_nan f = false <-> Prim2SF f <> S754_nan.
Proof.
  rewrite <- nan_spec. destruct (is_nan f); split; congruence.
Qed.

Lemma SFcompare_antisym x y :
  SFcompare y x = option_map CompOpp (SFcompare x y).
Proof.
  destruct x as [sx | sx | | sx mx ex], y as [sy | sy | | sy my ey];
    try reflexivity; try (destruct sx; reflexivity);
    try (destruct sy; reflexivity);
    try (destruct sx, sy; reflexivity).
  cbn [SFcompare option_map].
  pose proof (Pos.compare_cont_antisym mx my Eq) as P. cbn [CompOpp] in P.
  destruct sx, sy; try reflexivity; f_equal;
    rewrite (Z.compare_antisym ex ey);
    destruct (ex ?= ey)%Z; cbn [CompOpp]; try reflexivity;
    rewrite <- P, ?CompOpp_involutive; reflexivity.
Qed.

Lemma SFcompare_refl x : x <> S754_nan -> SFcompare x x = Some Eq.
Proof.
  destruct x as [s | s | | s m e]; try congruence; intros _;
    cbn [SFcompare]; try (destruct s; reflexivity).
  destruct s; rewrite Z.compare_refl;
    change (Pos.compare_cont Eq m m) with (Pos.compare m m);
    rewrite Pos.compare_refl; reflexivity.
Qed.

Lemma leb_refl f : is_nan f = false -> (f <=? f)%float = true.
Proof.
  intros N. rewrite leb_spec. unfold SFleb.
  rewrite SFcompare_refl; [reflexivity | apply not_nan_spec; exact N].
Qed.

Lemma ltb_leb a b : (a <? b)%float = true -> (a <=? b)%float = true.
Proof.
  rewrite ltb_spec, leb_spec. unfold SFltb, SFleb.
  destruct (SFcompare (Prim2SF a) (Prim2SF b)) as [[| |] |]; congruence.
Qed.

Lemma SFcompare_some x y :
  x <> S754_nan -> y <> S754_nan -> SFcompare x y <> None.
Proof.
  destruct x, y; cbn [SFcompare]; congruence.
Qed.

Lemma not_ltb_leb a b :
  is_nan a = false -> is_nan b = false ->
  (a <? b)%float = false -> (b <=? a)%float = true.
Proof.
  intros A B. rewrite ltb_spec, leb_spec. unfold SFltb, SFleb.
  rewrite (SFcompare_antisym (Prim2SF a) (Prim2SF b)).
  apply not_nan_spec in A, B.
  pose proof (SFcompare_some _ _ A B) as S.
  destruct (SFcompare (Prim2SF a) (Prim2SF b)) as [[| |] |];
    cbn; congruence.
Qed.

Lemma leb_not_nan a b :
  (a <=? b)%float = true -> is_nan a = false /\ is_nan b = false.
Proof.
  rewrite leb_spec, !not_nan_spec. unfold SFleb.
  destruct (Prim2SF a), (Prim2SF b); cbn [SFcompare]; try discriminate;
    split; discriminate.
Qed.

(** Rounding never makes a number into NaN. *)
Lemma shr_1_nonneg mrs : (0 <= shr_m mrs)%Z -> (0 <= shr_m (shr_1 mrs))%Z.
Proof.
  destruct mrs as [m r s]. destruct m as [| [p | p |] | [p | p |]];
    cbn; lia.
Qed.

Lemma iter_shr_1_nonneg p :
  forall mrs, (0 <= shr_m mrs)%Z -> (0 <= shr_m (iter_pos shr_1 p mrs))%Z.
Proof.
  induction p as [p IH | p IH |]; intros mrs H; cbn [iter_pos].
  - apply IH, IH, shr_1_nonneg, H.
  - apply IH, IH, H.
  - apply shr_1_nonneg, H.
Qed.

Lemma shr_fexp_nonneg prec emax m e l :
  (0 <= m)%Z -> (0 <= shr_m (fst (shr_fexp prec emax m e l)))%Z.
Proof.
  intros H. unfold shr_fexp, shr.
  assert (R : (0 <= shr_m (shr_record_of_loc m l))%Z)
    by (destruct l as [| []]; exact H).
  destruct (fexp prec emax (Zdigits2 m + e) - e)%Z; cbn [fst]; trivial.
  apply iter_shr_1_nonneg, R.
Qed.

Lemma round_nearest_even_nonneg m l :
  (0 <= m)%Z -> (0 <= round_nearest_even m l)%Z.
Proof.
  intros H. destruct l as [| []]; cbn [round_nearest_even]; try lia.
  destruct (Z.even m); lia.
Qed.

Lemma binary_round_aux_number prec emax sx m e l :
  (0 <= m)%Z -> binary_round_aux prec emax sx m e l <> S754_nan.
Proof.
  intros H. unfold binary_round_aux.
  pose proof (shr_fexp_nonneg prec emax m e l H) as H1.
  destruct (shr_fexp prec emax m e l) as [mrs' e']. cbn [fst] in H1.
  pose proof (shr_fexp_nonneg prec emax _ e' loc_Exact
                (round_nearest_even_nonneg _ (loc_of_shr_record mrs') H1))
    as H2.
  destruct (shr_fexp prec emax _ e' loc_Exact) as [mrs'' e''].
  cbn [fst] in H2.
  destruct (shr_m mrs'') as [| p | p]; [discriminate | | lia].
  destruct (e'' <=? emax - prec)%Z; discriminate.
Qed.

Lemma binary_round_number prec emax sx m e :
  binary_round prec emax sx m e <> S754_nan.
Proof.
  unfold binary_round. destruct (shl_align m e _) as [mz ez].
  apply binary_round_aux_number. lia.
Qed.

Lemma binary_normalize_number prec emax m e szero :
  binary_normalize prec emax m e szero <> S754_nan.
Proof.
  destruct m; cbn [binary_normalize]; [discriminate | |];
    apply binary_round_number.
Qed.

Lemma SFmul_number x s m e :
  x <> S754_nan -> SF64mul x (S754_finite s m e) <> S754_nan.
Proof.
  destruct x as [sx | sx | | sx mx ex]; try congruence; intros _;
    cbn [SF64mul SFmul]; try discriminate.
  apply binary_round_aux_number. lia.
Qed.

Lemma SFadd_number x y :
  bounded_number x -> y <> S754_nan -> SF64add x y <> S754_nan.
Proof.
  destruct x as [sx | sx | | sx mx ex]; cbn [bounded_number];
    try contradiction; intros _;
    destruct y as [sy | sy | | sy my ey]; try congruence; intros _;
    cbn [SF64add SFadd]; try discriminate.
  - destruct sx, sy; discriminate.
  - apply binary_normalize_number.
Qed.

Lemma between_is_bounded lo hi s :
  bounded_number (Prim2SF lo) -> bounded_number (Prim2SF hi) ->
  (lo <=? s)%float = true -> (s <=? hi)%float = true ->
  bounded_number (Prim2SF s).
Proof.
  rewrite !leb_spec. unfold SFleb.
  destruct (Prim2SF lo) as [sl | sl | | sl ml el]; cbn [bounded_number];
    try contradiction; intros _;
    destruct (Prim2SF hi) as [sh | sh | | sh mh eh]; cbn [bounded_number];
      try contradiction; intros _;
    destruct (Prim2SF s) as [ss | [|] | | ss ms es]; cbn [SFcompare bounded_number];
      try discriminate; trivial;
    try (destruct sl; discriminate); try (destruct sh; discriminate).
Qed.

(** A value that is not NaN is brought between the bounds. *)
Lemma Math_max_cases a b :
  is_nan a = false -> is_nan b = false ->
  (Math_max a b = a \/ Math_max a b = b)
  /\ (a <=? Math_max a b)%float = true
  /\ (b <=? Math_max a b)%float = true.
Proof.
  intros A B. unfold Math_max. rewrite A, B. cbn [orb].
  destruct (a <? b)%float eqn:L.
  - split; [right; reflexivity |]. split; [apply ltb_leb, L | apply leb_refl, B].
  - pose proof (not_ltb_leb a b A B L) as G.
    destruct (classify a) eqn:Ca; try (split; [left; reflexivity |];
      split; [apply leb_refl, A | exact G]).
    destruct (classify b) eqn:Cb; try (split; [left; reflexivity |];
      split; [apply leb_refl, A | exact G]).
    split; [right; reflexivity |]. split; [| apply leb_refl, B].
    revert Ca Cb. rewrite !classify_spec, leb_spec.
    unfold SF64classify, SFclassify, SFleb.
    destruct (Prim2SF a) as [[|] | [|] | | [|] ? ?]; try discriminate;
      try (destruct (_ =? _)%Z; discriminate).
    destruct (Prim2SF b) as [[|] | [|] | | [|] ? ?]; try discriminate;
      try (destruct (_ =? _)%Z; discriminate).
    reflexivity.
Qed.

Lemma Math_min_cases a b :
  is_nan a = false -> is_nan b = false ->
  (Math_min a b = a \/ Math_min a b = b)
  /\ (Math_min a b <=? a)%float = true
  /\ (Math_min a b <=? b)%float = true.
Proof.
  intros A B. unfold Math_min. rewrite A, B. cbn [orb].
  destruct (b <? a)%float eqn:L.
  - split; [right; reflexivity |]. split; [apply ltb_leb, L | apply leb_refl, B].
  - pose proof (not_ltb_leb b a B A L) as G.
    destruct (classify a) eqn:Ca; try (split; [left; reflexivity |];
      split; [apply leb_refl, A | exact G]).
    destruct (classify b) eqn:Cb; try (split; [left; reflexivity |];
      split; [apply leb_refl, A | exact G]).
    split; [right; reflexivity |]. split; [| apply leb_refl, B].
    revert Ca Cb. rewrite !classify_spec, leb_spec.
    unfold SF64classify, SFclassify, SFleb.
    destruct (Prim2SF a) as [[|] | [|] | | [|] ? ?]; try discriminate;
      try (destruct (_ =? _)%Z; discriminate).
    destruct (Prim2SF b) as [[|] | [|] | | [|] ? ?]; try discriminate;
      try (destruct (_ =? _)%Z; discriminate).
    reflexivity.
Qed.

Lemma clamp_between lo hi v :
  (lo <=? hi)%float = true -> is_nan v = false ->
  (lo <=? Math_min (Math_max lo v) hi)%float = true
  /\ (Math_min (Math_max lo v) hi <=? hi)%float = true.
Proof.
  intros B V. destruct (leb_not_nan lo hi B) as [L H].
  destruct (Math_max_cases lo v L V) as (_ & M1 & _).
  destruct (leb_not_nan _ _ M1) as [_ M].
  destruct (Math_min_cases (Math_max lo v) hi M H) as ([E | E] & _ & R2);
    split; try exact R2; rewrite E; assumption.
Qed.

Lemma handleWheel_scale e container st :
  is_nan (deltaY e) = false ->
  (1 <=? imageScale st)%float = true ->
  (imageScale st <=? 5)%float = true ->
  (1 <=? imageScale (handleWheel e container st))%float = true
  /\ (imageScale (handleWheel e container st) <=? 5)%float = true.
Proof.
  intros D L H. unfold handleWheel.
  set (delta := (deltaY e * _)%float).
  destruct ((delta <? 0)%float && (imageScale st <=? 1)%float);
    [split; assumption |].
  cbn [imageScale]. apply clamp_between; [reflexivity |].
  apply not_nan_spec. rewrite add_spec. apply SFadd_number.
  - apply (between_is_bounded 1 5); trivial; exact I.
  - unfold delta. rewrite mul_spec.
    change (Prim2SF (-0x1.47ae147ae147bp-7))
      with (S754_finite true 5764607523034235 (-59)).
    apply SFmul_number. apply not_nan_spec, D.
Qed.

(** X21. Whatever calls are made to the
    handlers of the enlarged image, and in whatever order, the scale stays a
    number from 1 to 5, provided no wheel event carries NaN as its
    [deltaY]: neither the rounding of the sums and products nor an infinite
    [deltaY] leads out of the range. *)
Theorem wheel_keeps_the_scale_in_range (calls : list image_call) :
  forallb wheel_is_number calls = true ->
  let st := fold_left (fun st c => call c st) calls initialImageView in
  (1 <=? imageScale st)%float = true /\ (imageScale st <=? 5)%float = true.
Proof.
  intros N st. subst st.
  assert (G : forall st0,
             (1 <=? imageScale st0)%float = true
             /\ (imageScale st0 <=? 5)%float = true ->
             let st := fold_left (fun st c => call c st) calls st0 in
             (1 <=? imageScale st)%float = true
             /\ (imageScale st <=? 5)%float = true).
  { induction calls as [| c calls IH]; intros st0 B; [exact B |].
    cbn [forallb] in N. apply andb_prop in N. destruct N as [Nc N].
    cbn [fold_left]. apply (IH N). destruct B as [L H].
    destruct c as [e container | e | e container | | | elements];
      cbn [call wheel_is_number] in *.
    - apply handleWheel_scale; trivial. apply negb_true_iff, Nc.
    - split; assumption.
    - unfold handleMouseMove. destruct (negb (isDragging st0));
        [split; assumption |].
      destruct container; split; assumption.
    - split; assumption.
    - split; reflexivity.
    - destruct elements as [[natural client] |]; split; assumption. }
  apply G. split; reflexivity.
Qed.

Lemma wheel_scale_witness :
  let st :=
      fold_left (fun st c => call c st)
                [ Wheel {| clientX := 10; clientY := 20; deltaY := -300 |} None;
                  MouseDown {| clientX := 10; clientY := 20; deltaY := 0 |};
                  Wheel {| clientX := 10; clientY := 20;
                           deltaY := neg_infinity |}
                        (Some {| rect_left := 0; rect_top := 0;
                                 rect_width := 800; rect_height := 600 |}) ]
                initialImageView in
  (1 <=? imageScale st)%float = true /\ (imageScale st <=? 5)%float = true.
Proof.
  exact (wheel_keeps_the_scale_in_range
           [ Wheel {| clientX := 10; clientY := 20; deltaY := -300 |} None;
             MouseDown {| clientX := 10; clientY := 20; deltaY := 0 |};
             Wheel {| clientX := 10; clientY := 20; deltaY := neg_infinity |}
                   (Some {| rect_left := 0; rect_top := 0;
                            rect_width := 800; rect_height := 600 |}) ]
           eq_refl).
Defined.





